(** * The cluster adder ([adder/adder.go]) as a state-passing program

    [Adder] drives a content DAG builder ([ipfsadd.Adder]) over a file
    source and hands the resulting root to a [ClusterDAGService].  The
    embedding below follows the Go source statement by statement:

    - contexts: the caller's contexts live in the world ([w_done] records
      the ones that are done, with the reason); the context derived by
      [setContext] is a [cancelCtx] that is done as soon as its parent is,
      or once its own cancel function has run;
    - the collaborators (file source, builder, DAG service) are outside
      the file: every call to one of them is answered by a function of
      the call history and of the context state the callee can observe,
      and may come with cancellations of caller contexts that happened
      while the call was running;
    - every call and every context check of [FromFiles] is appended to the
      trace of the world, in the order of execution;
    - a run ends by returning or by panicking (send on a closed channel,
      close of a closed channel, nil dereference); deferred calls run in
      both cases;
    - a send on the output queue is a step of the run that completes;
      whether it can block is the matter of the queue and its consumer,
      modelled apart as a step relation ([q_step]).

    Callers pass contexts and DAG services that are not nil, and the
    collaborators return from their calls. *)

From Stdlib Require Import ZArith String Ascii List Lia.
From stdpp Require Import base option list gmap strings.
Import ListNotations.

Local Open Scope Z_scope.

(** ** Errors *)

Inductive error : Type :=
| io_EOF
| context_Canceled
| context_DeadlineExceeded
| fmt_Errorf (msg : string)
| collaborator_error (msg : string).

#[global] Instance error_eq_dec : EqDecision error.
Proof. solve_decision. Defined.

(** [err.Error()] *)
Definition Error (e : error) : string :=
  match e with
  | io_EOF => "EOF"
  | context_Canceled => "context canceled"
  | context_DeadlineExceeded => "context deadline exceeded"
  | fmt_Errorf msg => msg
  | collaborator_error msg => msg
  end.

(** Why a context is done: [cancel()] was called, or its deadline passed. *)
Inductive ctx_reason : Type := Canceled | DeadlineExceeded.

Definition reason_error (r : ctx_reason) : error :=
  match r with
  | Canceled => context_Canceled
  | DeadlineExceeded => context_DeadlineExceeded
  end.

(** The errors a context reports from [Err()]. *)
Definition is_cancellation (e : error) : bool :=
  match e with
  | context_Canceled | context_DeadlineExceeded => true
  | _ => false
  end.

(** The two errors [FromFiles] builds itself with [fmt.Errorf]. *)
Definition bad_cid_version (err : error) : error :=
  fmt_Errorf (String.append "bad CID Version: " (Error err)).

Definition unrecognized_hash_function (name : string) : error :=
  fmt_Errorf (String.append "unrecognized hash function: " name).

Inductive panic : Type :=
| send_on_closed_channel
| close_of_closed_channel
| nil_pointer_dereference.

Inductive Result (A : Type) : Type :=
| Done (x : A)
| Panic (p : panic).
Arguments Done {A} x.
Arguments Panic {A} p.

(** ** Data *)

Definition Cid : Type := string.

(** [ipld.Node], of which [FromFiles] only uses the [Cid()] method. *)
Record Node : Type := { Node_Cid : Cid; Node_data : string }.

(** [cid.Prefix] *)
Record Prefix : Type := {
  Version : Z;
  Codec : Z;
  MhType : Z;
  MhLength : Z
}.

Definition set_MhType (v : Z) (p : Prefix) : Prefix :=
  {| Version := Version p; Codec := Codec p; MhType := v; MhLength := MhLength p |}.

Definition set_MhLength (v : Z) (p : Prefix) : Prefix :=
  {| Version := Version p; Codec := Codec p; MhType := MhType p; MhLength := v |}.

(** Modelled from the spec: [api.AddParams] is declared in the [api]
    package (section 3 of the specification lists the fields);
    [Layout] is a string because [FromFiles] compares it with
    ["trickle"].  [OtherFields] stands for whatever else the struct
    declares, by field name. *)
Record AddParams : Type := {
  Hidden : bool;
  Layout : string;
  RawLeaves : bool;
  Wrap : bool;
  Chunker : string;
  Progress : bool;
  CidVersion : Z;
  HashFun : string;
  OtherFields : list (string * string)
}.

(** The fields of the parameters that [FromFiles] reads. *)
Definition read_fields (p : AddParams)
  : bool * string * bool * bool * string * bool * Z * string :=
  (Hidden p, Layout p, RawLeaves p, Wrap p, Chunker p, Progress p,
   CidVersion p, HashFun p).

(** Modelled from the spec: [api.AddedOutput], the progress event. *)
Record AddedOutput : Type := {
  out_Name : string;
  out_Cid : Cid;
  out_Size : Z
}.

(** A file handed out by [NextFile]. *)
Record FileItem : Type := {
  FullPath : string;
  Content : string
}.

(** The exported fields of [ipfsadd.Adder] that [FromFiles] assigns.
    The field [Out] is not listed: it is bound to [a.output], so every
    event the builder emits is sent on that channel. *)
Record ipfsadd_Adder : Type := {
  b_Hidden : bool;
  b_Trickle : bool;
  b_RawLeaves : bool;
  b_Wrap : bool;
  b_Chunker : string;
  b_Progress : bool;
  b_CidBuilder : option Prefix
}.

Definition set_Hidden (v : bool) (b : ipfsadd_Adder) : ipfsadd_Adder :=
  {| b_Hidden := v; b_Trickle := b_Trickle b; b_RawLeaves := b_RawLeaves b;
     b_Wrap := b_Wrap b; b_Chunker := b_Chunker b; b_Progress := b_Progress b;
     b_CidBuilder := b_CidBuilder b |}.

Definition set_Trickle (v : bool) (b : ipfsadd_Adder) : ipfsadd_Adder :=
  {| b_Hidden := b_Hidden b; b_Trickle := v; b_RawLeaves := b_RawLeaves b;
     b_Wrap := b_Wrap b; b_Chunker := b_Chunker b; b_Progress := b_Progress b;
     b_CidBuilder := b_CidBuilder b |}.

Definition set_RawLeaves (v : bool) (b : ipfsadd_Adder) : ipfsadd_Adder :=
  {| b_Hidden := b_Hidden b; b_Trickle := b_Trickle b; b_RawLeaves := v;
     b_Wrap := b_Wrap b; b_Chunker := b_Chunker b; b_Progress := b_Progress b;
     b_CidBuilder := b_CidBuilder b |}.

Definition set_Wrap (v : bool) (b : ipfsadd_Adder) : ipfsadd_Adder :=
  {| b_Hidden := b_Hidden b; b_Trickle := b_Trickle b; b_RawLeaves := b_RawLeaves b;
     b_Wrap := v; b_Chunker := b_Chunker b; b_Progress := b_Progress b;
     b_CidBuilder := b_CidBuilder b |}.

Definition set_Chunker (v : string) (b : ipfsadd_Adder) : ipfsadd_Adder :=
  {| b_Hidden := b_Hidden b; b_Trickle := b_Trickle b; b_RawLeaves := b_RawLeaves b;
     b_Wrap := b_Wrap b; b_Chunker := v; b_Progress := b_Progress b;
     b_CidBuilder := b_CidBuilder b |}.

Definition set_Progress (v : bool) (b : ipfsadd_Adder) : ipfsadd_Adder :=
  {| b_Hidden := b_Hidden b; b_Trickle := b_Trickle b; b_RawLeaves := b_RawLeaves b;
     b_Wrap := b_Wrap b; b_Chunker := b_Chunker b; b_Progress := v;
     b_CidBuilder := b_CidBuilder b |}.

Definition set_CidBuilder (v : option Prefix) (b : ipfsadd_Adder) : ipfsadd_Adder :=
  {| b_Hidden := b_Hidden b; b_Trickle := b_Trickle b; b_RawLeaves := b_RawLeaves b;
     b_Wrap := b_Wrap b; b_Chunker := b_Chunker b; b_Progress := b_Progress b;
     b_CidBuilder := v |}.

(** ** Channels

    [chan *api.AddedOutput]: its capacity, everything sent on it so far
    (in order), whether it is closed, and whether the goroutine started
    by [New] is receiving from it. *)
Record Chan : Type := {
  ch_cap : nat;
  ch_sent : list AddedOutput;
  ch_closed : bool;
  ch_discarded : bool
}.

(** [make(chan *api.AddedOutput, 100)] followed by
    [go func() { for range out {} }()] *)
Definition make_discarded_chan : Chan :=
  {| ch_cap := 100; ch_sent := []; ch_closed := false; ch_discarded := true |}.

(** [ch <- o] when the send goes through: it panics on a closed channel.
    Whether a send on an open channel goes through or waits for ever
    depends on the capacity and on who receives: that is the matter of
    [q_step] below, and [Ingest] computes what a call does when none of
    its sends waits for ever. *)
Definition chan_send (o : AddedOutput) (ch : Chan) : option Chan :=
  if ch_closed ch then None
  else Some {| ch_cap := ch_cap ch; ch_sent := ch_sent ch ++ [o];
               ch_closed := false; ch_discarded := ch_discarded ch |}.

Fixpoint chan_send_all (os : list AddedOutput) (ch : Chan) : option Chan :=
  match os with
  | [] => Some ch
  | o :: os' =>
      match chan_send o ch with
      | Some ch' => chan_send_all os' ch'
      | None => None
      end
  end.

(** [close(ch)]: panics on a closed channel. *)
Definition chan_close (ch : Chan) : option Chan :=
  if ch_closed ch then None
  else Some {| ch_cap := ch_cap ch; ch_sent := ch_sent ch;
               ch_closed := true; ch_discarded := ch_discarded ch |}.

(** ** Trace, log and world *)

(** What a collaborator may do to the caller's contexts while one of its
    calls is running. *)
Definition cancellations : Type := list (nat * ctx_reason).

Inductive Event : Type :=
| EvCtxErr (st : option error)
    (* a.ctx.Err() at the entry of FromFiles *)
| EvCtxDone (st : option error)
    (* the select on a.ctx.Done() at the top of an iteration *)
| EvNewAdder (st : option error) (res : ipfsadd_Adder + error)
| EvNextFile (res : FileItem + error)
| EvAddFile (st : option error) (b : ipfsadd_Adder) (f : FileItem)
            (res : option error) (outs : list AddedOutput)
| EvFileClose (f : FileItem)
| EvBuilderFinalize (st : option error) (b : ipfsadd_Adder)
                    (res : Node + error) (outs : list AddedOutput)
| EvDgsFinalize (st : option error) (root : Cid)
                (res : option Cid * option error)
| EvCloseOutput
| EvCancel
| EvMultipartClose.

Inductive LogArg : Type :=
| ArgStr (s : string)
| ArgErr (e : error)
| ArgCid (c : option Cid)
| ArgParams (p : option AddParams).

Inductive LogLevel : Type := LDebug | LInfo | LError.

Record LogEntry : Type := {
  log_level : LogLevel;
  log_format : string;
  log_args : list LogArg
}.

Record World : Type := {
  w_done : gmap nat ctx_reason;
  w_trace : list Event;
  w_log : list LogEntry
}.

Definition record (e : Event) (w : World) : World :=
  {| w_done := w_done w; w_trace := w_trace w ++ [e]; w_log := w_log w |}.

Definition log (l : LogLevel) (fmt : string) (args : list LogArg) (w : World) : World :=
  {| w_done := w_done w; w_trace := w_trace w;
     w_log := w_log w ++ [{| log_level := l; log_format := fmt; log_args := args |}] |}.

(** A context that is done stays done, with the reason it had. *)
Definition cancel_ctx (w : World) (r : nat * ctx_reason) : World :=
  match w_done w !! r.1 with
  | Some _ => w
  | None => {| w_done := <[r.1 := r.2]> (w_done w); w_trace := w_trace w; w_log := w_log w |}
  end.

Definition env_cancels (cs : cancellations) (w : World) : World :=
  fold_left cancel_ctx cs w.

(** ** The collaborators *)

(** [files.File] as [FromFiles] uses it: a finite script of answers to
    [NextFile].  Once the script is over, [NextFile] answers [io.EOF]. *)
Record NextFileStep : Type := {
  nf_res : FileItem + error;
  nf_cancels : cancellations
}.

Definition File : Type := list NextFileStep.

Definition NextFile (fs : File) : (FileItem + error) * cancellations * File :=
  match fs with
  | [] => (inr io_EOF, [], [])
  | s :: rest => (nf_res s, nf_cancels s, rest)
  end.

(** [ClusterDAGService]: the [Finalize] method.  The node store methods
    of [ipld.DAGService] are only called by the builder. *)
Record ClusterDAGService : Type := {
  dgs_Finalize :
    list Event -> option error -> Cid ->
    (option Cid * option error) * cancellations
}.

(** [files.MultipartFile] *)
Record MultipartFile (Reader : Type) : Type := {
  Mediatype : string;
  mf_Reader : Reader
}.
Arguments Mediatype {Reader} m.
Arguments mf_Reader {Reader} m.

(** The packages [FromFiles] imports.

    Modelled from the spec: the package [ipfsadd] (section 4.3 of the
    specification: [NewAdder], an incremental [AddFile] and a [Finalize]
    that returns the root node).  The other fields belong to libraries
    outside the repository and are parameters. *)
Record Libs (Reader : Type) : Type := {
  ipfsadd_NewAdder :
    list Event -> option error -> ClusterDAGService ->
    (ipfsadd_Adder + error) * cancellations;
  ipfsadd_AddFile :
    list Event -> option error -> ipfsadd_Adder -> FileItem ->
    option error * list AddedOutput * cancellations;
  ipfsadd_Finalize :
    list Event -> option error -> ipfsadd_Adder ->
    (Node + error) * list AddedOutput * cancellations;
  merkledag_PrefixForCidVersion : Z -> Prefix + error;
  multihash_Names : gmap string Z;
  strings_ToLower : string -> string;
  MultipartFile_files : MultipartFile Reader -> File
}.
Arguments ipfsadd_NewAdder {Reader} l.
Arguments ipfsadd_AddFile {Reader} l.
Arguments ipfsadd_Finalize {Reader} l.
Arguments merkledag_PrefixForCidVersion {Reader} l.
Arguments multihash_Names {Reader} l.
Arguments strings_ToLower {Reader} l.
Arguments MultipartFile_files {Reader} l.

(** ** The adder *)

(** The context returned by [context.WithCancel(parent)], together with
    the effect of its cancel function. *)
Record cancelCtx : Type := {
  ctx_parent : nat;
  ctx_own : option ctx_reason
}.

Record Adder : Type := {
  ctx : option cancelCtx;       (* ctx and cancel; None is nil *)
  dgs : ClusterDAGService;
  params : option AddParams;    (* *api.AddParams; None is nil *)
  output : Chan
}.

Definition set_ctx (c : option cancelCtx) (a : Adder) : Adder :=
  {| ctx := c; dgs := dgs a; params := params a; output := output a |}.

Definition set_output (ch : Chan) (a : Adder) : Adder :=
  {| ctx := ctx a; dgs := dgs a; params := params a; output := ch |}.

Definition set_params (p : option AddParams) (a : Adder) : Adder :=
  {| ctx := ctx a; dgs := dgs a; params := p; output := output a |}.

(** [c.Err()] *)
Definition ctx_Err (w : World) (c : cancelCtx) : option error :=
  match ctx_own c with
  | Some r => Some (reason_error r)
  | None => reason_error <$> (w_done w !! ctx_parent c)
  end.

Definition New (ds : ClusterDAGService) (p : option AddParams) (out : option Chan) : Adder :=
  let out :=
    match out with
    | None => make_discarded_chan
    | Some ch => ch
    end in
  {| ctx := None; dgs := ds; params := p; output := out |}.

Definition setContext (ctx0 : nat) (a : Adder) : Adder :=
  match ctx a with
  | None => set_ctx (Some {| ctx_parent := ctx0; ctx_own := None |}) a
  | Some _ => a
  end.

(** [a.cancel()]: no effect on a context that is already done. *)
Definition cancel (w : World) (a : Adder) : Adder :=
  match ctx a with
  | Some c =>
      match ctx_Err w c with
      | Some _ => a
      | None => set_ctx (Some {| ctx_parent := ctx_parent c; ctx_own := Some Canceled |}) a
      end
  | None => a
  end.

Section Adder.

Context {Reader : Type}.
Variable lib : Libs Reader.

(** What [FromFiles] returns: a root identifier (nil is [None]) and an
    error (nil is [None]). *)
Definition returned : Type := (option Cid * option error)%type.

(** [addFile(fs, ipfsAdder)].  [c] is the context the builder was created
    with; the builder's events go to [a.output]. *)
Definition addFile (c : cancelCtx) (fs : File) (b : ipfsadd_Adder) (a : Adder) (w : World)
  : Result (option error) * Adder * World :=
  let '(r, cs, _) := NextFile fs in
  let w := env_cancels cs (record (EvNextFile r) w) in
  match r with
  | inr err => (Done (Some err), a, w)
  | inl f =>
      let w := log LDebug "ipfsAdder AddFile(%s)" [ArgStr (FullPath f)] w in
      let st := ctx_Err w c in
      let '(err, outs, cs) := ipfsadd_AddFile lib (w_trace w) st b f in
      let w := env_cancels cs (record (EvAddFile st b f err outs) w) in
      (* defer f.Close() runs whether AddFile returns or panics *)
      match chan_send_all outs (output a) with
      | None => (Panic send_on_closed_channel, a, record (EvFileClose f) w)
      | Some ch => (Done err, set_output ch a, record (EvFileClose f) w)
      end
  end.

(** The statements after the label [FINALIZE]. *)
Definition finalize (c : cancelCtx) (b : ipfsadd_Adder) (a : Adder) (w : World)
  : Result returned * Adder * World :=
  let st := ctx_Err w c in
  let '(r, outs, cs) := ipfsadd_Finalize lib (w_trace w) st b in
  let w := env_cancels cs (record (EvBuilderFinalize st b r outs) w) in
  match chan_send_all outs (output a) with
  | None => (Panic send_on_closed_channel, a, w)
  | Some ch =>
      let a := set_output ch a in
      match r with
      | inr err => (Done (None, Some err), a, w)
      | inl adderRoot =>
          let st := ctx_Err w c in
          let '(res, cs) := dgs_Finalize (dgs a) (w_trace w) st (Node_Cid adderRoot) in
          let w := env_cancels cs (record (EvDgsFinalize st (Node_Cid adderRoot) res) w) in
          match res with
          | (_, Some err) =>
              (Done (None, Some err), a,
               log LError "error finalizing adder:" [ArgErr err] w)
          | (clusterRoot, None) =>
              (Done (clusterRoot, None), a,
               log LInfo "%s successfully added to cluster" [ArgCid clusterRoot] w)
          end
      end
  end.

(** The [for] loop.  Each iteration that goes on has taken one step of
    the file source, so the recursion is on the source; an exhausted
    source answers [io.EOF] and cannot reach the last branch. *)
Fixpoint loop (c : cancelCtx) (b : ipfsadd_Adder) (fs : File) (a : Adder) (w : World)
  {struct fs} : Result returned * Adder * World :=
  let st := ctx_Err w c in
  let w := record (EvCtxDone st) w in
  match st with
  | Some e => (Done (None, Some e), a, w)
  | None =>
      match addFile c fs b a w with
      | (Panic p, a, w) => (Panic p, a, w)
      | (Done (Some io_EOF), a, w) => finalize c b a w
      | (Done (Some err), a, w) =>
          (Done (None, Some err), a,
           log LError "error adding to cluster: " [ArgErr err] w)
      | (Done None, a, w) =>
          match fs with
          | [] => finalize c b a w
          | _ :: rest => loop c b rest a w
          end
      end
  end.

(** The body of [FromFiles] after the two [defer] statements. *)
Definition FromFiles_body (c : cancelCtx) (f : File) (a : Adder) (w : World)
  : Result returned * Adder * World :=
  let st := ctx_Err w c in
  let '(r, cs) := ipfsadd_NewAdder lib (w_trace w) st (dgs a) in
  let w := env_cancels cs (record (EvNewAdder st r) w) in
  match r with
  | inr err => (Done (None, Some err), a, log LError "" [ArgErr err] w)
  | inl ipfsAdder =>
      match params a with
      | None => (Panic nil_pointer_dereference, a, w)
      | Some p =>
          let ipfsAdder := set_Hidden (Hidden p) ipfsAdder in
          let ipfsAdder := set_Trickle (bool_decide (Layout p = "trickle"%string)) ipfsAdder in
          let ipfsAdder := set_RawLeaves (RawLeaves p) ipfsAdder in
          let ipfsAdder := set_Wrap (Wrap p) ipfsAdder in
          let ipfsAdder := set_Chunker (Chunker p) ipfsAdder in
          let ipfsAdder := set_Progress (Progress p) ipfsAdder in
          match merkledag_PrefixForCidVersion lib (CidVersion p) with
          | inr err => (Done (None, Some (bad_cid_version err)), a, w)
          | inl prefix =>
              match multihash_Names lib !! strings_ToLower lib (HashFun p) with
              | None => (Done (None, Some (unrecognized_hash_function (HashFun p))), a, w)
              | Some hashFunCode =>
                  let prefix := set_MhType hashFunCode prefix in
                  let prefix := set_MhLength (-1) prefix in
                  let ipfsAdder := set_CidBuilder (Some prefix) ipfsAdder in
                  loop c ipfsAdder f a w
              end
          end
      end
  end.

(** [close(a.output)] as a deferred call: a panic of its own replaces the
    way the body ended. *)
Definition deferred_close (r : Result returned) (a : Adder) : Result returned * Adder :=
  match chan_close (output a) with
  | Some ch => (r, set_output ch a)
  | None => (Panic close_of_closed_channel, a)
  end.

Definition FromFiles (ctx0 : nat) (f : File) (a : Adder) (w : World)
  : Result returned * Adder * World :=
  let w := log LDebug "adding from files" [] w in
  let a := setContext ctx0 a in
  match ctx a with
  | None => (Panic nil_pointer_dereference, a, w)
  | Some c =>
      let st := ctx_Err w c in
      let w := record (EvCtxErr st) w in
      match st with
      | Some e => (Done (None, Some e), a, w)    (* don't allow running twice *)
      | None =>
          let '(r, a, w) := FromFiles_body c f a w in
          (* defer close(a.output) *)
          let w := record EvCloseOutput w in
          let '(r, a) := deferred_close r a in
          (* defer a.cancel() *)
          let w := record EvCancel w in
          (r, cancel w a, w)
      end
  end.

Definition FromMultipart (ctx0 : nat) (r : Reader) (a : Adder) (w : World)
  : Result returned * Adder * World :=
  let w0 := log LDebug "adding from multipart with params: %+v" [ArgParams (params a)] w in
  let f := {| Mediatype := "multipart/form-data"; mf_Reader := r |} in
  let '(res, a, w) := FromFiles ctx0 (MultipartFile_files lib f) a w0 in
  (* defer f.Close() *)
  (res, a, record EvMultipartClose w).

(** The two entry points. *)
Inductive Source : Type :=
| Files (f : File)
| Multipart (r : Reader).

Definition Ingest (ctx0 : nat) (s : Source) (a : Adder) (w : World)
  : Result returned * Adder * World :=
  match s with
  | Files f => FromFiles ctx0 f a w
  | Multipart r => FromMultipart ctx0 r a w
  end.

End Adder.

(** ** Reading a trace *)

Definition is_builder_call (e : Event) : bool :=
  match e with
  | EvNewAdder _ _ | EvAddFile _ _ _ _ _ | EvBuilderFinalize _ _ _ _ => true
  | _ => false
  end.

Definition is_dgs_call (e : Event) : bool :=
  match e with
  | EvDgsFinalize _ _ _ => true
  | _ => false
  end.

Definition is_source_call (e : Event) : bool :=
  match e with
  | EvNextFile _ => true
  | _ => false
  end.

Definition is_AddFile (e : Event) : bool :=
  match e with
  | EvAddFile _ _ _ _ _ => true
  | _ => false
  end.

Definition is_builder_Finalize (e : Event) : bool :=
  match e with
  | EvBuilderFinalize _ _ _ _ => true
  | _ => false
  end.

(** The calls a run makes to its collaborators. *)
Definition is_work (e : Event) : bool :=
  is_builder_call e || is_dgs_call e || is_source_call e.

(** The files the source handed out, in order. *)
Fixpoint yielded (evs : list Event) : list FileItem :=
  match evs with
  | [] => []
  | EvNextFile (inl f) :: evs' => f :: yielded evs'
  | _ :: evs' => yielded evs'
  end.

(** The files given to the builder's [AddFile], in order. *)
Fixpoint added (evs : list Event) : list FileItem :=
  match evs with
  | [] => []
  | EvAddFile _ _ f _ _ :: evs' => f :: added evs'
  | _ :: evs' => added evs'
  end.

(** The events emitted by the builder, call after call. *)
Fixpoint emitted (evs : list Event) : list AddedOutput :=
  match evs with
  | [] => []
  | EvAddFile _ _ _ _ outs :: evs' => outs ++ emitted evs'
  | EvBuilderFinalize _ _ _ outs :: evs' => outs ++ emitted evs'
  | _ :: evs' => emitted evs'
  end.

(** The events emitted by the [AddFile] call of each file, file by file. *)
Fixpoint progress_of (evs : list Event) : list (FileItem * list AddedOutput) :=
  match evs with
  | [] => []
  | EvAddFile _ _ f _ outs :: evs' => (f, outs) :: progress_of evs'
  | _ :: evs' => progress_of evs'
  end.

(** The settings the builder had at each of its [AddFile] and [Finalize]
    calls. *)
Fixpoint builder_settings (evs : list Event) : list ipfsadd_Adder :=
  match evs with
  | [] => []
  | EvAddFile _ b _ _ _ :: evs' => b :: builder_settings evs'
  | EvBuilderFinalize _ b _ _ :: evs' => b :: builder_settings evs'
  | _ :: evs' => builder_settings evs'
  end.

(** A collaborator call that failed: the source or [AddFile] with an
    error other than [io.EOF], or the builder's [Finalize]. *)
Definition is_failure (e : Event) : bool :=
  match e with
  | EvNextFile (inr io_EOF) => false
  | EvNextFile (inr _) => true
  | EvAddFile _ _ _ (Some io_EOF) _ => false
  | EvAddFile _ _ _ (Some _) _ => true
  | EvBuilderFinalize _ _ (inr _) _ => true
  | _ => false
  end.


(** A check at the top of an iteration that found the token done. *)
Definition is_cancelled_check (e : Event) : bool :=
  match e with
  | EvCtxDone (Some _) => true
  | _ => false
  end.

(** An [AddFile] call that answered [io.EOF], which the loop takes for
    the end of the source. *)
Definition is_AddFile_EOF (e : Event) : bool :=
  match e with
  | EvAddFile _ _ _ (Some io_EOF) _ => true
  | _ => false
  end.

(** The events emitted by the builder's [Finalize]. *)
Fixpoint finalize_emitted (evs : list Event) : list AddedOutput :=
  match evs with
  | [] => []
  | EvBuilderFinalize _ _ _ outs :: evs' => outs ++ finalize_emitted evs'
  | _ :: evs' => finalize_emitted evs'
  end.


(** After [io.EOF] from the source the next call is the builder's
    [Finalize]. *)
Definition EOF_then_Finalize (evs : list Event) : Prop :=
  forall i, evs !! i = Some (EvNextFile (inr io_EOF)) ->
    exists st b res outs, evs !! S i = Some (EvBuilderFinalize st b res outs).

(** The builder as [FromFiles] configures it from the parameters. *)
Definition configured (p : AddParams) (prefix : Prefix) (hashFunCode : Z) : ipfsadd_Adder :=
  {| b_Hidden := Hidden p;
     b_Trickle := bool_decide (Layout p = "trickle"%string);
     b_RawLeaves := RawLeaves p;
     b_Wrap := Wrap p;
     b_Chunker := Chunker p;
     b_Progress := Progress p;
     b_CidBuilder :=
       Some {| Version := Version prefix; Codec := Codec prefix;
               MhType := hashFunCode; MhLength := -1 |} |}.

(** ** The shape of a run

    The events one call of each function appends to the trace, with the
    way the call ends. *)

Inductive AddFileRun (b : ipfsadd_Adder) (fs : File)
  : list Event -> Result (option error) -> Prop :=
| AddFile_source_end err :
    (NextFile fs).1.1 = inr err ->
    AddFileRun b fs [EvNextFile (inr err)] (Done (Some err))
| AddFile_added f st err outs :
    (NextFile fs).1.1 = inl f ->
    AddFileRun b fs [EvNextFile (inl f); EvAddFile st b f err outs; EvFileClose f] (Done err)
| AddFile_send_panic f st err outs :
    (NextFile fs).1.1 = inl f ->
    AddFileRun b fs [EvNextFile (inl f); EvAddFile st b f err outs; EvFileClose f]
               (Panic send_on_closed_channel).

Inductive FinalizeRun (b : ipfsadd_Adder) : list Event -> Result returned -> Prop :=
| Finalize_builder_failed st err outs :
    FinalizeRun b [EvBuilderFinalize st b (inr err) outs] (Done (None, Some err))
| Finalize_send_panic st res outs :
    FinalizeRun b [EvBuilderFinalize st b res outs] (Panic send_on_closed_channel)
| Finalize_dgs_failed st n outs st' root err :
    FinalizeRun b [EvBuilderFinalize st b (inl n) outs;
                   EvDgsFinalize st' (Node_Cid n) (root, Some err)]
                (Done (None, Some err))
| Finalize_ok st n outs st' root :
    FinalizeRun b [EvBuilderFinalize st b (inl n) outs;
                   EvDgsFinalize st' (Node_Cid n) (root, None)]
                (Done (root, None)).

Inductive LoopRun (b : ipfsadd_Adder) : File -> list Event -> Result returned -> Prop :=
| Loop_cancelled fs e :
    is_cancellation e = true ->
    LoopRun b fs [EvCtxDone (Some e)] (Done (None, Some e))
| Loop_next fs evs evs' r :
    AddFileRun b fs evs (Done None) ->
    LoopRun b (tail fs) evs' r ->
    LoopRun b fs (EvCtxDone None :: evs ++ evs') r
| Loop_panic fs evs p :
    AddFileRun b fs evs (Panic p) ->
    LoopRun b fs (EvCtxDone None :: evs) (Panic p)
| Loop_failed fs evs err :
    AddFileRun b fs evs (Done (Some err)) ->
    err <> io_EOF ->
    LoopRun b fs (EvCtxDone None :: evs) (Done (None, Some err))
| Loop_end fs evs evs' r :
    AddFileRun b fs evs (Done (Some io_EOF)) ->
    FinalizeRun b evs' r ->
    LoopRun b fs (EvCtxDone None :: evs ++ evs') r.

(** The body of [FromFiles]: the call of [NewAdder], the configuration
    and, when the configuration is accepted, the loop. *)
Inductive BodyRun {Reader : Type} (lib : Libs Reader) (p : option AddParams) (fs : File)
  : list Event -> Result returned -> Prop :=
| Body_NewAdder_failed st err :
    BodyRun lib p fs [EvNewAdder st (inr err)] (Done (None, Some err))
| Body_nil_params st b0 :
    p = None ->
    BodyRun lib p fs [EvNewAdder st (inl b0)] (Panic nil_pointer_dereference)
| Body_bad_version st b0 pr err :
    p = Some pr ->
    merkledag_PrefixForCidVersion lib (CidVersion pr) = inr err ->
    BodyRun lib p fs [EvNewAdder st (inl b0)] (Done (None, Some (bad_cid_version err)))
| Body_bad_hash st b0 pr prefix :
    p = Some pr ->
    merkledag_PrefixForCidVersion lib (CidVersion pr) = inl prefix ->
    multihash_Names lib !! strings_ToLower lib (HashFun pr) = None ->
    BodyRun lib p fs [EvNewAdder st (inl b0)]
            (Done (None, Some (unrecognized_hash_function (HashFun pr))))
| Body_loop st b0 pr prefix hashFunCode evs r :
    p = Some pr ->
    merkledag_PrefixForCidVersion lib (CidVersion pr) = inl prefix ->
    multihash_Names lib !! strings_ToLower lib (HashFun pr) = Some hashFunCode ->
    LoopRun (configured pr prefix hashFunCode) fs evs r ->
    BodyRun lib p fs (EvNewAdder st (inl b0) :: evs) r.

(** What the two deferred calls make of the way the body ended. *)
Definition after_defers (a : Adder) (r : Result returned) : Result returned :=
  if ch_closed (output a) then Panic close_of_closed_channel else r.

Definition send_panicked {A : Type} (r : Result A) : bool :=
  match r with
  | Panic send_on_closed_channel => true
  | _ => false
  end.

(** The files of a source, in the order it hands them out. *)
Fixpoint files_of (fs : File) : list FileItem :=
  match fs with
  | [] => []
  | s :: rest =>
      match nf_res s with
      | inl f => f :: files_of rest
      | inr _ => files_of rest
      end
  end.

(** A source that hands out its files and then reports [io.EOF]. *)
Definition only_files (fs : File) : Prop :=
  Forall (fun s => exists f, nf_res s = inl f) fs.

(** ** The output queue and its consumer

    The queue seen from the two goroutines that use it: the run still has
    [q_pending] to send and closes the queue when it is over; the
    goroutine of [New] executes [for range out {}].  [q_consumer] is
    [None] when there is no such goroutine, [Some false] while it is in
    its loop and [Some true] once the loop has ended. *)
Record Queue : Type := {
  q_pending : list AddedOutput;
  q_buf : list AddedOutput;
  q_closed : bool;
  q_consumer : option bool
}.

Inductive q_step (cap : nat) : Queue -> Queue -> Prop :=
| q_send o p buf c :
    (length buf < cap)%nat ->
    q_step cap {| q_pending := o :: p; q_buf := buf; q_closed := false; q_consumer := c |}
               {| q_pending := p; q_buf := buf ++ [o]; q_closed := false; q_consumer := c |}
| q_handoff o p :
    q_step cap {| q_pending := o :: p; q_buf := []; q_closed := false; q_consumer := Some false |}
               {| q_pending := p; q_buf := []; q_closed := false; q_consumer := Some false |}
| q_close buf c :
    q_step cap {| q_pending := []; q_buf := buf; q_closed := false; q_consumer := c |}
               {| q_pending := []; q_buf := buf; q_closed := true; q_consumer := c |}
| q_receive o p buf cl :
    q_step cap {| q_pending := p; q_buf := o :: buf; q_closed := cl; q_consumer := Some false |}
               {| q_pending := p; q_buf := buf; q_closed := cl; q_consumer := Some false |}
| q_range_end p :
    q_step cap {| q_pending := p; q_buf := []; q_closed := true; q_consumer := Some false |}
               {| q_pending := p; q_buf := []; q_closed := true; q_consumer := Some true |}.

(** The queue of a run that will emit [outs] on the channel [ch]. *)
Definition queue_of (ch : Chan) (outs : list AddedOutput) : Queue :=
  {| q_pending := outs; q_buf := []; q_closed := ch_closed ch;
     q_consumer := if ch_discarded ch then Some false else None |}.

(** Everything was sent, the queue is closed and the consumer is gone. *)
Definition q_finished (q : Queue) : Prop :=
  q_pending q = [] /\ q_buf q = [] /\ q_closed q = true /\ q_consumer q = Some true.

Definition q_measure (q : Queue) : nat :=
  (2 * length (q_pending q) + length (q_buf q)
   + (if q_closed q then 0 else 1)
   + (match q_consumer q with Some false => 1 | _ => 0 end))%nat.

(** The queue of a run that will emit [outs] on the channel [ch], with
    the goroutine that ranges over it, if there is one: the goroutine of
    [New], or, for a queue given by the caller, a listener of the caller
    ([listener]). *)
Definition served_queue (listener : bool) (ch : Chan) (outs : list AddedOutput) : Queue :=
  {| q_pending := outs; q_buf := []; q_closed := ch_closed ch;
     q_consumer := if ch_discarded ch || listener then Some false else None |}.

(** No send of the run waits for ever: no execution of the queue has more
    than [2 * length outs + 2] steps, and in every state it reaches
    either everything has been sent or a step is possible. *)
Definition never_blocks (listener : bool) (ch : Chan) (outs : list AddedOutput) : Prop :=
  forall n q, nsteps (q_step (ch_cap ch)) n (served_queue listener ch outs) q ->
    (n <= 2 * length outs + 2)%nat /\
    (q_pending q = [] \/ exists q', q_step (ch_cap ch) q q').

(** A call of an entry point on the adder [a], whose queue is read by a
    listener of the caller or not, ends with [r] (a return or a panic)
    after the calls [evs]: that is what [Ingest] computes, and none of
    the sends of these calls waits for ever. *)
Definition ends_with {Reader : Type} (lib : Libs Reader) (listener : bool)
    (ctx0 : nat) (s : Source) (a : Adder) (w : World)
    (r : Result returned) (evs : list Event) : Prop :=
  exists a' w', Ingest lib ctx0 s a w = (r, a', w') /\
    w_trace w' = w_trace w ++ evs /\
    never_blocks listener (output a) (emitted evs).

(** ** What a call leaves alone

    [frame a a' evs panicked]: going from [a] to [a'] with the events
    [evs] only touched the output queue, and on an open queue it sent
    what the builder emitted, without panicking. *)
Definition frame (a a' : Adder) (evs : list Event) (panicked : bool) : Prop :=
  ctx a' = ctx a /\ dgs a' = dgs a /\ params a' = params a /\
  ch_cap (output a') = ch_cap (output a) /\
  ch_discarded (output a') = ch_discarded (output a) /\
  ch_closed (output a') = ch_closed (output a) /\
  (ch_closed (output a) = false ->
   ch_sent (output a') = ch_sent (output a) ++ emitted evs /\ panicked = false).

Definition is_panic {A : Type} (r : Result A) : bool :=
  match r with
  | Panic _ => true
  | Done _ => false
  end.

(** What [FromFiles] returns after a call of [a.dgs.Finalize] that
    answered [res]. *)
Definition dgs_result (res : option Cid * option error) : returned :=
  match res with
  | (_, Some err) => (None, Some err)
  | (clusterRoot, None) => (clusterRoot, None)
  end.

(** A run that did not deliver a root: it panicked, or returned nil with
    an error. *)
Definition failed (r : Result returned) : Prop :=
  is_panic r = true \/ exists err, r = Done (None, Some err).

(** What holds of the queue in every state it can reach. *)
Definition q_inv (q : Queue) : Prop :=
  (q_closed q = true -> q_pending q = []) /\
  (q_consumer q = Some true -> q_closed q = true /\ q_buf q = []).

(** Two worlds in which the collaborators answer alike: they only see the
    trace and the contexts, never the log. *)
Definition same_calls (w1 w2 : World) : Prop :=
  w_done w1 = w_done w2 /\ w_trace w1 = w_trace w2.

(** Two adders that differ at most in the queue they write to. *)
Definition same_adder (a1 a2 : Adder) : Prop :=
  ctx a1 = ctx a2 /\ dgs a1 = dgs a2 /\
  read_fields <$> params a1 = read_fields <$> params a2 /\
  ch_closed (output a1) = ch_closed (output a2).

(** The token of the adder is done. *)
Definition spent (w : World) (a : Adder) : Prop :=
  exists c e, ctx a = Some c /\ ctx_Err w c = Some e /\ is_cancellation e = true.

(** ** A concrete setting

    A builder that accepts every file and emits one event per file when
    progress is on, a DAG service whose [Finalize] returns its argument,
    the two prefixes of [merkledag] and a few names of the
    [multihash] table. *)

Definition ascii_lower (c : ascii) : ascii :=
  let n := nat_of_ascii c in
  if ((65 <=? n) && (n <=? 90))%nat then ascii_of_nat (n + 32) else c.

Fixpoint demo_ToLower (s : string) : string :=
  match s with
  | EmptyString => EmptyString
  | String c s' => String (ascii_lower c) (demo_ToLower s')
  end.

Definition demo_builder0 : ipfsadd_Adder :=
  {| b_Hidden := true; b_Trickle := false; b_RawLeaves := false; b_Wrap := false;
     b_Chunker := ""; b_Progress := false; b_CidBuilder := None |}.

Definition demo_event (f : FileItem) : AddedOutput :=
  {| out_Name := FullPath f;
     out_Cid := String.append "cid-" (Content f);
     out_Size := Z.of_nat (String.length (Content f)) |}.

Definition demo_root (h : list Event) : Node :=
  {| Node_Cid := String.concat "+" (map (fun f => out_Cid (demo_event f)) (added h));
     Node_data := "" |}.

Definition demo_prefix (version : Z) : Prefix + error :=
  if decide (version = 0) then
    inl {| Version := 0; Codec := 112; MhType := 18; MhLength := -1 |}
  else if decide (version = 1) then
    inl {| Version := 1; Codec := 112; MhType := 18; MhLength := -1 |}
  else inr (collaborator_error "unknown CID version").

Definition demo_Names : gmap string Z :=
  <["sha1"%string := 17]> (<["sha2-256"%string := 18]> (<["sha2-512"%string := 19]> ∅)).

Definition demo_files (m : MultipartFile (list FileItem)) : File :=
  if decide (Mediatype m = "multipart/form-data"%string) then
    map (fun f => {| nf_res := inl f; nf_cancels := [] |}) (mf_Reader m)
  else [{| nf_res := inr (collaborator_error "file is not a directory"); nf_cancels := [] |}].

Definition demo_lib : Libs (list FileItem) :=
  {| ipfsadd_NewAdder := fun _ _ _ => (inl demo_builder0, []);
     ipfsadd_AddFile := fun _ _ b f =>
       (None, if b_Progress b then [demo_event f] else [], []);
     ipfsadd_Finalize := fun h _ _ => (inl (demo_root h), [], []);
     merkledag_PrefixForCidVersion := demo_prefix;
     multihash_Names := demo_Names;
     strings_ToLower := demo_ToLower;
     MultipartFile_files := demo_files |}.

Definition demo_dgs : ClusterDAGService :=
  {| dgs_Finalize := fun _ _ root => ((Some root, None), []) |}.

Definition demo_params : AddParams :=
  {| Hidden := false; Layout := "balanced"; RawLeaves := false; Wrap := false;
     Chunker := "size-262144"; Progress := true; CidVersion := 1;
     HashFun := "SHA2-256"; OtherFields := [("Name", "demo")] |}.

Definition demo_world : World :=
  {| w_done := ∅; w_trace := []; w_log := [] |}.

Definition file_A : FileItem := {| FullPath := "a.txt"; Content := "hello" |}.
Definition file_B : FileItem := {| FullPath := "b.txt"; Content := "world" |}.
Definition file_C : FileItem := {| FullPath := "c.txt"; Content := "again" |}.

Definition hands_out (f : FileItem) : NextFileStep :=
  {| nf_res := inl f; nf_cancels := [] |}.

Definition demo_source : File := [hands_out file_A; hands_out file_B; hands_out file_C].

(** A source that fails on its second item. *)
Definition failing_source : File :=
  [hands_out file_A;
   {| nf_res := inr (collaborator_error "read error"); nf_cancels := [] |};
   hands_out file_C].



(** A world in which context 0 is already cancelled. *)
Definition cancelled_world : World :=
  {| w_done := <[0%nat := Canceled]> ∅; w_trace := []; w_log := [] |}.

Definition demo_adder : Adder := New demo_dgs (Some demo_params) None.

Definition open_chan : Chan :=
  {| ch_cap := 0; ch_sent := []; ch_closed := false; ch_discarded := false |}.

(** Parameters with a hash function that is not in the table, and with a
    version that [merkledag] refuses. *)
Definition unknown_hash_params : AddParams :=
  {| Hidden := false; Layout := "balanced"; RawLeaves := false; Wrap := false;
     Chunker := "size-262144"; Progress := true; CidVersion := 1;
     HashFun := "md5"; OtherFields := [] |}.


(** The same parameters as [demo_params] for [FromFiles], with another
    name for the pin. *)
Definition renamed_params : AddParams :=
  {| Hidden := false; Layout := "balanced"; RawLeaves := false; Wrap := false;
     Chunker := "size-262144"; Progress := true; CidVersion := 1;
     HashFun := "SHA2-256"; OtherFields := [("Name", "other")] |}.

(** Runs in the concrete setting. *)
Definition demo_run := FromFiles demo_lib 0 demo_source demo_adder demo_world.

Definition failing_run := FromFiles demo_lib 0 failing_source demo_adder demo_world.


Definition cancelled_run := FromFiles demo_lib 0 demo_source demo_adder cancelled_world.


Definition unknown_hash_run :=
  FromFiles demo_lib 0 demo_source (New demo_dgs (Some unknown_hash_params) None) demo_world.


Definition first_call :=
  Ingest demo_lib 0 (Files demo_source) demo_adder demo_world.

Definition second_call :=
  Ingest demo_lib 1 (Multipart [file_A; file_B]) first_call.1.2
         (env_cancels [(1%nat, DeadlineExceeded)] first_call.2).

Definition listened_call :=
  Ingest demo_lib 0 (Files demo_source) (New demo_dgs (Some demo_params) (Some open_chan))
         demo_world.

Definition multipart_call :=
  FromMultipart demo_lib 0 [file_A; file_B] demo_adder demo_world.

Definition wrapped_call :=
  FromFiles demo_lib 0
    (MultipartFile_files demo_lib
       {| Mediatype := "multipart/form-data"; mf_Reader := [file_A; file_B] |})
    demo_adder demo_world.

Definition renamed_call :=
  Ingest demo_lib 0 (Files demo_source) (set_params (Some renamed_params) demo_adder)
         demo_world.

(** The three sentences of the specification that the code does not
    follow, each for one run.  The error comes back while the output
    queue is still open: *)
Definition error_before_close (run : Result returned * Adder * World) : Prop :=
  (exists err, run.1.1 = Done (None, Some err)) /\ ch_closed (output run.1.2) = false.


(** The output queue is closed when the call is over: *)
Definition closed_on_exit (run : Result returned * Adder * World) : Prop :=
  ch_closed (output run.1.2) = true.

(** ** More readings of a trace *)

(** The files closed by the deferred [f.Close()] of [addFile], in
    order. *)
Fixpoint closed (evs : list Event) : list FileItem :=
  match evs with
  | [] => []
  | EvFileClose f :: evs' => f :: closed evs'
  | _ :: evs' => closed evs'
  end.

(** Every file the source hands out goes to [AddFile] in the next call
    and is closed right after. *)
Definition each_file_closed (evs : list Event) : Prop :=
  forall i f, evs !! i = Some (EvNextFile (inl f)) ->
    (exists st b res outs, evs !! S i = Some (EvAddFile st b f res outs)) /\
    evs !! S (S i) = Some (EvFileClose f).

(** The error with which a call to a collaborator failed; [io.EOF] from
    the source or from [AddFile] is the end of the sequence, not a
    failure. *)
Definition failure_of (e : Event) : option error :=
  match e with
  | EvNewAdder _ (inr err) => Some err
  | EvNextFile (inr err) => if decide (err = io_EOF) then None else Some err
  | EvAddFile _ _ _ (Some err) _ => if decide (err = io_EOF) then None else Some err
  | EvBuilderFinalize _ _ (inr err) _ => Some err
  | EvDgsFinalize _ _ (_, Some err) => Some err
  | _ => None
  end.

(** What the logger holds: the errors of the entries of level error and
    the roots of the entries of level info. *)
Definition logged_errors (es : list LogEntry) : list error :=
  flat_map (fun en =>
    match log_level en with
    | LError => omap (fun x => match x with ArgErr e => Some e | _ => None end) (log_args en)
    | _ => []
    end) es.

Definition logged_roots (es : list LogEntry) : list (option Cid) :=
  flat_map (fun en =>
    match log_level en with
    | LInfo => omap (fun x => match x with ArgCid c => Some c | _ => None end) (log_args en)
    | _ => []
    end) es.

(** The failures of the collaborators other than the builder's
    [Finalize]. *)
Definition logged_failure (e : Event) : option error :=
  if is_builder_Finalize e then None else failure_of e.

(** [w'] is [w] after the calls [evs] and the log entries [es]. *)
Definition extends (w w' : World) (evs : list Event) (es : list LogEntry) : Prop :=
  w_trace w' = w_trace w ++ evs /\ w_log w' = w_log w ++ es.

(** Collaborators that cancel no context of the caller during their
    calls. *)
Definition quiet_lib {Reader : Type} (lib : Libs Reader) : Prop :=
  (forall h st ds, (ipfsadd_NewAdder lib h st ds).2 = []) /\
  (forall h st b f, (ipfsadd_AddFile lib h st b f).2 = []) /\
  (forall h st b, (ipfsadd_Finalize lib h st b).2 = []).

Definition quiet_dgs (ds : ClusterDAGService) : Prop :=
  forall h st root, (dgs_Finalize ds h st root).2 = [].

Definition quiet_source (fs : File) : Prop :=
  Forall (fun s => nf_cancels s = []) fs.

(** The calls to the builder, in the order the protocol of section 4.3
    of the specification asks for: [AddFile] calls, then at most one
    [Finalize]. *)
Definition adds_then_finalize (calls : list Event) : Prop :=
  exists adds fin, calls = adds ++ fin /\
    Forall (fun e => is_AddFile e = true) adds /\
    (fin = [] \/ exists st b res outs, fin = [EvBuilderFinalize st b res outs]).

(** More runs in the concrete setting: a builder whose [AddFile] answers
    [io.EOF] for the file B, an adder without parameters, a queue of the
    caller that is already closed, and a third call. *)
Definition eof_lib : Libs (list FileItem) :=
  {| ipfsadd_NewAdder := ipfsadd_NewAdder demo_lib;
     ipfsadd_AddFile := fun h st b f =>
       if decide (FullPath f = "b.txt"%string) then (Some io_EOF, [], [])
       else ipfsadd_AddFile demo_lib h st b f;
     ipfsadd_Finalize := ipfsadd_Finalize demo_lib;
     merkledag_PrefixForCidVersion := demo_prefix;
     multihash_Names := demo_Names;
     strings_ToLower := demo_ToLower;
     MultipartFile_files := demo_files |}.

Definition eof_run := FromFiles eof_lib 0 demo_source demo_adder demo_world.

Definition empty_run := FromFiles demo_lib 0 [] demo_adder demo_world.

Definition nil_params_adder : Adder := New demo_dgs None None.

Definition nil_params_run := FromFiles demo_lib 0 demo_source nil_params_adder demo_world.

Definition closed_chan : Chan :=
  {| ch_cap := 1; ch_sent := []; ch_closed := true; ch_discarded := false |}.

Definition closed_queue_adder : Adder :=
  New demo_dgs (Some demo_params) (Some closed_chan).

Definition closed_queue_run :=
  FromFiles demo_lib 0 demo_source closed_queue_adder demo_world.

Definition third_call :=
  Ingest demo_lib 2 (Files demo_source) second_call.1.2
         (env_cancels [(2%nat, Canceled)] second_call.2).

(** * Facts *)

(** ** Worlds and contexts *)

Lemma cancel_ctx_trace w r : w_trace (cancel_ctx w r) = w_trace w.
Proof. unfold cancel_ctx. by destruct (w_done w !! r.1). Qed.

Lemma cancel_ctx_done_mono w r k x :
  w_done w !! k = Some x -> w_done (cancel_ctx w r) !! k = Some x.
Proof.
  intros Hk. unfold cancel_ctx.
  destruct (w_done w !! r.1) eqn:Hr; simpl; [done|].
  rewrite lookup_insert_ne; [done|]. intros E. rewrite E in Hr. congruence.
Qed.

Lemma cancel_ctx_same w1 w2 r :
  same_calls w1 w2 -> same_calls (cancel_ctx w1 r) (cancel_ctx w2 r).
Proof.
  intros [Hd Ht]. unfold cancel_ctx. rewrite Hd.
  destruct (w_done w2 !! r.1); split; simpl; congruence.
Qed.

Lemma env_cancels_trace cs w : w_trace (env_cancels cs w) = w_trace w.
Proof.
  unfold env_cancels. revert w.
  induction cs as [|r cs IH]; intros w; simpl; [done|].
  by rewrite IH, cancel_ctx_trace.
Qed.

Lemma env_cancels_done_mono cs w k x :
  w_done w !! k = Some x -> w_done (env_cancels cs w) !! k = Some x.
Proof.
  unfold env_cancels. revert w.
  induction cs as [|r cs IH]; intros w Hk; simpl; [done|].
  apply IH. by apply cancel_ctx_done_mono.
Qed.

Lemma env_cancels_same cs w1 w2 :
  same_calls w1 w2 -> same_calls (env_cancels cs w1) (env_cancels cs w2).
Proof.
  unfold env_cancels. revert w1 w2.
  induction cs as [|r cs IH]; intros w1 w2 H; simpl; [done|].
  apply IH. by apply cancel_ctx_same.
Qed.

Lemma record_same e w1 w2 :
  same_calls w1 w2 -> same_calls (record e w1) (record e w2).
Proof. intros [Hd Ht]. split; simpl; congruence. Qed.

Lemma log_same_l l fmt args w1 w2 :
  same_calls w1 w2 -> same_calls (log l fmt args w1) w2.
Proof. intros [Hd Ht]. by split. Qed.

Lemma log_same l1 fmt1 args1 l2 fmt2 args2 w1 w2 :
  same_calls w1 w2 -> same_calls (log l1 fmt1 args1 w1) (log l2 fmt2 args2 w2).
Proof. intros [Hd Ht]. by split. Qed.

Lemma same_calls_refl w : same_calls w w.
Proof. by split. Qed.

Lemma ctx_Err_same w1 w2 c :
  same_calls w1 w2 -> ctx_Err w1 c = ctx_Err w2 c.
Proof. intros [Hd _]. unfold ctx_Err. by rewrite Hd. Qed.

Lemma ctx_Err_cancellation w c e :
  ctx_Err w c = Some e -> is_cancellation e = true.
Proof.
  unfold ctx_Err. destruct (ctx_own c) as [r|].
  - intros [= <-]. by destruct r.
  - destruct (w_done w !! ctx_parent c) as [r|]; simpl; [|done].
    intros [= <-]. by destruct r.
Qed.

(** Once done, a context stays done with the same error, whatever the
    callers cancel afterwards. *)
Lemma ctx_Err_env_cancels cs w c e :
  ctx_Err w c = Some e -> ctx_Err (env_cancels cs w) c = Some e.
Proof.
  unfold ctx_Err. destruct (ctx_own c); [done|].
  destruct (w_done w !! ctx_parent c) as [r|] eqn:Hp; simpl; [|done].
  intros [= <-]. by rewrite (env_cancels_done_mono cs w _ r Hp).
Qed.

Lemma ctx_Err_done_eq w w' c :
  w_done w' = w_done w -> ctx_Err w' c = ctx_Err w c.
Proof. intros H. unfold ctx_Err. by rewrite H. Qed.

(** ** Channels *)

Lemma chan_send_all_open os ch :
  ch_closed ch = false ->
  exists ch', chan_send_all os ch = Some ch' /\
    ch_sent ch' = ch_sent ch ++ os /\ ch_closed ch' = false /\
    ch_cap ch' = ch_cap ch /\ ch_discarded ch' = ch_discarded ch.
Proof.
  revert ch. induction os as [|o os IH]; intros ch Hop; simpl.
  - exists ch. by rewrite app_nil_r.
  - unfold chan_send. rewrite Hop.
    destruct (IH {| ch_cap := ch_cap ch; ch_sent := ch_sent ch ++ [o];
                    ch_closed := false; ch_discarded := ch_discarded ch |})
      as (ch' & Hs & Hsent & Hcl & Hcap & Hd); [done|].
    exists ch'. simpl in *. split; [done|].
    by rewrite Hsent, <- app_assoc.
Qed.

Lemma chan_send_all_closed os ch ch' :
  ch_closed ch = true -> chan_send_all os ch = Some ch' -> ch' = ch /\ os = [].
Proof.
  intros Hcl. destruct os as [|o os]; simpl.
  - by intros [= <-].
  - unfold chan_send. by rewrite Hcl.
Qed.

Lemma chan_send_all_same os ch1 ch2 :
  ch_closed ch1 = ch_closed ch2 ->
  match chan_send_all os ch1, chan_send_all os ch2 with
  | Some ch1', Some ch2' => ch_closed ch1' = ch_closed ch2'
  | None, None => True
  | _, _ => False
  end.
Proof.
  intros Heq. destruct (ch_closed ch1) eqn:H1.
  - destruct os as [|o os]; simpl; [congruence|].
    unfold chan_send. by rewrite H1, <- Heq.
  - destruct (chan_send_all_open os ch1 H1) as (c1 & -> & _ & Hc1 & _).
    destruct (chan_send_all_open os ch2 (eq_sym Heq)) as (c2 & -> & _ & Hc2 & _).
    congruence.
Qed.

(** ** Reading a trace built by concatenation *)

Lemma emitted_app evs1 evs2 : emitted (evs1 ++ evs2) = emitted evs1 ++ emitted evs2.
Proof.
  induction evs1 as [|e evs1 IH]; simpl; [done|].
  destruct e; simpl; rewrite ?IH, ?app_assoc; done.
Qed.

Lemma yielded_app evs1 evs2 : yielded (evs1 ++ evs2) = yielded evs1 ++ yielded evs2.
Proof.
  induction evs1 as [|e evs1 IH]; simpl; [done|].
  destruct e as [| | |[f|err]| | | | | | |]; simpl; rewrite ?IH; done.
Qed.

Lemma added_app evs1 evs2 : added (evs1 ++ evs2) = added evs1 ++ added evs2.
Proof.
  induction evs1 as [|e evs1 IH]; simpl; [done|].
  destruct e; simpl; rewrite ?IH; done.
Qed.

Lemma progress_of_app evs1 evs2 :
  progress_of (evs1 ++ evs2) = progress_of evs1 ++ progress_of evs2.
Proof.
  induction evs1 as [|e evs1 IH]; simpl; [done|].
  destruct e; simpl; rewrite ?IH; done.
Qed.

Lemma builder_settings_app evs1 evs2 :
  builder_settings (evs1 ++ evs2) = builder_settings evs1 ++ builder_settings evs2.
Proof.
  induction evs1 as [|e evs1 IH]; simpl; [done|].
  destruct e; simpl; rewrite ?IH; done.
Qed.

(** ** Frames *)

Lemma frame_id a : frame a a [] false.
Proof. unfold frame. repeat split; simpl; by rewrite ?app_nil_r. Qed.

Lemma frame_trans a a1 a2 evs1 evs2 p :
  frame a a1 evs1 false -> frame a1 a2 evs2 p -> frame a a2 (evs1 ++ evs2) p.
Proof.
  intros (Hc1 & Hd1 & Hp1 & Hcap1 & Hdi1 & Hcl1 & Hs1)
         (Hc2 & Hd2 & Hp2 & Hcap2 & Hdi2 & Hcl2 & Hs2).
  unfold frame. repeat split; try congruence.
  - destruct (Hs1 H) as [E1 _]. destruct Hs2 as [E2 _]; [congruence|].
    by rewrite E2, E1, emitted_app, app_assoc.
  - apply Hs2. congruence.
Qed.

Lemma chan_send_all_frame os ch ch' :
  chan_send_all os ch = Some ch' ->
  ch_cap ch' = ch_cap ch /\ ch_discarded ch' = ch_discarded ch /\
  ch_closed ch' = ch_closed ch /\
  (ch_closed ch = false -> ch_sent ch' = ch_sent ch ++ os).
Proof.
  intros Hs. destruct (ch_closed ch) eqn:Hcl.
  - destruct (chan_send_all_closed os ch ch' Hcl Hs) as [-> ->]. by rewrite Hcl.
  - destruct (chan_send_all_open os ch Hcl) as (c & Hc & Hsent & Hcl' & Hcap & Hd).
    rewrite Hs in Hc. injection Hc as <-. by rewrite Hcl'.
Qed.

Lemma chan_send_all_panics os ch :
  chan_send_all os ch = None -> ch_closed ch = true.
Proof.
  intros Hs. destruct (ch_closed ch) eqn:Hcl; [done|].
  destruct (chan_send_all_open os ch Hcl) as (c & Hc & _). congruence.
Qed.

Lemma frame_send a ch evs outs :
  chan_send_all outs (output a) = Some ch ->
  emitted evs = outs ->
  frame a (set_output ch a) evs false.
Proof.
  intros Hs He. destruct (chan_send_all_frame _ _ _ Hs) as (Hcap & Hd & Hcl & Hsent).
  unfold frame; simpl. repeat split; try done.
  rewrite He. by apply Hsent.
Qed.

Lemma frame_panic a evs outs p :
  chan_send_all outs (output a) = None -> frame a a evs p.
Proof.
  intros Hs. apply chan_send_all_panics in Hs.
  unfold frame. repeat split; try done; congruence.
Qed.

Section AdderFacts.

Context {Reader : Type}.
Variable lib : Libs Reader.

(** ** One call of [addFile] *)

Lemma addFile_spec c fs b a w r a' w' :
  addFile lib c fs b a w = (r, a', w') ->
  exists evs, w_trace w' = w_trace w ++ evs /\
    AddFileRun b fs evs r /\ frame a a' evs (is_panic r).
Proof.
  unfold addFile.
  destruct (NextFile fs) as [[res cs] rest] eqn:Hnf.
  destruct res as [f|err].
  - destruct (ipfsadd_AddFile lib _ _ b f) as [[err outs] cs'] eqn:Hadd.
    destruct (chan_send_all outs (output a)) as [ch|] eqn:Hs; intros [= <- <- <-].
    + eexists. split; [|split].
      * simpl. rewrite env_cancels_trace. simpl. rewrite env_cancels_trace. simpl.
        rewrite <- !app_assoc. reflexivity.
      * apply AddFile_added. by rewrite Hnf.
      * apply (frame_send _ _ _ outs); [done|]. simpl. by rewrite app_nil_r.
    + eexists. split; [|split].
      * simpl. rewrite env_cancels_trace. simpl. rewrite env_cancels_trace. simpl.
        rewrite <- !app_assoc. reflexivity.
      * apply AddFile_send_panic. by rewrite Hnf.
      * by apply (frame_panic _ _ outs).
  - intros [= <- <- <-]. eexists. split; [|split].
    + rewrite env_cancels_trace. simpl. reflexivity.
    + apply AddFile_source_end. by rewrite Hnf.
    + apply frame_id.
Qed.

(** ** The statements after [FINALIZE] *)

Lemma finalize_spec c b a w r a' w' :
  finalize lib c b a w = (r, a', w') ->
  exists evs, w_trace w' = w_trace w ++ evs /\
    FinalizeRun b evs r /\ frame a a' evs (is_panic r).
Proof.
  unfold finalize.
  destruct (ipfsadd_Finalize lib _ _ b) as [[res outs] cs] eqn:Hfin.
  destruct (chan_send_all outs (output a)) as [ch|] eqn:Hs.
  - destruct res as [n|err].
    + destruct (dgs_Finalize _ _ _ _) as [[root [err|]] cs'] eqn:Hd;
        intros [= <- <- <-]; eexists; (split; [|split]).
      * simpl. rewrite env_cancels_trace. simpl. rewrite env_cancels_trace. simpl.
        rewrite <- !app_assoc. reflexivity.
      * apply Finalize_dgs_failed.
      * apply (frame_send _ _ _ outs); [done|]. simpl. by rewrite app_nil_r.
      * simpl. rewrite env_cancels_trace. simpl. rewrite env_cancels_trace. simpl.
        rewrite <- !app_assoc. reflexivity.
      * apply Finalize_ok.
      * apply (frame_send _ _ _ outs); [done|]. simpl. by rewrite app_nil_r.
    + intros [= <- <- <-]. eexists. split; [|split].
      * rewrite env_cancels_trace. simpl. reflexivity.
      * apply Finalize_builder_failed.
      * apply (frame_send _ _ _ outs); [done|]. simpl. by rewrite app_nil_r.
  - intros [= <- <- <-]. eexists. split; [|split].
    + rewrite env_cancels_trace. simpl. reflexivity.
    + apply Finalize_send_panic.
    + by apply (frame_panic _ _ outs).
Qed.

(** ** The loop *)

Lemma loop_unfold c b fs a w :
  loop lib c b fs a w =
  match ctx_Err w c with
  | Some e => (Done (None, Some e), a, record (EvCtxDone (Some e)) w)
  | None =>
      match addFile lib c fs b a (record (EvCtxDone None) w) with
      | (Panic p, a, w) => (Panic p, a, w)
      | (Done (Some io_EOF), a, w) => finalize lib c b a w
      | (Done (Some err), a, w) =>
          (Done (None, Some err), a,
           log LError "error adding to cluster: " [ArgErr err] w)
      | (Done None, a, w) =>
          match fs with
          | [] => finalize lib c b a w
          | _ :: rest => loop lib c b rest a w
          end
      end
  end.
Proof. destruct fs; simpl; by destruct (ctx_Err w c). Qed.

Lemma not_EOF_branch (err : error) (X : Type) (x y : X) :
  err <> io_EOF -> match err with io_EOF => x | _ => y end = y.
Proof. by destruct err. Qed.

(** On an exhausted source [addFile] reports [io.EOF]: the branch of
    [loop] that goes on with an empty source is never taken. *)
Lemma addFile_exhausted c b a w :
  (addFile lib c [] b a w).1.1 = Done (Some io_EOF).
Proof. reflexivity. Qed.

Lemma AddFileRun_nil_goes_on b evs : ~ AddFileRun b [] evs (Done None).
Proof. intros H. inversion H; subst; simpl in *; discriminate. Qed.

Lemma loop_spec c b fs : forall a w r a' w',
  loop lib c b fs a w = (r, a', w') ->
  exists evs, w_trace w' = w_trace w ++ evs /\
    LoopRun b fs evs r /\ frame a a' evs (is_panic r).
Proof.
  induction fs as [|s rest IH]; intros a w r a' w'; rewrite loop_unfold;
    (destruct (ctx_Err w c) as [e|] eqn:Hst;
     [ intros [= <- <- <-]; eexists; split; [reflexivity|]; split;
       [apply Loop_cancelled; by apply (ctx_Err_cancellation w c) | apply frame_id] |]);
    match goal with
    | |- context [addFile lib c ?fs b a ?w0] =>
        destruct (addFile lib c fs b a w0) as [[ra a1] w1] eqn:Hadd
    end;
    destruct (addFile_spec _ _ _ _ _ _ _ _ Hadd) as (evs1 & Ht1 & Hr1 & Hf1);
    simpl in Ht1;
    (destruct ra as [[err|]|p];
     [ destruct (decide (err = io_EOF)) as [->|Hne];
       [ intros Hfin;
         destruct (finalize_spec _ _ _ _ _ _ _ Hfin) as (evs2 & Ht2 & Hr2 & Hf2);
         exists (EvCtxDone None :: evs1 ++ evs2); split; [|split];
         [ rewrite Ht2, Ht1, <- !app_assoc; reflexivity
         | by apply Loop_end
         | apply (frame_trans a a1 a' (EvCtxDone None :: evs1) evs2); [apply Hf1|done] ]
       | rewrite (not_EOF_branch err _ _ _ Hne); intros [= <- <- <-];
         exists (EvCtxDone None :: evs1); split; [|split];
         [ simpl; rewrite Ht1, <- !app_assoc; reflexivity
         | by apply Loop_failed
         | apply Hf1 ] ]
     | idtac
     | intros [= <- <- <-];
       exists (EvCtxDone None :: evs1); split; [|split];
       [ rewrite Ht1, <- !app_assoc; reflexivity
       | by apply Loop_panic
       | apply Hf1 ] ]).
  - by destruct (AddFileRun_nil_goes_on _ _ Hr1).
  - intros Hloop.
    destruct (IH _ _ _ _ _ Hloop) as (evs2 & Ht2 & Hr2 & Hf2).
    exists (EvCtxDone None :: evs1 ++ evs2). split; [|split].
    + rewrite Ht2, Ht1, <- !app_assoc. reflexivity.
    + by apply Loop_next.
    + apply (frame_trans a a1 a' (EvCtxDone None :: evs1) evs2); [apply Hf1|done].
Qed.

End AdderFacts.

Lemma frame_weaken a a' evs p q :
  frame a a' evs p -> (p = false -> q = false) -> frame a a' evs q.
Proof.
  intros (Hc & Hd & Hp & Hcap & Hdi & Hcl & Hs) Hpq.
  unfold frame. repeat split; try done.
  - by apply Hs.
  - apply Hpq. by apply Hs.
Qed.

Lemma frame_cons_silent a a' e evs p :
  emitted [e] = [] -> frame a a' evs p -> frame a a' (e :: evs) p.
Proof.
  intros He (Hc & Hd & Hp & Hcap & Hdi & Hcl & Hs).
  unfold frame. repeat split; try done.
  - change (e :: evs) with ([e] ++ evs). rewrite emitted_app, He. by apply Hs.
  - by apply Hs.
Qed.

Lemma setContext_ctx ctx0 a :
  exists c, ctx (setContext ctx0 a) = Some c /\
    (ctx a = None -> c = {| ctx_parent := ctx0; ctx_own := None |}) /\
    (forall c0, ctx a = Some c0 -> c = c0 /\ setContext ctx0 a = a).
Proof.
  unfold setContext. destruct (ctx a) as [c0|] eqn:Hc.
  - exists c0. rewrite Hc. split; [done|]. split; [done|]. by intros ? [= <-].
  - eexists. simpl. split; [done|]. split; [done|]. done.
Qed.

Lemma setContext_frame ctx0 a :
  dgs (setContext ctx0 a) = dgs a /\ params (setContext ctx0 a) = params a /\
  output (setContext ctx0 a) = output a.
Proof. unfold setContext. by destruct (ctx a). Qed.

Lemma cancel_spent w w' a c :
  ctx a = Some c -> w_done w' = w_done w ->
  exists c' e, ctx (cancel w a) = Some c' /\ ctx_parent c' = ctx_parent c /\
    ctx_Err w' c' = Some e /\
    dgs (cancel w a) = dgs a /\ params (cancel w a) = params a /\
    output (cancel w a) = output a.
Proof.
  intros Hc Hd. unfold cancel. rewrite Hc.
  destruct (ctx_Err w c) as [e|] eqn:He.
  - exists c, e. rewrite Hc. repeat split; try done.
    by rewrite (ctx_Err_done_eq w w' c Hd).
  - eexists _, context_Canceled. simpl. repeat split; done.
Qed.

Section EntryFacts.

Context {Reader : Type}.
Variable lib : Libs Reader.

Lemma configured_eq b0 p prefix code :
  set_CidBuilder (Some (set_MhLength (-1) (set_MhType code prefix)))
    (set_Progress (Progress p) (set_Chunker (Chunker p) (set_Wrap (Wrap p)
      (set_RawLeaves (RawLeaves p)
        (set_Trickle (bool_decide (Layout p = "trickle"%string))
          (set_Hidden (Hidden p) b0))))))
  = configured p prefix code.
Proof. reflexivity. Qed.

Lemma FromFiles_body_spec c fs a w r a' w' :
  FromFiles_body lib c fs a w = (r, a', w') ->
  exists evs, w_trace w' = w_trace w ++ evs /\
    BodyRun lib (params a) fs evs r /\ frame a a' evs (send_panicked r).
Proof.
  unfold FromFiles_body.
  destruct (ipfsadd_NewAdder lib _ _ _) as [[b0|err] cs] eqn:Hnew.
  - destruct (params a) as [p|] eqn:Hp.
    + destruct (merkledag_PrefixForCidVersion lib (CidVersion p)) as [prefix|err] eqn:Hpre.
      * destruct (multihash_Names lib !! strings_ToLower lib (HashFun p))
          as [code|] eqn:Hh.
        -- rewrite configured_eq. intros Hloop.
           destruct (loop_spec _ _ _ _ _ _ _ _ _ Hloop) as (evs & Ht & Hr & Hf).
           rewrite env_cancels_trace in Ht. simpl in Ht.
           exists (EvNewAdder (ctx_Err w c) (inl b0) :: evs). split; [|split].
           ++ rewrite Ht, <- app_assoc. reflexivity.
           ++ by apply (Body_loop lib _ fs _ b0 p prefix code).
           ++ apply frame_cons_silent; [done|].
              apply (frame_weaken _ _ _ _ _ Hf). by destruct r.
        -- intros [= <- <- <-]. eexists. split; [|split].
           ++ rewrite env_cancels_trace. simpl. reflexivity.
           ++ by apply (Body_bad_hash lib _ fs _ b0 p prefix).
           ++ apply frame_id.
      * intros [= <- <- <-]. eexists. split; [|split].
        -- rewrite env_cancels_trace. simpl. reflexivity.
        -- by apply (Body_bad_version lib _ fs _ b0 p err).
        -- apply frame_id.
    + intros [= <- <- <-]. eexists. split; [|split].
      * rewrite env_cancels_trace. simpl. reflexivity.
      * by apply Body_nil_params.
      * apply frame_id.
  - intros [= <- <- <-]. eexists. split; [|split].
    + simpl. rewrite env_cancels_trace. simpl. reflexivity.
    + apply Body_NewAdder_failed.
    + apply frame_id.
Qed.

(** A call on an adder whose token is done: the guard of [FromFiles]. *)
Lemma FromFiles_spent ctx0 fs a w c e :
  ctx (setContext ctx0 a) = Some c ->
  ctx_Err w c = Some e ->
  FromFiles lib ctx0 fs a w =
  (Done (None, Some e), setContext ctx0 a,
   record (EvCtxErr (Some e)) (log LDebug "adding from files" [] w)).
Proof.
  intros Hc He. unfold FromFiles. rewrite Hc.
  rewrite (ctx_Err_done_eq w (log LDebug "adding from files" [] w) c eq_refl).
  by rewrite He.
Qed.

(** A call that passes the guard. *)
Lemma FromFiles_live ctx0 fs a w c r a' w' :
  ctx (setContext ctx0 a) = Some c ->
  ctx_Err w c = None ->
  FromFiles lib ctx0 fs a w = (r, a', w') ->
  exists evs rb a1,
    BodyRun lib (params a) fs evs rb /\
    w_trace w' = w_trace w ++ EvCtxErr None :: evs ++ [EvCloseOutput; EvCancel] /\
    r = after_defers a rb /\
    frame (setContext ctx0 a) a1 evs (send_panicked rb) /\
    dgs a' = dgs a /\ params a' = params a /\
    ch_cap (output a') = ch_cap (output a) /\
    ch_discarded (output a') = ch_discarded (output a) /\
    ch_sent (output a') = ch_sent (output a1) /\
    ch_closed (output a') = true /\
    exists c' e', ctx a' = Some c' /\ ctx_parent c' = ctx_parent c /\
      ctx_Err w' c' = Some e'.
Proof.
  intros Hc He. unfold FromFiles. rewrite Hc.
  rewrite (ctx_Err_done_eq w (log LDebug "adding from files" [] w) c eq_refl), He.
  destruct (FromFiles_body lib c fs _ _) as [[rb a1] w1] eqn:Hbody.
  destruct (FromFiles_body_spec _ _ _ _ _ _ _ Hbody) as (evs & Ht & Hr & Hf).
  destruct (setContext_frame ctx0 a) as (Hd0 & Hp0 & Ho0).
  pose proof Hf as (Hc1 & Hd1 & Hp1 & Hcap1 & Hdi1 & Hcl1 & Hs1).
  rewrite Hp0 in Hr. simpl in Ht.
  assert (Hcla : ch_closed (output a) = ch_closed (output a1)) by congruence.
  assert (Htr : w_trace (record EvCancel (record EvCloseOutput w1)) =
                w_trace w ++ EvCtxErr None :: evs ++ [EvCloseOutput; EvCancel]).
  { simpl. rewrite Ht, <- !app_assoc. reflexivity. }
  unfold deferred_close, chan_close.
  destruct (ch_closed (output a1)) eqn:Hcl; intros [= <- <- <-].
  - set (w2 := record EvCancel (record EvCloseOutput w1)) in *.
    destruct (cancel_spent w2 w2 a1 c) as (c' & e' & Hc' & Hpar & He' & Hd' & Hp' & Ho');
      [congruence|done|].
    exists evs, rb, a1. rewrite Hd', Hp', Ho'.
    split_and!; try congruence.
    + unfold after_defers. by rewrite Hcla.
    + by exists c', e'.
  - set (w2 := record EvCancel (record EvCloseOutput w1)) in *.
    set (a2 := set_output _ a1).
    destruct (cancel_spent w2 w2 a2 c) as (c' & e' & Hc' & Hpar & He' & Hd' & Hp' & Ho');
      [unfold a2; simpl; congruence|done|].
    exists evs, rb, a1. rewrite Hd', Hp', Ho'. simpl.
    split_and!; try congruence; try exact Htr.
    + unfold after_defers. by rewrite Hcla.
    + by exists c', e'.
Qed.

End EntryFacts.

(** ** Two runs side by side

    The collaborators see the trace and the contexts only, and the adder
    never reads its queue: runs from worlds with the same trace and
    contexts, on adders that agree on what [FromFiles] reads, end alike. *)

Section SideBySide.

Context {Reader : Type}.
Variable lib : Libs Reader.

Local Ltac four := refine (conj _ (conj _ (conj _ _))).

Lemma same_adder_set_output a1 a2 ch1 ch2 :
  same_adder a1 a2 -> ch_closed ch1 = ch_closed ch2 ->
  same_adder (set_output ch1 a1) (set_output ch2 a2).
Proof. intros (Hc & Hd & Hp & Hcl) H. by repeat split. Qed.

Lemma addFile_side c fs b a1 a2 w1 w2 :
  same_adder a1 a2 -> same_calls w1 w2 ->
  match addFile lib c fs b a1 w1, addFile lib c fs b a2 w2 with
  | (r1, a1', w1'), (r2, a2', w2') =>
      r1 = r2 /\ same_adder a1' a2' /\ same_calls w1' w2' /\
      (output a1 = output a2 -> output a1' = output a2')
  end.
Proof.
  intros Ha Hw. unfold addFile.
  destruct (NextFile fs) as [[res cs] rest].
  destruct res as [f|err].
  - pose proof (record_same (EvNextFile (inl f)) _ _ Hw) as Hw1.
    apply (env_cancels_same cs) in Hw1.
    set (v1 := env_cancels cs (record (EvNextFile (inl f)) w1)) in *.
    set (v2 := env_cancels cs (record (EvNextFile (inl f)) w2)) in *.
    pose proof (log_same LDebug "ipfsAdder AddFile(%s)" [ArgStr (FullPath f)]
                  LDebug "ipfsAdder AddFile(%s)" [ArgStr (FullPath f)] _ _ Hw1) as Hw2.
    rewrite (ctx_Err_same _ _ c Hw2).
    destruct Hw2 as [Hd2 Ht2]. simpl in Ht2. simpl w_trace. rewrite Ht2.
    destruct (ipfsadd_AddFile lib _ _ b f) as [[err outs] cs'].
    assert (Hw3 : same_calls
      (env_cancels cs' (record (EvAddFile (ctx_Err (log LDebug "ipfsAdder AddFile(%s)" [ArgStr (FullPath f)] v2) c) b f err outs)
         (log LDebug "ipfsAdder AddFile(%s)" [ArgStr (FullPath f)] v1)))
      (env_cancels cs' (record (EvAddFile (ctx_Err (log LDebug "ipfsAdder AddFile(%s)" [ArgStr (FullPath f)] v2) c) b f err outs)
         (log LDebug "ipfsAdder AddFile(%s)" [ArgStr (FullPath f)] v2)))).
    { apply env_cancels_same, record_same. by split. }
    destruct Ha as (Hc & Hd & Hp & Hcl).
    pose proof (chan_send_all_same outs _ _ Hcl) as Hsend.
    destruct (chan_send_all outs (output a1)) as [ch1|] eqn:E1;
      destruct (chan_send_all outs (output a2)) as [ch2|] eqn:E2; try done.
    + four; [done | by apply same_adder_set_output | by apply record_same |].
      simpl. intros Ho. rewrite Ho in E1. congruence.
    + four; [done | done | by apply record_same | done].
  - four; [done | done | by apply env_cancels_same, record_same | done].
Qed.

Lemma finalize_side c b a1 a2 w1 w2 :
  same_adder a1 a2 -> same_calls w1 w2 ->
  match finalize lib c b a1 w1, finalize lib c b a2 w2 with
  | (r1, a1', w1'), (r2, a2', w2') =>
      r1 = r2 /\ same_adder a1' a2' /\ same_calls w1' w2' /\
      (output a1 = output a2 -> output a1' = output a2')
  end.
Proof.
  intros Ha Hw. unfold finalize.
  rewrite (ctx_Err_same _ _ c Hw).
  pose proof Hw as [Hd0 Ht0]. rewrite Ht0.
  destruct (ipfsadd_Finalize lib _ _ b) as [[res outs] cs].
  pose proof (record_same (EvBuilderFinalize (ctx_Err w2 c) b res outs) _ _ Hw) as Hw1.
  apply (env_cancels_same cs) in Hw1.
  set (v1 := env_cancels cs _) in *. set (v2 := env_cancels cs _) in *.
  destruct Ha as (Hc & Hd & Hp & Hcl).
  pose proof (chan_send_all_same outs _ _ Hcl) as Hsend.
  destruct (chan_send_all outs (output a1)) as [ch1|] eqn:E1;
    destruct (chan_send_all outs (output a2)) as [ch2|] eqn:E2; try done.
  assert (Heq : output a1 = output a2 -> ch1 = ch2).
  { intros Ho. rewrite Ho in E1. congruence. }
  destruct res as [n|err].
  - simpl dgs. rewrite Hd, (ctx_Err_same _ _ c Hw1).
    destruct Hw1 as [Hd1 Ht1]. rewrite Ht1.
    destruct (dgs_Finalize _ _ _ _) as [[root [err|]] cs'];
      (four; [done | by apply same_adder_set_output | | done]);
      apply log_same, env_cancels_same, record_same; by split.
  - four; [done | by apply same_adder_set_output | done | done].
Qed.

Lemma loop_side c b fs : forall a1 a2 w1 w2,
  same_adder a1 a2 -> same_calls w1 w2 ->
  match loop lib c b fs a1 w1, loop lib c b fs a2 w2 with
  | (r1, a1', w1'), (r2, a2', w2') =>
      r1 = r2 /\ same_adder a1' a2' /\ same_calls w1' w2' /\
      (output a1 = output a2 -> output a1' = output a2')
  end.
Proof.
  induction fs as [|s rest IH]; intros a1 a2 w1 w2 Ha Hw;
    rewrite !loop_unfold; rewrite (ctx_Err_same _ _ c Hw);
    (destruct (ctx_Err w2 c) as [e|];
     [ four; [done | done | by apply record_same | done] |]);
    match goal with
    | |- context [addFile lib c ?fs b a1 ?v1] =>
        pose proof (addFile_side c fs b a1 a2 _ _ Ha
                      (record_same (EvCtxDone None) _ _ Hw)) as Hadd;
        destruct (addFile lib c fs b a1 v1) as [[r1 b1] v1'];
        match goal with
        | |- context [addFile lib c fs b a2 ?v2] =>
            destruct (addFile lib c fs b a2 v2) as [[r2 b2] v2']
        end
    end;
    destruct Hadd as (<- & Ha' & Hw' & Ho');
    (destruct r1 as [[err|]|p];
     [ destruct (decide (err = io_EOF)) as [->|Hne];
       [ pose proof (finalize_side c b b1 b2 _ _ Ha' Hw') as Hfin;
         destruct (finalize lib c b b1 v1') as [[r1 c1] u1];
         destruct (finalize lib c b b2 v2') as [[r2 c2] u2];
         destruct Hfin as (-> & Ha'' & Hw'' & Ho'');
         four; [done | done | done | intros Ho; by apply Ho'', Ho']
       | rewrite !(not_EOF_branch err _ _ _ Hne);
         four; [done | done | by apply log_same | done] ]
     | idtac
     | four; done ]).
  - pose proof (finalize_side c b b1 b2 _ _ Ha' Hw') as Hfin.
    destruct (finalize lib c b b1 v1') as [[r1 c1] u1].
    destruct (finalize lib c b b2 v2') as [[r2 c2] u2].
    destruct Hfin as (-> & Ha'' & Hw'' & Ho'').
    four; [done | done | done |]. intros Ho. by apply Ho'', Ho'.
  - pose proof (IH b1 b2 _ _ Ha' Hw') as Hrec.
    destruct (loop lib c b rest b1 v1') as [[r1 c1] u1].
    destruct (loop lib c b rest b2 v2') as [[r2 c2] u2].
    destruct Hrec as (-> & Ha'' & Hw'' & Ho'').
    four; [done | done | done |]. intros Ho. by apply Ho'', Ho'.
Qed.

Lemma read_fields_configured p1 p2 prefix code :
  read_fields p1 = read_fields p2 ->
  configured p1 prefix code = configured p2 prefix code /\
  CidVersion p1 = CidVersion p2 /\ HashFun p1 = HashFun p2.
Proof.
  destruct p1, p2. unfold read_fields, configured. simpl.
  intros [= -> -> -> -> -> -> -> ->]. done.
Qed.

Lemma FromFiles_body_side c fs a1 a2 w1 w2 :
  same_adder a1 a2 -> same_calls w1 w2 ->
  match FromFiles_body lib c fs a1 w1, FromFiles_body lib c fs a2 w2 with
  | (r1, a1', w1'), (r2, a2', w2') =>
      r1 = r2 /\ same_adder a1' a2' /\ same_calls w1' w2' /\
      (output a1 = output a2 -> output a1' = output a2')
  end.
Proof.
  intros Ha Hw. unfold FromFiles_body.
  rewrite (ctx_Err_same _ _ c Hw).
  pose proof Hw as [Hd0 Ht0]. rewrite Ht0.
  pose proof Ha as (Hc & Hd & Hp & Hcl). rewrite Hd.
  destruct (ipfsadd_NewAdder lib _ _ _) as [[b0|err] cs].
  - pose proof (env_cancels_same cs _ _
                  (record_same (EvNewAdder (ctx_Err w2 c) (inl b0)) _ _ Hw)) as Hw1.
    destruct (params a1) as [p1|], (params a2) as [p2|]; try done.
    apply (f_equal (default (read_fields p1))) in Hp. simpl in Hp.
    destruct (merkledag_PrefixForCidVersion lib (CidVersion p1)) as [prefix|err] eqn:Hpre.
    + destruct (read_fields_configured p1 p2 prefix 0 Hp) as (_ & Hv & Hh).
      rewrite <- Hv, Hpre, <- Hh.
      destruct (multihash_Names lib !! strings_ToLower lib (HashFun p1)) as [code|]; [|done].
      rewrite !configured_eq.
      destruct (read_fields_configured p1 p2 prefix code Hp) as (<- & _ & _).
      by apply loop_side.
    + destruct (read_fields_configured p1 p2 {| Version := 0; Codec := 0; MhType := 0; MhLength := 0 |} 0 Hp)
        as (_ & Hv & Hh).
      rewrite <- Hv, Hpre. done.
  - four; [done | done | | done].
    apply log_same, env_cancels_same, record_same. done.
Qed.

Lemma cancel_side b1 b2 u1 u2 :
  same_adder b1 b2 -> same_calls u1 u2 ->
  same_adder (cancel u1 b1) (cancel u2 b2) /\
  (output b1 = output b2 -> output (cancel u1 b1) = output (cancel u2 b2)).
Proof.
  intros (Hc & Hd & Hp & Hcl) Hu. unfold cancel. rewrite Hc.
  destruct (ctx b2) as [c2|] eqn:E;
    [|unfold same_adder; repeat split; simpl; congruence].
  rewrite (ctx_Err_same _ _ c2 Hu).
  destruct (ctx_Err u2 c2); unfold same_adder; repeat split; simpl; congruence.
Qed.

Lemma FromFiles_side ctx0 fs a1 a2 w1 w2 :
  same_adder a1 a2 -> same_calls w1 w2 ->
  match FromFiles lib ctx0 fs a1 w1, FromFiles lib ctx0 fs a2 w2 with
  | (r1, a1', w1'), (r2, a2', w2') =>
      r1 = r2 /\ same_adder a1' a2' /\ same_calls w1' w2' /\
      (output a1 = output a2 -> output a1' = output a2')
  end.
Proof.
  intros Ha Hw. unfold FromFiles.
  assert (Ha0 : same_adder (setContext ctx0 a1) (setContext ctx0 a2)).
  { destruct Ha as (Hc & Hd & Hp & Hcl). unfold setContext. rewrite Hc.
    destruct (ctx a2) eqn:E; repeat split; simpl; congruence. }
  assert (Ho0 : output a1 = output a2 ->
                output (setContext ctx0 a1) = output (setContext ctx0 a2)).
  { unfold setContext. by destruct (ctx a1), (ctx a2). }
  pose proof (log_same LDebug "adding from files" [] LDebug "adding from files" [] _ _ Hw)
    as Hw0.
  pose proof Ha0 as (Hc & Hd & Hp & Hcl). rewrite Hc.
  destruct (ctx (setContext ctx0 a2)) as [c|];
    [|four; [done | exact Ha0 | exact Hw0 | exact Ho0]].
  rewrite (ctx_Err_same _ _ c Hw0).
  destruct (ctx_Err _ c) as [e|].
  - four; [done | exact Ha0 | by apply record_same | exact Ho0].
  - pose proof (FromFiles_body_side c fs _ _ _ _ Ha0
                  (record_same (EvCtxErr None) _ _ Hw0)) as Hbody.
    destruct (FromFiles_body lib c fs (setContext ctx0 a1) _) as [[r1 b1] v1].
    destruct (FromFiles_body lib c fs (setContext ctx0 a2) _) as [[r2 b2] v2].
    destruct Hbody as (<- & Hb & Hw' & Ho').
    pose proof (record_same EvCancel _ _ (record_same EvCloseOutput _ _ Hw')) as Hw''.
    pose proof Hb as (Hc' & Hd' & Hp' & Hcl').
    unfold deferred_close, chan_close. rewrite Hcl'.
    destruct (ch_closed (output b2)) eqn:Hb2.
    + destruct (cancel_side b1 b2 _ _ Hb Hw'') as [Hs Hso].
      four; [done | exact Hs | exact Hw'' |].
      intros Ho. by apply Hso, Ho', Ho0.
    + match goal with
      | |- context [cancel ?u1 (set_output ?ch1 b1)] =>
          match goal with
          | |- context [cancel ?u2 (set_output ?ch2 b2)] =>
              destruct (cancel_side (set_output ch1 b1) (set_output ch2 b2) u1 u2)
                as [Hs Hso]; [by apply same_adder_set_output | exact Hw'' |]
          end
      end.
      four; [done | exact Hs | exact Hw'' |].
      intros Ho. apply Hso. simpl. by rewrite (Ho' (Ho0 Ho)).
Qed.

End SideBySide.

(** ** Spent adders *)

Section Spent.

Context {Reader : Type}.
Variable lib : Libs Reader.

(** Whatever the call did, the token of the adder is done afterwards. *)
Lemma FromFiles_leaves_spent ctx0 fs a w r a' w' :
  FromFiles lib ctx0 fs a w = (r, a', w') ->
  exists c e, ctx a' = Some c /\ ctx_Err w' c = Some e.
Proof.
  intros Hrun.
  destruct (setContext_ctx ctx0 a) as (c & Hc & _).
  destruct (ctx_Err w c) as [e|] eqn:He.
  - rewrite (FromFiles_spent lib ctx0 fs a w c e Hc He) in Hrun.
    injection Hrun as <- <- <-. exists c, e. split; [done|].
    by rewrite <- He.
  - destruct (FromFiles_live lib ctx0 fs a w c r a' w' Hc He Hrun)
      as (evs & rb & a1 & _ & _ & _ & _ & _ & _ & _ & _ & _ & _ & c' & e' & Hc' & _ & He').
    by exists c', e'.
Qed.

Lemma Ingest_leaves_spent ctx0 s a w r a' w' :
  Ingest lib ctx0 s a w = (r, a', w') ->
  exists c e, ctx a' = Some c /\ ctx_Err w' c = Some e.
Proof.
  destruct s as [fs|rd]; simpl.
  - apply FromFiles_leaves_spent.
  - unfold FromMultipart.
    destruct (FromFiles lib ctx0 _ a _) as [[r0 a0] w0] eqn:Hrun.
    intros [= <- <- <-].
    destruct (FromFiles_leaves_spent _ _ _ _ _ _ _ Hrun) as (c & e & Hc & He).
    exists c, e. split; [done|]. by rewrite <- He.
Qed.

(** A call on a spent adder returns the error of the token at the guard. *)
Lemma FromFiles_on_spent ctx0 fs a w c e :
  ctx a = Some c -> ctx_Err w c = Some e ->
  FromFiles lib ctx0 fs a w =
  (Done (None, Some e), a,
   record (EvCtxErr (Some e)) (log LDebug "adding from files" [] w)).
Proof.
  intros Hc He.
  destruct (setContext_ctx ctx0 a) as (c0 & Hc0 & _ & Hsame).
  destruct (Hsame c Hc) as [-> Hset].
  rewrite (FromFiles_spent lib ctx0 fs a w c e Hc0 He). by rewrite Hset.
Qed.

Lemma Ingest_on_spent ctx0 s a w c e r a' w' :
  ctx a = Some c -> ctx_Err w c = Some e ->
  Ingest lib ctx0 s a w = (r, a', w') ->
  r = Done (None, Some e) /\ a' = a /\ w_done w' = w_done w /\
  w_trace w' =
    w_trace w ++ EvCtxErr (Some e) ::
      match s with
      | Files _ => []
      | Multipart _ => [EvMultipartClose]
      end.
Proof.
  intros Hc He. destruct s as [fs|rd]; simpl.
  - rewrite (FromFiles_on_spent ctx0 fs a w c e Hc He). by intros [= <- <- <-].
  - unfold FromMultipart.
    rewrite (FromFiles_on_spent ctx0 _ a _ c e Hc); [|by rewrite <- He].
    intros [= <- <- <-]. simpl. by rewrite <- app_assoc.
Qed.

End Spent.

(** ** What the shape of a run says about its trace *)

Section Shapes.

Variable b : ipfsadd_Adder.

Local Ltac run_cases H := inversion H; subst; clear H; simpl in *.

Lemma AddFileRun_settings fs evs r :
  AddFileRun b fs evs r -> Forall (eq b) (builder_settings evs).
Proof. intros H. run_cases H; repeat constructor. Qed.

Lemma FinalizeRun_settings evs r :
  FinalizeRun b evs r -> Forall (eq b) (builder_settings evs).
Proof. intros H. run_cases H; repeat constructor. Qed.

Lemma LoopRun_settings fs evs r :
  LoopRun b fs evs r -> Forall (eq b) (builder_settings evs).
Proof.
  induction 1; simpl; rewrite ?builder_settings_app, ?Forall_app;
    eauto using AddFileRun_settings, FinalizeRun_settings.
Qed.

Lemma AddFileRun_added fs evs r :
  AddFileRun b fs evs r -> added evs = yielded evs.
Proof. intros H. by run_cases H. Qed.

Lemma FinalizeRun_added evs r :
  FinalizeRun b evs r -> added evs = [] /\ yielded evs = [].
Proof. intros H. by run_cases H. Qed.

Lemma LoopRun_added fs evs r :
  LoopRun b fs evs r -> added evs = yielded evs.
Proof.
  induction 1; simpl; rewrite ?added_app, ?yielded_app;
    repeat match goal with
    | H : AddFileRun _ _ _ _ |- _ => apply AddFileRun_added in H; rewrite H
    | H : FinalizeRun _ _ _ |- _ => apply FinalizeRun_added in H; destruct H as [-> ->]
    end; congruence.
Qed.

Lemma AddFileRun_progress fs evs r :
  AddFileRun b fs evs r ->
  map fst (progress_of evs) = added evs /\
  emitted evs = concat (map snd (progress_of evs)) /\
  finalize_emitted evs = [].
Proof. intros H. run_cases H; rewrite ?app_nil_r; done. Qed.

Lemma FinalizeRun_progress evs r :
  FinalizeRun b evs r ->
  progress_of evs = [] /\ emitted evs = finalize_emitted evs.
Proof. intros H. by run_cases H. Qed.

Lemma finalize_emitted_app evs1 evs2 :
  finalize_emitted (evs1 ++ evs2) = finalize_emitted evs1 ++ finalize_emitted evs2.
Proof.
  induction evs1 as [|e evs1 IH]; simpl; [done|].
  destruct e; simpl; rewrite ?IH, ?app_assoc; done.
Qed.

(** The queue receives the events of the files, file after file, and
    then the events of the builder's [Finalize]. *)
Lemma LoopRun_progress fs evs r :
  LoopRun b fs evs r ->
  map fst (progress_of evs) = added evs /\
  emitted evs = concat (map snd (progress_of evs)) ++ finalize_emitted evs.
Proof.
  induction 1 as [fs e Hce|fs evs evs' r Ha Hl [IH1 IH2]|fs evs p Ha|fs evs err Ha Hne
                 |fs evs evs' r Ha Hf]; simpl.
  - done.
  - destruct (AddFileRun_progress _ _ _ Ha) as (H1 & H2 & H3).
    rewrite progress_of_app, added_app, emitted_app, finalize_emitted_app,
      !map_app, concat_app, H1, H2, H3, IH1, IH2. simpl.
    by rewrite <- app_assoc.
  - destruct (AddFileRun_progress _ _ _ Ha) as (H1 & H2 & H3).
    by rewrite H1, H2, H3, app_nil_r.
  - destruct (AddFileRun_progress _ _ _ Ha) as (H1 & H2 & H3).
    by rewrite H1, H2, H3, app_nil_r.
  - destruct (AddFileRun_progress _ _ _ Ha) as (H1 & H2 & H3).
    destruct (FinalizeRun_progress _ _ Hf) as (H4 & H5).
    destruct (FinalizeRun_added _ _ Hf) as (H6 & H7).
    rewrite progress_of_app, added_app, emitted_app, finalize_emitted_app,
      !map_app, concat_app, H1, H2, H3, H4, H5, H6. simpl.
    by rewrite !app_nil_r.
Qed.

End Shapes.

(** ** Positions in a trace *)





Lemma EOF_then_Finalize_silent (evs : list Event) :
  Forall (fun e => is_source_call e = false) evs -> EOF_then_Finalize evs.
Proof.
  intros Hall i Hi.
  apply list_elem_of_lookup_2 in Hi.
  rewrite Forall_forall in Hall. by apply Hall in Hi.
Qed.

Lemma EOF_then_Finalize_cons e (evs : list Event) :
  e <> EvNextFile (inr io_EOF) -> EOF_then_Finalize evs -> EOF_then_Finalize (e :: evs).
Proof.
  intros He Hevs [|i] Hi; simpl in Hi.
  - congruence.
  - destruct (Hevs i Hi) as (st & b & res & outs & Hn). by exists st, b, res, outs.
Qed.

Lemma EOF_then_Finalize_EOF st b res outs (evs : list Event) :
  EOF_then_Finalize evs ->
  EOF_then_Finalize (EvNextFile (inr io_EOF) :: EvBuilderFinalize st b res outs :: evs).
Proof.
  intros Hevs [|[|i]] Hi; simpl in Hi.
  - by exists st, b, res, outs.
  - done.
  - destruct (Hevs i Hi) as (st' & b' & res' & outs' & Hn).
    by exists st', b', res', outs'.
Qed.

Lemma EOF_then_Finalize_app (evs1 evs2 : list Event) :
  EOF_then_Finalize evs1 ->
  Forall (fun e => is_source_call e = false) evs2 ->
  EOF_then_Finalize (evs1 ++ evs2).
Proof.
  intros H1 H2 i Hi.
  apply lookup_app_Some in Hi as [Hi|[_ Hi]].
  - destruct (H1 i Hi) as (st & b & res & outs & Hn). exists st, b, res, outs.
    by apply lookup_app_l_Some.
  - apply list_elem_of_lookup_2 in Hi.
    rewrite Forall_forall in H2. by apply H2 in Hi.
Qed.

Section Order.

Variable b : ipfsadd_Adder.

Local Ltac run_cases H := inversion H; subst; clear H; simpl in *.

Lemma FinalizeRun_no_pull evs r :
  FinalizeRun b evs r -> Forall (fun e => is_source_call e = false) evs.
Proof. intros H. run_cases H; repeat constructor. Qed.

Lemma FinalizeRun_head evs r :
  FinalizeRun b evs r ->
  exists st res outs tl, evs = EvBuilderFinalize st b res outs :: tl.
Proof. intros H. run_cases H; eauto. Qed.


Lemma LoopRun_EOF_then_Finalize fs evs r :
  LoopRun b fs evs r -> EOF_then_Finalize evs.
Proof.
  induction 1 as [fs e Hce|fs evs evs' r Ha Hl IH|fs evs p Ha|fs evs err Ha Hne
                 |fs evs evs' r Ha Hf].
  - apply EOF_then_Finalize_silent. repeat constructor.
  - run_cases Ha. by repeat (apply EOF_then_Finalize_cons; [done|]).
  - run_cases Ha. repeat (apply EOF_then_Finalize_cons; [done|]).
    by apply EOF_then_Finalize_silent.
  - run_cases Ha.
    + apply EOF_then_Finalize_cons; [done|].
      apply EOF_then_Finalize_cons; [congruence|].
      by apply EOF_then_Finalize_silent.
    + repeat (apply EOF_then_Finalize_cons; [done|]).
      by apply EOF_then_Finalize_silent.
  - destruct (FinalizeRun_head _ _ Hf) as (st & res & outs & tl & ->).
    apply FinalizeRun_no_pull in Hf. inversion Hf as [|? ? _ Htl]; subst.
    run_cases Ha.
    + apply EOF_then_Finalize_cons; [done|].
      apply EOF_then_Finalize_EOF. by apply EOF_then_Finalize_silent.
    + repeat (apply EOF_then_Finalize_cons; [done|]).
      by apply EOF_then_Finalize_silent.
Qed.






(** The loop only panics when the builder sends on a closed queue. *)
Lemma LoopRun_panic fs evs p :
  LoopRun b fs evs (Panic p) -> p = send_on_closed_channel.
Proof.
  intros H. remember (Panic p) as r eqn:Hr. revert Hr.
  induction H as [fs e Hce|fs evs evs' r Ha Hl IH|fs evs p' Ha|fs evs err Ha Hne
                 |fs evs evs' r Ha Hf]; intros Hr; try done.
  - by apply IH.
  - injection Hr as ->. by inversion Ha.
  - subst r. by inversion Hf.
Qed.

End Order.

(** ** Finalizing *)

Section Finalizing.

Variable b : ipfsadd_Adder.

Local Ltac run_cases H := inversion H; subst; clear H; simpl in *.

Lemma AddFileRun_no_dgs fs evs r :
  AddFileRun b fs evs r -> Forall (fun e => is_dgs_call e = false) evs.
Proof. intros H. run_cases H; repeat constructor. Qed.

Lemma AddFileRun_clean fs evs r :
  AddFileRun b fs evs r -> r = Done None \/ r = Done (Some io_EOF) ->
  Forall (fun e => is_failure e = false /\ is_dgs_call e = false) evs.
Proof.
  intros H Hr. run_cases H.
  - destruct Hr as [Hr|Hr]; [done|]. injection Hr as ->. repeat constructor.
  - destruct Hr as [Hr|Hr]; injection Hr as ->; repeat constructor.
  - by destruct Hr.
Qed.

Lemma FinalizeRun_finalize evs r :
  FinalizeRun b evs r ->
  (Forall (fun e => is_dgs_call e = false) evs /\ failed r) \/
  (exists st n outs st' res,
     evs = [EvBuilderFinalize st b (inl n) outs; EvDgsFinalize st' (Node_Cid n) res] /\
     r = Done (dgs_result res)).
Proof.
  intros H. run_cases H.
  - left. split; [repeat constructor|]. right. by eexists.
  - left. split; [repeat constructor|]. by left.
  - right. by exists st, n, outs, st', (root, Some err).
  - right. by exists st, n, outs, st', (root, None).
Qed.

(** Either the DAG service was never called and the run failed, or its
    [Finalize] is the last call of the run, right after a builder's
    [Finalize] that succeeded, and nothing failed before. *)
Lemma LoopRun_finalize fs evs r :
  LoopRun b fs evs r ->
  (Forall (fun e => is_dgs_call e = false) evs /\ failed r) \/
  (exists pre st n outs st' res,
     evs = pre ++ [EvBuilderFinalize st b (inl n) outs;
                   EvDgsFinalize st' (Node_Cid n) res] /\
     Forall (fun e => is_failure e = false /\ is_dgs_call e = false) pre /\
     r = Done (dgs_result res)).
Proof.
  induction 1 as [fs e Hce|fs evs evs' r Ha Hl IH|fs evs p Ha|fs evs err Ha Hne
                 |fs evs evs' r Ha Hf].
  - left. split; [repeat constructor|]. right. by eexists.
  - destruct IH as [[Hno Hfail]|(pre & st & n & outs & st' & res & -> & Hpre & ->)].
    + left. split; [|done]. constructor; [done|].
      apply Forall_app. split; [|done]. by apply (AddFileRun_no_dgs _ _ _ Ha).
    + right. exists (EvCtxDone None :: evs ++ pre), st, n, outs, st', res.
      split; [|split; [|done]].
      * simpl. by rewrite app_assoc.
      * constructor; [done|]. apply Forall_app. split; [|done].
        apply (AddFileRun_clean _ _ _ Ha). by left.
  - left. split; [|by left]. constructor; [done|].
    by apply (AddFileRun_no_dgs _ _ _ Ha).
  - left. split; [|right; by eexists]. constructor; [done|].
    by apply (AddFileRun_no_dgs _ _ _ Ha).
  - destruct (FinalizeRun_finalize _ _ Hf)
      as [[Hno Hfail]|(st & n & outs & st' & res & -> & ->)].
    + left. split; [|done]. constructor; [done|].
      apply Forall_app. split; [|done]. by apply (AddFileRun_no_dgs _ _ _ Ha).
    + right. exists (EvCtxDone None :: evs), st, n, outs, st', res.
      split; [done|]. split; [|done].
      constructor; [done|]. apply (AddFileRun_clean _ _ _ Ha). by right.
Qed.

(** A source of files only is read to its end by a run that delivers,
    unless [AddFile] itself answers [io.EOF]. *)
Lemma LoopRun_complete fs evs r :
  LoopRun b fs evs r ->
  only_files fs ->
  (exists root, r = Done (root, None)) ->
  Forall (fun e => is_AddFile_EOF e = false) evs ->
  yielded evs = files_of fs.
Proof.
  induction 1 as [fs e Hce|fs evs evs' r Ha Hl IH|fs evs p Ha|fs evs err Ha Hne
                 |fs evs evs' r Ha Hf]; intros Hfs [root Hr] Hno.
  - done.
  - run_cases Ha. destruct fs as [|s rest]; simpl in *; [done|].
    match goal with H : nf_res s = inl _ |- _ => rewrite H end.
    f_equal. apply IH.
    + by inversion Hfs.
    + by exists root.
    + inversion Hno as [|? ? _ Hno1]; subst.
      inversion Hno1 as [|? ? _ Hno2]; subst.
      inversion Hno2 as [|? ? _ Hno3]; subst.
      by inversion Hno3.
  - done.
  - done.
  - destruct (FinalizeRun_added _ _ _ Hf) as [_ Hy].
    run_cases Ha.
    + rewrite Hy. destruct fs as [|s rest]; simpl in *; [done|].
      inversion Hfs as [|? ? [f Hf'] _]; subst. congruence.
    + inversion Hno as [|? ? _ Hno1]; subst.
      inversion Hno1 as [|? ? _ Hno2]; subst.
      by inversion Hno2.
Qed.

End Finalizing.

(** ** The output queue *)

Lemma q_step_measure cap q q' :
  q_step cap q q' -> (q_measure q' < q_measure q)%nat.
Proof.
  intros H. inversion H; subst; unfold q_measure; simpl;
    rewrite ?length_app; simpl; try destruct c as [[|]|]; try destruct cl; lia.
Qed.

Lemma q_step_inv cap q q' :
  q_step cap q q' -> q_inv q -> q_inv q'.
Proof.
  intros H [Hc He]. inversion H; subst; unfold q_inv in *; simpl in *;
    split; try done; try (intros Hx; destruct (He Hx); done).
Qed.

Lemma q_steps_bounded cap n q q' :
  nsteps (q_step cap) n q q' -> (n + q_measure q' <= q_measure q)%nat.
Proof.
  induction 1 as [|n q q1 q2 Hs _ IH]; [done|].
  apply q_step_measure in Hs. lia.
Qed.

Lemma q_steps_inv cap n q q' :
  nsteps (q_step cap) n q q' -> q_inv q -> q_inv q'.
Proof.
  induction 1 as [|n q q1 q2 Hs _ IH]; [done|].
  intros Hq. apply IH. by apply (q_step_inv cap q).
Qed.

Lemma q_steps_consumer cap n q q' :
  nsteps (q_step cap) n q q' -> is_Some (q_consumer q) -> is_Some (q_consumer q').
Proof.
  induction 1 as [|n q q1 q2 Hs _ IH]; [done|].
  intros Hq. apply IH. inversion Hs; subst; simpl in *; done.
Qed.

(** With a consumer and room for one event, the queue is never stuck
    before everything is sent, the queue closed and the consumer gone. *)
Lemma q_progress cap q :
  (0 < cap)%nat -> q_inv q -> is_Some (q_consumer q) ->
  q_finished q \/ exists q', q_step cap q q'.
Proof.
  intros Hcap [Hc He] [c Hcons].
  destruct q as [p buf cl co]. simpl in *. subst co.
  destruct c.
  - left. destruct (He eq_refl) as [-> ->]. unfold q_finished. simpl.
    by rewrite Hc.
  - right. destruct buf as [|o buf].
    + destruct cl.
      * eexists. apply q_range_end.
      * destruct p as [|o p].
        -- eexists. apply q_close.
        -- eexists. apply q_send. simpl. done.
    + eexists. apply q_receive.
Qed.

(** ** The two entry points *)

Section Entry.

Context {Reader : Type}.
Variable lib : Libs Reader.

Lemma FromFiles_params ctx0 fs a w r a' w' :
  FromFiles lib ctx0 fs a w = (r, a', w') ->
  params a' = params a /\ dgs a' = dgs a.
Proof.
  intros Hrun.
  destruct (setContext_ctx ctx0 a) as (c & Hc & _).
  destruct (setContext_frame ctx0 a) as (Hd & Hp & _).
  destruct (ctx_Err w c) as [e|] eqn:He.
  - rewrite (FromFiles_spent lib ctx0 fs a w c e Hc He) in Hrun.
    by injection Hrun as <- <- <-.
  - by destruct (FromFiles_live lib ctx0 fs a w c r a' w' Hc He Hrun)
      as (evs & rb & a1 & _ & _ & _ & _ & Hd' & Hp' & _).
Qed.

Lemma Ingest_params ctx0 s a w r a' w' :
  Ingest lib ctx0 s a w = (r, a', w') ->
  params a' = params a /\ dgs a' = dgs a.
Proof.
  destruct s as [fs|rd]; simpl.
  - apply FromFiles_params.
  - unfold FromMultipart.
    destruct (FromFiles lib ctx0 _ a _) as [[r0 a0] w0] eqn:Hrun.
    intros [= <- <- <-]. by apply FromFiles_params in Hrun.
Qed.

Lemma Ingest_side ctx0 s a1 a2 w1 w2 :
  same_adder a1 a2 -> same_calls w1 w2 ->
  match Ingest lib ctx0 s a1 w1, Ingest lib ctx0 s a2 w2 with
  | (r1, a1', w1'), (r2, a2', w2') =>
      r1 = r2 /\ same_adder a1' a2' /\ same_calls w1' w2' /\
      (output a1 = output a2 -> output a1' = output a2')
  end.
Proof.
  intros Ha Hw. destruct s as [fs|rd]; simpl.
  - by apply FromFiles_side.
  - unfold FromMultipart.
    match goal with
    | |- context [FromFiles lib ctx0 ?f a1 ?v1] =>
        match goal with
        | |- context [FromFiles lib ctx0 f a2 ?v2] =>
            pose proof (FromFiles_side lib ctx0 f a1 a2 v1 v2 Ha
                          (log_same _ _ _ _ _ _ _ _ Hw)) as Hrun;
            destruct (FromFiles lib ctx0 f a1 v1) as [[r1 b1] u1];
            destruct (FromFiles lib ctx0 f a2 v2) as [[r2 b2] u2]
        end
    end.
    destruct Hrun as (-> & Hb & Hu & Ho).
    refine (conj _ (conj _ (conj _ _))); [done | done | by apply record_same | done].
Qed.

Lemma same_adder_refl a : same_adder a a.
Proof. by repeat split. Qed.

Lemma adder_eq a1 a2 :
  ctx a1 = ctx a2 -> dgs a1 = dgs a2 -> params a1 = params a2 ->
  output a1 = output a2 -> a1 = a2.
Proof. destruct a1, a2. simpl. by intros -> -> -> ->. Qed.

End Entry.

Lemma q_steps_closed cap n q q' :
  nsteps (q_step cap) n q q' -> q_closed q = true -> q_closed q' = true.
Proof.
  induction 1 as [|n q q1 q2 Hs _ IH]; [done|].
  intros Hq. apply IH. inversion Hs; subst; simpl in *; done.
Qed.

(** A closed queue is drained by its consumer, whatever its capacity. *)
Lemma q_progress_closed cap q :
  q_closed q = true -> q_inv q -> is_Some (q_consumer q) ->
  q_finished q \/ exists q', q_step cap q q'.
Proof.
  intros Hcl [Hc He] [c Hcons].
  destruct q as [p buf cl co]. simpl in *. subst co cl.
  destruct c.
  - left. destruct (He eq_refl) as [_ ->]. unfold q_finished. simpl.
    by rewrite Hc.
  - right. destruct buf as [|o buf].
    + eexists. apply q_range_end.
    + eexists. apply q_receive.
Qed.

Section Runs.

Context {Reader : Type}.
Variable lib : Libs Reader.

(** The two ways a call of [FromFiles] goes: stopped at the guard, or
    through the body and the two deferred calls. *)
Lemma FromFiles_run ctx0 fs a w r a' w' :
  FromFiles lib ctx0 fs a w = (r, a', w') ->
  (exists e, is_cancellation e = true /\ r = Done (None, Some e) /\
     w_trace w' = w_trace w ++ [EvCtxErr (Some e)] /\ output a' = output a) \/
  (exists evs rb, BodyRun lib (params a) fs evs rb /\
     w_trace w' = w_trace w ++ EvCtxErr None :: evs ++ [EvCloseOutput; EvCancel] /\
     r = after_defers a rb /\
     ch_closed (output a') = true /\
     (ch_closed (output a) = false ->
      ch_sent (output a') = ch_sent (output a) ++ emitted evs /\
      send_panicked rb = false)).
Proof.
  intros Hrun.
  destruct (setContext_ctx ctx0 a) as (c & Hc & _).
  destruct (setContext_frame ctx0 a) as (_ & _ & Ho).
  destruct (ctx_Err w c) as [e|] eqn:He.
  - left. rewrite (FromFiles_spent lib ctx0 fs a w c e Hc He) in Hrun.
    injection Hrun as <- <- <-. exists e.
    split; [by apply (ctx_Err_cancellation w c)|]. by repeat split.
  - right.
    destruct (FromFiles_live lib ctx0 fs a w c r a' w' Hc He Hrun)
      as (evs & rb & a1 & Hb & Ht & Hr & Hf & _ & _ & _ & _ & Hs & Hcl & _).
    exists evs, rb. repeat split; try done.
    + destruct Hf as (_ & _ & _ & _ & _ & _ & Hsent).
      rewrite Ho in Hsent. rewrite Hs. by apply Hsent.
    + destruct Hf as (_ & _ & _ & _ & _ & _ & Hsent).
      rewrite Ho in Hsent. by apply Hsent.
Qed.

Lemma after_defers_open a rb :
  ch_closed (output a) = false -> after_defers a rb = rb.
Proof. unfold after_defers. by intros ->. Qed.

End Runs.

(** ** Lists of events *)

Lemma filter_none (f : Event -> bool) (l : list Event) :
  Forall (fun e => f e = false) l -> List.filter f l = [].
Proof.
  induction 1 as [|e l He _ IH]; simpl; [done|]. by rewrite He.
Qed.

Lemma Forall_not_Exists (f : Event -> bool) (l : list Event) :
  Forall (fun e => f e = false) l -> ~ Exists (fun e => f e = true) l.
Proof.
  intros Hall Hex. rewrite Forall_forall in Hall. rewrite Exists_exists in Hex.
  destruct Hex as (x & Hin & Hx). apply Hall in Hin. congruence.
Qed.

Lemma Forall_and_l (P Q : Event -> Prop) (l : list Event) :
  Forall (fun e => P e /\ Q e) l -> Forall P l.
Proof. intros H. eapply Forall_impl; [exact H|]. by intros x [Hx _]. Qed.

Lemma Forall_and_r (P Q : Event -> Prop) (l : list Event) :
  Forall (fun e => P e /\ Q e) l -> Forall Q l.
Proof. intros H. eapply Forall_impl; [exact H|]. by intros x [_ Hx]. Qed.

(** The checks, the call of [NewAdder] and the deferred calls add nothing
    to what is read off a trace. *)
Lemma around_body st (evs : list Event) :
  added (EvCtxErr st :: evs ++ [EvCloseOutput; EvCancel]) = added evs /\
  yielded (EvCtxErr st :: evs ++ [EvCloseOutput; EvCancel]) = yielded evs /\
  emitted (EvCtxErr st :: evs ++ [EvCloseOutput; EvCancel]) = emitted evs /\
  progress_of (EvCtxErr st :: evs ++ [EvCloseOutput; EvCancel]) = progress_of evs /\
  finalize_emitted (EvCtxErr st :: evs ++ [EvCloseOutput; EvCancel]) = finalize_emitted evs /\
  builder_settings (EvCtxErr st :: evs ++ [EvCloseOutput; EvCancel]) = builder_settings evs.
Proof.
  simpl. rewrite added_app, yielded_app, emitted_app, progress_of_app,
    finalize_emitted_app, builder_settings_app. simpl.
  by rewrite !app_nil_r.
Qed.

Section Bodies.

Context {Reader : Type}.
Variable lib : Libs Reader.


Lemma BodyRun_EOF_then_Finalize p fs evs r :
  BodyRun lib p fs evs r -> EOF_then_Finalize evs.
Proof.
  intros Hb. inversion Hb; subst;
    try (apply EOF_then_Finalize_silent; by repeat constructor).
  apply EOF_then_Finalize_cons; [done|].
  by eapply LoopRun_EOF_then_Finalize.
Qed.

End Bodies.

(** * The claims *)

(** With a consumer the queue is never stuck before everything is sent,
    the queue closed and the consumer gone, whatever its capacity: on a
    queue without room the send is handed to the consumer. *)
Lemma q_progress_served cap q :
  q_inv q -> is_Some (q_consumer q) ->
  q_finished q \/ exists q', q_step cap q q'.
Proof.
  intros [Hc He] [c Hcons].
  destruct q as [p buf cl co]. simpl in *. subst co.
  destruct c.
  - left. destruct (He eq_refl) as [-> ->]. unfold q_finished. simpl.
    by rewrite Hc.
  - right. destruct buf as [|o buf].
    + destruct cl.
      * eexists. apply q_range_end.
      * destruct p as [|o p].
        -- eexists. apply q_close.
        -- eexists. apply q_handoff.
    + eexists. apply q_receive.
Qed.

Lemma never_blocks_served listener ch outs :
  ch_closed ch = false -> ch_discarded ch || listener = true ->
  never_blocks listener ch outs.
Proof.
  intros Hopen Hserved n q Hsteps.
  unfold served_queue in Hsteps. rewrite Hopen, Hserved in Hsteps. split.
  - apply q_steps_bounded in Hsteps. unfold q_measure in Hsteps at 2.
    simpl in Hsteps. lia.
  - destruct (q_progress_served (ch_cap ch) q) as [Hfin|Hstep].
    + apply (q_steps_inv _ _ _ _ Hsteps). by split.
    + apply (q_steps_consumer _ _ _ _ Hsteps). by eexists.
    + left. by destruct Hfin.
    + by right.
Qed.

(** Without a consumer the sends go into the queue as long as it has
    room, and then nothing moves. *)
Lemma q_unread_reach cap outs k :
  (k <= cap)%nat -> (k <= length outs)%nat ->
  nsteps (q_step cap) k
    {| q_pending := outs; q_buf := []; q_closed := false; q_consumer := None |}
    {| q_pending := drop k outs; q_buf := take k outs; q_closed := false;
       q_consumer := None |}.
Proof.
  induction k as [|k IH]; intros Hcap Hlen.
  - rewrite drop_0, take_0. apply nsteps_O.
  - destruct (lookup_lt_is_Some_2 outs k) as [o Ho]; [lia|].
    eapply nsteps_r; [apply IH; lia|].
    rewrite (drop_S _ _ _ Ho), (take_S_r _ _ _ Ho).
    apply q_send. rewrite length_take. lia.
Qed.

Lemma q_unread_stuck cap p buf q' :
  p <> [] -> (cap <= length buf)%nat ->
  ~ q_step cap {| q_pending := p; q_buf := buf; q_closed := false; q_consumer := None |} q'.
Proof. intros Hp Hfull Hstep. inversion Hstep; subst; simpl in *; try done; lia. Qed.

Lemma unread_blocks ch outs :
  ch_closed ch = false -> ch_discarded ch = false ->
  (ch_cap ch < length outs)%nat -> ~ never_blocks false ch outs.
Proof.
  intros Hopen Hnone Hcap Hnb.
  destruct (Hnb (ch_cap ch)
              {| q_pending := drop (ch_cap ch) outs; q_buf := take (ch_cap ch) outs;
                 q_closed := false; q_consumer := None |}) as [_ [Hp|[q' Hstep]]].
  - unfold served_queue. rewrite Hopen, Hnone. simpl.
    apply q_unread_reach; lia.
  - simpl in Hp. apply (f_equal length) in Hp. rewrite length_drop in Hp.
    simpl in Hp. lia.
  - revert Hstep. apply q_unread_stuck.
    + intros Hp. apply (f_equal length) in Hp. rewrite length_drop in Hp.
      simpl in Hp. lia.
    + rewrite length_take. lia.
Qed.

Lemma Ingest_grows {Reader : Type} (lib : Libs Reader) ctx0 s a w r a' w' :
  Ingest lib ctx0 s a w = (r, a', w') -> exists evs, w_trace w' = w_trace w ++ evs.
Proof.
  assert (HF : forall fs v r a' w', FromFiles lib ctx0 fs a v = (r, a', w') ->
    exists evs, w_trace w' = w_trace v ++ evs).
  { clear. intros fs v r a' w' Hrun.
    destruct (FromFiles_run lib _ _ _ _ _ _ _ Hrun)
      as [(e0 & _ & _ & Ht & _)|(evs & rb & _ & Ht & _)]; by eexists. }
  destruct s as [fs|rd]; simpl.
  - apply HF.
  - unfold FromMultipart.
    destruct (FromFiles lib ctx0 _ a _) as [[r0 a0] w0] eqn:Hrun.
    intros [= <- <- <-]. apply HF in Hrun as [evs Ht].
    exists (evs ++ [EvMultipartClose]). simpl in *. by rewrite Ht, app_assoc.
Qed.

Section Claims.

Context {Reader : Type}.
Variable lib : Libs Reader.

(** C1 (single use).  Take any adder and call an entry point on it
    ([FromFiles] or [FromMultipart]); whatever that first call did and
    however it ended, and whatever the callers cancel afterwards, a second
    call of an entry point returns nil with the error of the adder's own
    token, which is a cancellation error ([context.Canceled], or
    [context.DeadlineExceeded] when the context of the first call had run
    out of time before that call); it leaves the adder and the contexts
    as they were and calls neither the file source, nor the builder, nor
    the DAG service: the trace only grows by the check of the token (and
    by the close of the multipart wrapper). *)
Theorem second_call_is_cancelled ctx1 s1 a w r1 a1 w1 cs ctx2 s2 r2 a2 w2 :
  Ingest lib ctx1 s1 a w = (r1, a1, w1) ->
  Ingest lib ctx2 s2 a1 (env_cancels cs w1) = (r2, a2, w2) ->
  exists c e,
    ctx a1 = Some c /\
    ctx_Err (env_cancels cs w1) c = Some e /\
    is_cancellation e = true /\
    r2 = Done (None, Some e) /\
    a2 = a1 /\
    w_done w2 = w_done (env_cancels cs w1) /\
    exists evs,
      w_trace w2 = w_trace w1 ++ evs /\
      evs = EvCtxErr (Some e) ::
              match s2 with
              | Files _ => []
              | Multipart _ => [EvMultipartClose]
              end /\
      Forall (fun ev => is_work ev = false) evs.
Proof.
  intros H1 H2.
  destruct (Ingest_leaves_spent lib _ _ _ _ _ _ _ H1) as (c & e & Hc & He).
  apply (ctx_Err_env_cancels cs) in He.
  destruct (Ingest_on_spent lib _ _ _ _ c e _ _ _ Hc He H2) as (-> & -> & Hd & Ht).
  exists c, e. split_and!; try done.
  - by apply (ctx_Err_cancellation (env_cancels cs w1) c).
  - rewrite env_cancels_trace in Ht. eexists. split; [exact Ht|]. split; [done|].
    destruct s2; repeat constructor.
Qed.

(** C2 (no partial finalize).  In the calls of one run of [FromFiles],
    the [Finalize] of the DAG service occurs at most once; when it
    occurs, it is the last call of the body (only the two deferred calls
    follow), it comes right after a builder's [Finalize] that succeeded,
    whose root it receives, and no call before it failed.  When the file
    source or the builder's [AddFile] fails with an error other than
    [io.EOF], or the builder's [Finalize] fails, the DAG service is not
    called at all and the run (on an open output queue) returns nil with
    an error. *)
Theorem cluster_finalize_is_guarded ctx0 fs a w r a' w' :
  FromFiles lib ctx0 fs a w = (r, a', w') ->
  exists evs, w_trace w' = w_trace w ++ evs /\
    (length (List.filter is_dgs_call evs) <= 1)%nat /\
    (forall st root res, EvDgsFinalize st root res ∈ evs ->
       exists pre st' b n outs,
         evs = pre ++ [EvBuilderFinalize st' b (inl n) outs;
                       EvDgsFinalize st root res; EvCloseOutput; EvCancel] /\
         root = Node_Cid n /\
         Forall (fun e => is_failure e = false /\ is_dgs_call e = false) pre) /\
    (Exists (fun e => is_failure e = true) evs ->
       Forall (fun e => is_dgs_call e = false) evs /\
       (ch_closed (output a) = false -> exists err, r = Done (None, Some err))).
Proof.
  intros Hrun.
  destruct (FromFiles_run lib _ _ _ _ _ _ _ Hrun)
    as [(e & Hce & -> & Ht & _)|(evs & rb & Hb & Ht & -> & Hcl & Hopen)].
  { exists [EvCtxErr (Some e)]. split; [done|]. split_and!.
    - simpl. lia.
    - intros st root res Hin. by apply list_elem_of_singleton in Hin.
    - intros Hex. apply Exists_cons in Hex as [Hex|Hex]; [done|].
      by apply Exists_nil in Hex. }
  exists (EvCtxErr None :: evs ++ [EvCloseOutput; EvCancel]). split; [done|].
  assert (Hsimple : forall st res,
    evs = [EvNewAdder st res] ->
    (length (List.filter is_dgs_call (EvCtxErr None :: evs ++ [EvCloseOutput; EvCancel])) <= 1)%nat /\
    (forall st0 root res0,
       EvDgsFinalize st0 root res0 ∈ EvCtxErr None :: evs ++ [EvCloseOutput; EvCancel] ->
       exists pre st' b n outs,
         EvCtxErr None :: evs ++ [EvCloseOutput; EvCancel] =
           pre ++ [EvBuilderFinalize st' b (inl n) outs;
                   EvDgsFinalize st0 root res0; EvCloseOutput; EvCancel] /\
         root = Node_Cid n /\
         Forall (fun e => is_failure e = false /\ is_dgs_call e = false) pre) /\
    (Exists (fun e => is_failure e = true)
            (EvCtxErr None :: evs ++ [EvCloseOutput; EvCancel]) ->
       Forall (fun e => is_dgs_call e = false)
              (EvCtxErr None :: evs ++ [EvCloseOutput; EvCancel]) /\
       (ch_closed (output a) = false ->
        exists err, after_defers a rb = Done (None, Some err)))).
  { intros st res ->. simpl. split_and!.
    - lia.
    - intros st0 root res0 Hin.
      repeat (apply elem_of_cons in Hin as [Hin|Hin]; [done|]).
      by apply elem_of_nil in Hin.
    - intros Hex. exfalso. revert Hex. apply Forall_not_Exists.
      repeat constructor. }
  inversion Hb as [st err|st b0 Hp|st b0 pr err Hp Hpre|st b0 pr prefix Hp Hpre Hh
                  |st b0 pr prefix code levs rb' Hp Hpre Hh Hloop]; subst;
    try (by eapply Hsimple).
  destruct (LoopRun_finalize _ _ _ _ Hloop)
    as [[Hno Hfail]|(pre & st1 & n & outs & st' & res & -> & Hpre' & ->)].
  - assert (Hall : Forall (fun e => is_dgs_call e = false)
              (EvCtxErr None :: (EvNewAdder st (inl b0) :: levs) ++
               [EvCloseOutput; EvCancel])).
    { constructor; [done|]. constructor; [done|].
      apply Forall_app. split; [done|]. repeat constructor. }
    split_and!.
    + rewrite (filter_none _ _ Hall). simpl. lia.
    + intros st0 root res0 Hin. rewrite Forall_forall in Hall.
      by apply Hall in Hin.
    + intros _. split; [done|]. intros Hop.
      rewrite (after_defers_open a rb Hop).
      destruct Hfail as [Hpanic|Herr]; [|done].
      destruct rb as [x|p]; [done|].
      apply LoopRun_panic in Hloop. subst p.
      by destruct (Hopen Hop) as [_ Hsp].
  - set (front := EvCtxErr None :: EvNewAdder st (inl b0) :: pre).
    assert (Hfront : Forall (fun e => is_failure e = false /\ is_dgs_call e = false) front).
    { by repeat (constructor; [done|]). }
    assert (Heq : EvCtxErr None ::
              (EvNewAdder st (inl b0) ::
                 pre ++ [EvBuilderFinalize st1 (configured pr prefix code) (inl n) outs;
                         EvDgsFinalize st' (Node_Cid n) res]) ++
              [EvCloseOutput; EvCancel] =
            front ++ [EvBuilderFinalize st1 (configured pr prefix code) (inl n) outs;
                      EvDgsFinalize st' (Node_Cid n) res; EvCloseOutput; EvCancel]).
    { unfold front. simpl. by rewrite <- app_assoc. }
    rewrite Heq. split_and!.
    + rewrite List.filter_app, (filter_none _ _ (Forall_and_r _ _ _ Hfront)). simpl. lia.
    + intros st0 root res0 Hin. apply elem_of_app in Hin as [Hin|Hin].
      * apply Forall_and_r in Hfront. rewrite Forall_forall in Hfront.
        by apply Hfront in Hin.
      * apply elem_of_cons in Hin as [Hin|Hin]; [done|].
        apply elem_of_cons in Hin as [Hin|Hin].
        -- injection Hin as -> -> ->.
           by exists front, st1, (configured pr prefix code), n, outs.
        -- repeat (apply elem_of_cons in Hin as [Hin|Hin]; [done|]).
           by apply elem_of_nil in Hin.
    + intros Hex. exfalso. revert Hex. apply Forall_not_Exists.
      apply Forall_app. split; [by apply Forall_and_l in Hfront|].
      repeat constructor.
Qed.

(** C3, amended (fail-fast configuration).  When the name of the hash
    function, put in lower case, is not in the table of names, a run of
    [FromFiles] never calls the file source nor the builder's [AddFile].
    If the run got to create the builder, its calls are the check of the
    token, [NewAdder] and the two deferred calls; on an open output
    queue it returns nil with a configuration error (the one of the
    version when the version is refused as well, else the one naming
    the hash function); and the deferred close has run: the output queue
    is closed by the time the caller has the error. *)
Theorem unknown_hash_function_fails_fast ctx0 fs a w r a' w' p :
  params a = Some p ->
  multihash_Names lib !! strings_ToLower lib (HashFun p) = None ->
  FromFiles lib ctx0 fs a w = (r, a', w') ->
  exists evs, w_trace w' = w_trace w ++ evs /\
    Forall (fun e => is_source_call e = false /\ is_AddFile e = false) evs /\
    (forall st b0, EvNewAdder st (inl b0) ∈ evs ->
       evs = [EvCtxErr None; EvNewAdder st (inl b0); EvCloseOutput; EvCancel] /\
       ch_closed (output a') = true /\
       (ch_closed (output a) = false ->
        r = Done (None, Some
              match merkledag_PrefixForCidVersion lib (CidVersion p) with
              | inr err => bad_cid_version err
              | inl _ => unrecognized_hash_function (HashFun p)
              end))).
Proof.
  intros Hp Hh Hrun.
  destruct (FromFiles_run lib _ _ _ _ _ _ _ Hrun)
    as [(e & Hce & -> & Ht & _)|(evs & rb & Hb & Ht & -> & Hcl & Hopen)].
  { exists [EvCtxErr (Some e)]. split; [done|]. split; [repeat constructor|].
    intros st b0 Hin. by apply list_elem_of_singleton in Hin. }
  exists (EvCtxErr None :: evs ++ [EvCloseOutput; EvCancel]). split; [done|].
  rewrite Hp in Hb.
  inversion Hb as [st err|st b0 Hp'|st b0 pr err Hp' Hpre|st b0 pr prefix Hp' Hpre Hh'
                  |st b0 pr prefix code levs rb' Hp' Hpre Hh' Hloop]; subst;
    try done; try (injection Hp' as <-); simpl.
  - split; [repeat constructor|]. intros st0 b0 Hin.
    repeat (apply elem_of_cons in Hin as [Hin|Hin]; [done|]).
    by apply elem_of_nil in Hin.
  - split; [repeat constructor|]. intros st0 b1 Hin.
    apply elem_of_cons in Hin as [Hin|Hin]; [done|].
    apply elem_of_cons in Hin as [Hin|Hin].
    + injection Hin as -> ->. split; [done|]. split; [done|].
      intros Hop. by rewrite (after_defers_open a _ Hop), Hpre.
    + repeat (apply elem_of_cons in Hin as [Hin|Hin]; [done|]).
      by apply elem_of_nil in Hin.
  - split; [repeat constructor|]. intros st0 b1 Hin.
    apply elem_of_cons in Hin as [Hin|Hin]; [done|].
    apply elem_of_cons in Hin as [Hin|Hin].
    + injection Hin as -> ->. split; [done|]. split; [done|].
      intros Hop. by rewrite (after_defers_open a _ Hop), Hpre.
    + repeat (apply elem_of_cons in Hin as [Hin|Hin]; [done|]).
      by apply elem_of_nil in Hin.
  - congruence.
Qed.


(** C5 (ordering).  In a run of [FromFiles] the files given to the
    builder's [AddFile] are the files the source handed out, each once
    and in the same order.  The events the builder emits reach the
    output queue (when it is open) in the order of the calls: the events
    of the first file, then those of the second, and so on, then those
    of the builder's [Finalize]; every call is made with the progress
    flag of the parameters.  [io.EOF] from the source is not an error:
    the next call is the builder's [Finalize].  On a source that hands
    out files until it is exhausted, a run that returns without error
    has added all its files, unless [AddFile] itself answered
    [io.EOF]. *)
Theorem files_are_added_in_order ctx0 fs a w r a' w' :
  FromFiles lib ctx0 fs a w = (r, a', w') ->
  exists evs, w_trace w' = w_trace w ++ evs /\
    added evs = yielded evs /\
    map fst (progress_of evs) = added evs /\
    emitted evs = concat (map snd (progress_of evs)) ++ finalize_emitted evs /\
    (ch_closed (output a) = false ->
     ch_sent (output a') = ch_sent (output a) ++ emitted evs) /\
    (forall p, params a = Some p ->
       Forall (fun b => b_Progress b = Progress p) (builder_settings evs)) /\
    EOF_then_Finalize evs /\
    (only_files fs ->
     (exists root, r = Done (root, None)) ->
     Forall (fun e => is_AddFile_EOF e = false) evs ->
     added evs = files_of fs).
Proof.
  intros Hrun.
  destruct (FromFiles_run lib _ _ _ _ _ _ _ Hrun)
    as [(e & Hce & -> & Ht & Ho)|(evs & rb & Hb & Ht & -> & Hcl & Hopen)].
  { exists [EvCtxErr (Some e)]. split; [done|]. simpl. split_and!; try done.
    - intros _. by rewrite Ho, app_nil_r.
    - apply EOF_then_Finalize_silent. repeat constructor.
    - by intros _ [root Hr]. }
  exists (EvCtxErr None :: evs ++ [EvCloseOutput; EvCancel]). split; [done|].
  destruct (around_body None evs) as (-> & -> & -> & -> & -> & ->).
  assert (HEOF : EOF_then_Finalize (EvCtxErr None :: evs ++ [EvCloseOutput; EvCancel])).
  { apply EOF_then_Finalize_cons; [done|].
    apply EOF_then_Finalize_app; [|repeat constructor].
    by apply (BodyRun_EOF_then_Finalize lib _ _ _ _ Hb). }
  assert (Hsent : ch_closed (output a) = false ->
                  ch_sent (output a') = ch_sent (output a) ++ emitted evs).
  { intros Hop. by apply Hopen. }
  inversion Hb as [st err|st b0 Hp'|st b0 pr err Hp' Hpre|st b0 pr prefix Hp' Hpre Hh'
                  |st b0 pr prefix code levs rb' Hp' Hpre Hh' Hloop]; subst; simpl;
    try (split_and!; try done;
         intros _ [root Hr]; unfold after_defers in Hr;
         by destruct (ch_closed (output a))).
  destruct (LoopRun_progress _ _ _ _ Hloop) as [Hpr Hem].
  split_and!; try done.
  - by apply (LoopRun_added _ _ _ _ Hloop).
  - intros p Hp. rewrite Hp in Hp'. injection Hp' as <-.
    pose proof (LoopRun_settings _ _ _ _ Hloop) as Hall.
    eapply Forall_impl; [exact Hall|]. by intros b <-.
  - intros Hfs [root Hr] Hno.
    rewrite (LoopRun_added _ _ _ _ Hloop).
    apply (LoopRun_complete _ _ _ _ Hloop Hfs).
    + exists root. unfold after_defers in Hr.
      by destruct (ch_closed (output a)).
    + inversion Hno as [|? ? _ Hno1]; subst.
      inversion Hno1 as [|? ? _ Hno2]; subst.
      by apply Forall_app in Hno2 as [Hno2 _].
Qed.

(** C6, amended (exit).  After a call of [FromFiles], however it ended,
    the token of the adder is done, so that every later call of an entry
    point returns nil with a cancellation error.  When the token was
    live at entry, the call ends with the two deferred calls, whatever
    happened in between (configuration error, failed iteration, failed
    finalize, cancellation in the loop, success, panic): the output
    queue is closed, and the goroutine of [New], when there is one,
    comes to its end whatever was still in the queue. *)
Theorem every_exit_past_the_guard_closes ctx0 fs a w r a' w' :
  FromFiles lib ctx0 fs a w = (r, a', w') ->
  spent w' a' /\
  (forall cs ctx2 s2,
     exists e, is_cancellation e = true /\
       (Ingest lib ctx2 s2 a' (env_cancels cs w')).1.1 = Done (None, Some e)) /\
  (forall c, ctx (setContext ctx0 a) = Some c -> ctx_Err w c = None ->
     ch_closed (output a') = true /\
     (exists evs, w_trace w' = w_trace w ++ evs ++ [EvCloseOutput; EvCancel]) /\
     (ch_discarded (output a) = true ->
      forall buf n q,
        nsteps (q_step (ch_cap (output a'))) n
               {| q_pending := []; q_buf := buf;
                  q_closed := ch_closed (output a');
                  q_consumer := if ch_discarded (output a') then Some false else None |}
               q ->
        (n <= length buf + 1)%nat /\
        (q_finished q \/ exists q', q_step (ch_cap (output a')) q q'))).
Proof.
  intros Hrun.
  destruct (FromFiles_leaves_spent lib _ _ _ _ _ _ _ Hrun) as (c1 & e1 & Hc1 & He1).
  split_and!.
  - exists c1, e1. split_and!; try done. by apply (ctx_Err_cancellation w' c1).
  - intros cs ctx2 s2. exists e1.
    split; [by apply (ctx_Err_cancellation w' c1)|].
    destruct (Ingest lib ctx2 s2 a' (env_cancels cs w')) as [[r2 a2] w2] eqn:H2.
    by destruct (Ingest_on_spent lib _ _ _ _ c1 e1 _ _ _ Hc1
                   (ctx_Err_env_cancels cs _ _ _ He1) H2) as (-> & _).
  - intros c Hc He.
    destruct (FromFiles_live lib ctx0 fs a w c r a' w' Hc He Hrun)
      as (evs & rb & a1 & _ & Ht & _ & _ & _ & _ & _ & Hdi & _ & Hcl & _).
    split_and!; try done.
    + exists (EvCtxErr None :: evs). by rewrite Ht.
    + intros Hd buf n q. rewrite Hcl, Hdi, Hd. intros Hsteps. split.
      * apply q_steps_bounded in Hsteps. unfold q_measure in Hsteps at 2.
        simpl in Hsteps. lia.
      * apply q_progress_closed.
        -- by apply (q_steps_closed _ _ _ _ Hsteps).
        -- apply (q_steps_inv _ _ _ _ Hsteps). by split.
        -- apply (q_steps_consumer _ _ _ _ Hsteps). by eexists.
Qed.


(** C8 (queue decoupling).  [New] with a nil queue makes the queue of
    capacity 100 that its goroutine drains.  A run on such an adder never
    blocks on the queue, whatever the source and the number of events
    the builder emits: it ends, and none of its sends waits for ever.
    And the listener makes no difference: the run without listener ends
    with a result, after some calls, exactly when the same run on an
    open queue of the caller that a listener reads ends with this
    result, after these calls.  The consumer is what it takes: on a
    queue of the caller that nobody reads, a run that emits more events
    than the queue holds does not end. *)
Theorem listener_is_optional ds p ch ctx0 s w :
  ch_closed ch = false ->
  output (New ds p None) = make_discarded_chan /\
  (exists r evs, ends_with lib false ctx0 s (New ds p None) w r evs) /\
  (forall r evs,
     ends_with lib false ctx0 s (New ds p None) w r evs <->
     ends_with lib true ctx0 s (New ds p (Some ch)) w r evs) /\
  (ch_discarded ch = false ->
   forall r evs, (ch_cap ch < length (emitted evs))%nat ->
     ~ ends_with lib false ctx0 s (New ds p (Some ch)) w r evs).
Proof.
  intros Hch.
  assert (Hsame : same_adder (New ds p None) (New ds p (Some ch))).
  { by repeat split. }
  pose proof (Ingest_side lib ctx0 s _ _ w w Hsame (same_calls_refl w)) as Hside.
  destruct (Ingest lib ctx0 s (New ds p None) w) as [[r1 a1] w1] eqn:H1.
  destruct (Ingest lib ctx0 s (New ds p (Some ch)) w) as [[r2 a2] w2] eqn:H2.
  destruct Hside as (-> & _ & [Hd Ht] & _).
  assert (Hnil : forall outs, never_blocks false (output (New ds p None)) outs).
  { intros outs. by apply never_blocks_served. }
  assert (Hlis : forall outs, never_blocks true (output (New ds p (Some ch))) outs).
  { intros outs. apply never_blocks_served; [done|]. apply orb_true_r. }
  split; [done|]. split.
  - destruct (Ingest_grows lib _ _ _ _ _ _ _ H1) as [evs Hevs].
    exists r2, evs, a1, w1. by split.
  - split.
    + intros r evs. split.
      * intros (a' & w' & Hrun & Hevs & _).
        rewrite H1 in Hrun. injection Hrun as <- <- <-.
        exists a2, w2. split; [done|]. split; [congruence|done].
      * intros (a' & w' & Hrun & Hevs & _).
        rewrite H2 in Hrun. injection Hrun as <- <- <-.
        exists a1, w1. split; [done|]. split; [congruence|done].
    + intros Hnone r evs Hcap (a' & w' & _ & _ & Hnb).
      by apply (unread_blocks ch (emitted evs)).
Qed.

(** C9 ([FromMultipart] delegates).  [FromMultipart ctx r] returns what
    [FromFiles ctx f] returns for [f] the multipart file made of [r] with
    media type multipart/form-data, and leaves the same adder and the
    same contexts; its trace is the one of [FromFiles] followed by the
    close of the wrapper. *)
Theorem FromMultipart_is_FromFiles ctx0 rd a w r a' w' r2 a2 w2 :
  FromMultipart lib ctx0 rd a w = (r, a', w') ->
  FromFiles lib ctx0
    (MultipartFile_files lib {| Mediatype := "multipart/form-data"; mf_Reader := rd |})
    a w = (r2, a2, w2) ->
  r = r2 /\ a' = a2 /\ w_done w' = w_done w2 /\
  w_trace w' = w_trace w2 ++ [EvMultipartClose].
Proof.
  unfold FromMultipart. intros H1 H2.
  set (f := MultipartFile_files lib _) in *.
  set (w0 := log LDebug _ _ w) in *.
  destruct (FromFiles lib ctx0 f a w0) as [[r0 a0] v0] eqn:H0.
  injection H1 as <- <- <-.
  pose proof (FromFiles_side lib ctx0 f a a w0 w (same_adder_refl a)
                (log_same_l _ _ _ _ _ (same_calls_refl w))) as Hside.
  rewrite H0, H2 in Hside.
  destruct Hside as (-> & (Hc & Hd & _ & _) & [Hdn Ht] & Ho).
  destruct (FromFiles_params lib _ _ _ _ _ _ _ H0) as [Hp0 _].
  destruct (FromFiles_params lib _ _ _ _ _ _ _ H2) as [Hp2 _].
  split_and!; try done.
  - apply adder_eq; try done; [congruence | by apply Ho].
  - simpl. by rewrite Ht.
Qed.

(** C10 (the parameters are only read).  [New] stores the parameters it
    is given and no entry point changes them, however the call ends.
    What a call does depends on the eight fields [Hidden], [Layout],
    [RawLeaves], [Wrap], [Chunker], [Progress], [CidVersion] and
    [HashFun] only: with parameters that agree on them, the call returns
    the same result, makes the same calls and leaves the same contexts. *)
Theorem params_are_only_read ds p out ctx0 s a w r a' w' :
  Ingest lib ctx0 s a w = (r, a', w') ->
  params (New ds p out) = p /\
  params a' = params a /\
  forall q q' r2 a2 w2,
    params a = Some q ->
    read_fields q' = read_fields q ->
    Ingest lib ctx0 s (set_params (Some q') a) w = (r2, a2, w2) ->
    r2 = r /\ w_trace w2 = w_trace w' /\ w_done w2 = w_done w' /\
    params a2 = Some q'.
Proof.
  intros Hrun. split; [done|].
  destruct (Ingest_params lib _ _ _ _ _ _ _ Hrun) as [Hp _]. split; [done|].
  intros q q' r2 a2 w2 Hq Hrf Hrun2.
  assert (Hsame : same_adder (set_params (Some q') a) a).
  { repeat split; try done. simpl. by rewrite Hq, Hrf. }
  pose proof (Ingest_side lib ctx0 s _ _ w w Hsame (same_calls_refl w)) as Hside.
  rewrite Hrun, Hrun2 in Hside. destruct Hside as (-> & _ & [Hd Ht] & _).
  destruct (Ingest_params lib _ _ _ _ _ _ _ Hrun2) as [Hp2 _].
  by split_and!.
Qed.

End Claims.

(** * The claims in the concrete setting *)

(** A first call through [FromFiles] that delivers a root, then, after the
    caller's second context ran out of time, a call through
    [FromMultipart]. *)
Lemma second_call_is_cancelled_witness :
  Ingest demo_lib 0 (Files demo_source) demo_adder demo_world
    = (first_call.1.1, first_call.1.2, first_call.2) /\
  Ingest demo_lib 1 (Multipart [file_A; file_B]) first_call.1.2
         (env_cancels [(1%nat, DeadlineExceeded)] first_call.2)
    = (second_call.1.1, second_call.1.2, second_call.2) /\
  exists e, is_cancellation e = true /\
    second_call.1.1 = Done (None, Some e) /\
    second_call.1.2 = first_call.1.2 /\
    exists evs, w_trace second_call.2 = w_trace first_call.2 ++ evs /\
      Forall (fun ev => is_work ev = false) evs.
Proof.
  assert (H1 : Ingest demo_lib 0 (Files demo_source) demo_adder demo_world
               = (first_call.1.1, first_call.1.2, first_call.2))
    by (vm_compute; reflexivity).
  assert (H2 : Ingest demo_lib 1 (Multipart [file_A; file_B]) first_call.1.2
                 (env_cancels [(1%nat, DeadlineExceeded)] first_call.2)
               = (second_call.1.1, second_call.1.2, second_call.2))
    by (vm_compute; reflexivity).
  split; [exact H1|]. split; [exact H2|].
  destruct (second_call_is_cancelled demo_lib _ _ _ _ _ _ _ _ _ _ _ _ _ H1 H2)
    as (c & e & _ & _ & Hce & Hr & Ha & _ & evs & Ht & _ & Hw).
  exists e. split; [exact Hce|]. split; [exact Hr|]. split; [exact Ha|].
  exists evs. split; [exact Ht|exact Hw].
Defined.

(** The source that fails on its second item: no call of the DAG
    service, nil and an error. *)
Lemma cluster_finalize_is_guarded_witness :
  FromFiles demo_lib 0 failing_source demo_adder demo_world
    = (failing_run.1.1, failing_run.1.2, failing_run.2) /\
  Exists (fun e => is_failure e = true) (w_trace failing_run.2) /\
  ch_closed (output demo_adder) = false /\
  Forall (fun e => is_dgs_call e = false) (w_trace failing_run.2) /\
  exists err, failing_run.1.1 = Done (None, Some err).
Proof.
  assert (H1 : FromFiles demo_lib 0 failing_source demo_adder demo_world
               = (failing_run.1.1, failing_run.1.2, failing_run.2))
    by (vm_compute; reflexivity).
  assert (H2 : Exists (fun e => is_failure e = true) (w_trace failing_run.2)).
  { vm_compute. do 7 apply Exists_cons_tl. apply Exists_cons_hd. reflexivity. }
  assert (H3 : ch_closed (output demo_adder) = false) by reflexivity.
  split; [exact H1|]. split; [exact H2|]. split; [exact H3|].
  destruct (cluster_finalize_is_guarded demo_lib _ _ _ _ _ _ _ H1)
    as (evs & Ht & _ & _ & Hfail).
  change (w_trace demo_world ++ evs) with evs in Ht. subst evs.
  destruct (Hfail H2) as [Hno Hr]. split; [exact Hno|exact (Hr H3)].
Defined.

(** Parameters that name the hash function md5: the builder is created,
    no file is read, the error names the hash function and the queue is
    closed. *)
Lemma unknown_hash_function_fails_fast_witness :
  params (New demo_dgs (Some unknown_hash_params) None) = Some unknown_hash_params /\
  multihash_Names demo_lib !! strings_ToLower demo_lib (HashFun unknown_hash_params) = None /\
  FromFiles demo_lib 0 demo_source (New demo_dgs (Some unknown_hash_params) None) demo_world
    = (unknown_hash_run.1.1, unknown_hash_run.1.2, unknown_hash_run.2) /\
  Forall (fun e => is_source_call e = false /\ is_AddFile e = false)
         (w_trace unknown_hash_run.2) /\
  ch_closed (output unknown_hash_run.1.2) = true /\
  unknown_hash_run.1.1 = Done (None, Some (unrecognized_hash_function "md5")).
Proof.
  assert (H1 : params (New demo_dgs (Some unknown_hash_params) None)
               = Some unknown_hash_params) by reflexivity.
  assert (H2 : multihash_Names demo_lib
                 !! strings_ToLower demo_lib (HashFun unknown_hash_params) = None)
    by (vm_compute; reflexivity).
  assert (H3 : FromFiles demo_lib 0 demo_source
                 (New demo_dgs (Some unknown_hash_params) None) demo_world
               = (unknown_hash_run.1.1, unknown_hash_run.1.2, unknown_hash_run.2))
    by (vm_compute; reflexivity).
  split; [exact H1|]. split; [exact H2|]. split; [exact H3|].
  destruct (unknown_hash_function_fails_fast demo_lib _ _ _ _ _ _ _ _ H1 H2 H3)
    as (evs & Ht & Hq & Hnew).
  change (w_trace demo_world ++ evs) with evs in Ht. subst evs.
  split; [exact Hq|].
  assert (Hin : EvNewAdder None (inl demo_builder0) ∈ w_trace unknown_hash_run.2).
  { vm_compute. apply list_elem_of_further, list_elem_of_here. }
  destruct (Hnew _ _ Hin) as (_ & Hcl & Hr).
  split; [exact Hcl|]. exact (Hr eq_refl).
Defined.


(** The files A, B and C, with progress on: three calls of [AddFile] in
    this order, three events in the queue. *)
Lemma files_are_added_in_order_witness :
  FromFiles demo_lib 0 demo_source demo_adder demo_world
    = (demo_run.1.1, demo_run.1.2, demo_run.2) /\
  only_files demo_source /\
  (exists root, demo_run.1.1 = Done (root, None)) /\
  Forall (fun e => is_AddFile_EOF e = false) (w_trace demo_run.2) /\
  added (w_trace demo_run.2) = [file_A; file_B; file_C] /\
  added (w_trace demo_run.2) = yielded (w_trace demo_run.2) /\
  ch_sent (output demo_run.1.2) = emitted (w_trace demo_run.2) /\
  EOF_then_Finalize (w_trace demo_run.2).
Proof.
  assert (H1 : FromFiles demo_lib 0 demo_source demo_adder demo_world
               = (demo_run.1.1, demo_run.1.2, demo_run.2))
    by (vm_compute; reflexivity).
  assert (H2 : only_files demo_source).
  { repeat constructor; eexists; reflexivity. }
  assert (H3 : exists root, demo_run.1.1 = Done (root, None)).
  { eexists. vm_compute. reflexivity. }
  assert (H4 : Forall (fun e => is_AddFile_EOF e = false) (w_trace demo_run.2)).
  { vm_compute. repeat constructor. }
  split; [exact H1|]. split; [exact H2|]. split; [exact H3|]. split; [exact H4|].
  destruct (files_are_added_in_order demo_lib _ _ _ _ _ _ _ H1)
    as (evs & Ht & Ha & _ & _ & Hs & _ & HEOF & Hall).
  change (w_trace demo_world ++ evs) with evs in Ht. subst evs.
  split; [exact (Hall H2 H3 H4)|]. split; [exact Ha|].
  split; [exact (Hs eq_refl)|exact HEOF].
Defined.

(** The run on the three files: the token was live at entry, the queue
    is closed at exit and the token is done. *)
Lemma every_exit_past_the_guard_closes_witness :
  FromFiles demo_lib 0 demo_source demo_adder demo_world
    = (demo_run.1.1, demo_run.1.2, demo_run.2) /\
  ctx (setContext 0 demo_adder) = Some {| ctx_parent := 0; ctx_own := None |} /\
  ctx_Err demo_world {| ctx_parent := 0; ctx_own := None |} = None /\
  spent demo_run.2 demo_run.1.2 /\
  ch_closed (output demo_run.1.2) = true.
Proof.
  assert (H1 : FromFiles demo_lib 0 demo_source demo_adder demo_world
               = (demo_run.1.1, demo_run.1.2, demo_run.2))
    by (vm_compute; reflexivity).
  assert (H2 : ctx (setContext 0 demo_adder)
               = Some {| ctx_parent := 0; ctx_own := None |}) by reflexivity.
  assert (H3 : ctx_Err demo_world {| ctx_parent := 0; ctx_own := None |} = None)
    by (vm_compute; reflexivity).
  split; [exact H1|]. split; [exact H2|]. split; [exact H3|].
  destruct (every_exit_past_the_guard_closes demo_lib _ _ _ _ _ _ _ H1)
    as (Hs & _ & Hc).
  split; [exact Hs|]. exact (proj1 (Hc _ H2 H3)).
Defined.


(** The run on the three files, which emits three events: without
    listener it ends with the root; on an unbuffered queue of the caller
    it ends alike when a listener reads the queue, and does not end when
    nobody does. *)
Lemma listener_is_optional_witness :
  ch_closed open_chan = false /\
  first_call.1.1 = Done (Some "cid-hello+cid-world+cid-again"%string, None) /\
  ends_with demo_lib false 0 (Files demo_source) (New demo_dgs (Some demo_params) None)
            demo_world first_call.1.1 (w_trace first_call.2) /\
  ends_with demo_lib true 0 (Files demo_source)
            (New demo_dgs (Some demo_params) (Some open_chan))
            demo_world first_call.1.1 (w_trace first_call.2) /\
  ~ ends_with demo_lib false 0 (Files demo_source)
              (New demo_dgs (Some demo_params) (Some open_chan))
              demo_world first_call.1.1 (w_trace first_call.2).
Proof.
  assert (H0 : ch_closed open_chan = false) by reflexivity.
  assert (H1 : Ingest demo_lib 0 (Files demo_source)
                 (New demo_dgs (Some demo_params) None) demo_world
               = (first_call.1.1, first_call.1.2, first_call.2))
    by (vm_compute; reflexivity).
  assert (H2 : (ch_cap open_chan < length (emitted (w_trace first_call.2)))%nat)
    by (vm_compute; lia).
  split; [exact H0|]. split; [vm_compute; reflexivity|].
  destruct (listener_is_optional demo_lib demo_dgs (Some demo_params) open_chan
              0 (Files demo_source) demo_world H0)
    as (_ & (r & evs & Hend) & Hiff & Hunread).
  destruct Hend as (a' & w' & Hrun & Ht & Hnb).
  rewrite H1 in Hrun. injection Hrun as <- <- <-.
  change (w_trace demo_world ++ evs) with evs in Ht. subst evs.
  assert (Hend : ends_with demo_lib false 0 (Files demo_source)
                   (New demo_dgs (Some demo_params) None)
                   demo_world first_call.1.1 (w_trace first_call.2)).
  { exists first_call.1.2, first_call.2. split; [exact H1|]. split; [reflexivity|exact Hnb]. }
  split; [exact Hend|]. split; [exact (proj1 (Hiff _ _) Hend)|].
  exact (Hunread eq_refl _ _ H2).
Defined.

(** A multipart reader with the parts A and B. *)
Lemma FromMultipart_is_FromFiles_witness :
  FromMultipart demo_lib 0 [file_A; file_B] demo_adder demo_world
    = (multipart_call.1.1, multipart_call.1.2, multipart_call.2) /\
  FromFiles demo_lib 0
    (MultipartFile_files demo_lib
       {| Mediatype := "multipart/form-data"; mf_Reader := [file_A; file_B] |})
    demo_adder demo_world
    = (wrapped_call.1.1, wrapped_call.1.2, wrapped_call.2) /\
  multipart_call.1.1 = wrapped_call.1.1 /\
  multipart_call.1.2 = wrapped_call.1.2 /\
  w_done multipart_call.2 = w_done wrapped_call.2 /\
  w_trace multipart_call.2 = w_trace wrapped_call.2 ++ [EvMultipartClose].
Proof.
  assert (H1 : FromMultipart demo_lib 0 [file_A; file_B] demo_adder demo_world
               = (multipart_call.1.1, multipart_call.1.2, multipart_call.2))
    by (vm_compute; reflexivity).
  assert (H2 : FromFiles demo_lib 0
                 (MultipartFile_files demo_lib
                    {| Mediatype := "multipart/form-data";
                       mf_Reader := [file_A; file_B] |})
                 demo_adder demo_world
               = (wrapped_call.1.1, wrapped_call.1.2, wrapped_call.2))
    by (vm_compute; reflexivity).
  split; [exact H1|]. split; [exact H2|].
  exact (FromMultipart_is_FromFiles demo_lib _ _ _ _ _ _ _ _ _ _ H1 H2).
Defined.

(** The same call with parameters that differ in a field [FromFiles]
    does not read. *)
Lemma params_are_only_read_witness :
  Ingest demo_lib 0 (Files demo_source) demo_adder demo_world
    = (first_call.1.1, first_call.1.2, first_call.2) /\
  params demo_adder = Some demo_params /\
  read_fields renamed_params = read_fields demo_params /\
  Ingest demo_lib 0 (Files demo_source) (set_params (Some renamed_params) demo_adder)
         demo_world
    = (renamed_call.1.1, renamed_call.1.2, renamed_call.2) /\
  params first_call.1.2 = params demo_adder /\
  renamed_call.1.1 = first_call.1.1 /\
  w_trace renamed_call.2 = w_trace first_call.2.
Proof.
  assert (H1 : Ingest demo_lib 0 (Files demo_source) demo_adder demo_world
               = (first_call.1.1, first_call.1.2, first_call.2))
    by (vm_compute; reflexivity).
  assert (H2 : params demo_adder = Some demo_params) by reflexivity.
  assert (H3 : read_fields renamed_params = read_fields demo_params) by reflexivity.
  assert (H4 : Ingest demo_lib 0 (Files demo_source)
                 (set_params (Some renamed_params) demo_adder) demo_world
               = (renamed_call.1.1, renamed_call.1.2, renamed_call.2))
    by (vm_compute; reflexivity).
  split; [exact H1|]. split; [exact H2|]. split; [exact H3|]. split; [exact H4|].
  destruct (params_are_only_read demo_lib demo_dgs (Some demo_params) None
              _ _ _ _ _ _ _ H1) as (_ & Hp & Hread).
  split; [exact Hp|].
  destruct (Hread _ _ _ _ _ H2 H3 H4) as (Hr & Ht & _).
  split; [exact Hr|exact Ht].
Defined.

(** ** Where the code departs from the specification *)

(** With an unknown hash function the error comes back after the
    deferred close: the queue is closed. *)
Lemma error_before_close_counterexample : ~ error_before_close unknown_hash_run.
Proof.
  unfold error_before_close. intros [_ Hopen].
  vm_compute in Hopen. discriminate Hopen.
Qed.


(** A first call on a context that is already cancelled returns at the
    guard and leaves the output queue open. *)
Lemma closed_on_exit_counterexample : ~ closed_on_exit cancelled_run.
Proof.
  unfold closed_on_exit. intros Hclosed.
  vm_compute in Hclosed. discriminate Hclosed.
Qed.

(** * Further properties of the code *)

(** ** Files are closed *)

Lemma closed_app evs1 evs2 : closed (evs1 ++ evs2) = closed evs1 ++ closed evs2.
Proof.
  induction evs1 as [|e evs1 IH]; simpl; [done|].
  destruct e; simpl; rewrite ?IH; done.
Qed.

Lemma each_file_closed_silent (evs : list Event) :
  Forall (fun e => is_source_call e = false) evs -> each_file_closed evs.
Proof.
  intros Hall i f Hi.
  apply list_elem_of_lookup_2 in Hi.
  rewrite Forall_forall in Hall. by apply Hall in Hi.
Qed.

Lemma each_file_closed_cons e (evs : list Event) :
  (forall f, e <> EvNextFile (inl f)) ->
  each_file_closed evs -> each_file_closed (e :: evs).
Proof.
  intros He Hevs [|i] f Hi; simpl in Hi.
  - injection Hi as ->. by destruct (He f).
  - destruct (Hevs i f Hi) as [(st & b & res & outs & Ha) Hc].
    split; [by exists st, b, res, outs|done].
Qed.

Lemma each_file_closed_handled f st b res outs (evs : list Event) :
  each_file_closed evs ->
  each_file_closed (EvNextFile (inl f) :: EvAddFile st b f res outs ::
                    EvFileClose f :: evs).
Proof.
  intros Hevs [|[|[|i]]] f' Hi; simpl in Hi.
  - injection Hi as <-. split; [by exists st, b, res, outs|done].
  - done.
  - done.
  - destruct (Hevs i f' Hi) as [(st' & b' & res' & outs' & Ha) Hc].
    split; [by exists st', b', res', outs'|done].
Qed.

Lemma each_file_closed_app (evs1 evs2 : list Event) :
  each_file_closed evs1 ->
  Forall (fun e => is_source_call e = false) evs2 ->
  each_file_closed (evs1 ++ evs2).
Proof.
  intros H1 H2 i f Hi.
  apply lookup_app_Some in Hi as [Hi|[_ Hi]].
  - destruct (H1 i f Hi) as [(st & b & res & outs & Ha) Hc]. split.
    + exists st, b, res, outs. by apply lookup_app_l_Some.
    + by apply lookup_app_l_Some.
  - apply list_elem_of_lookup_2 in Hi.
    rewrite Forall_forall in H2. by apply H2 in Hi.
Qed.

Section Closing.

Context {Reader : Type}.
Variable lib : Libs Reader.

Local Ltac run_cases H := inversion H; subst; clear H; simpl in *.

Lemma LoopRun_closed b fs evs r :
  LoopRun b fs evs r -> closed evs = yielded evs /\ each_file_closed evs.
Proof.
  induction 1 as [fs e Hce|fs evs evs' r Ha Hl [IH1 IH2]|fs evs p Ha|fs evs err Ha Hne
                 |fs evs evs' r Ha Hf].
  - split; [done|]. apply each_file_closed_silent. repeat constructor.
  - run_cases Ha. split; [by rewrite IH1|].
    apply each_file_closed_cons; [done|]. by apply each_file_closed_handled.
  - run_cases Ha. split; [done|].
    apply each_file_closed_cons; [done|].
    apply each_file_closed_handled, each_file_closed_silent. constructor.
  - run_cases Ha; (split; [done|]); apply each_file_closed_cons; try done.
    + apply each_file_closed_cons; [done|]. apply each_file_closed_silent. constructor.
    + apply each_file_closed_handled, each_file_closed_silent. constructor.
  - pose proof (FinalizeRun_no_pull _ _ _ Hf) as Hq.
    assert (Hc : closed evs' = [] /\ yielded evs' = []).
    { inversion Hf; subst; by split. }
    destruct Hc as [Hc Hy].
    run_cases Ha; (split; [by rewrite ?closed_app, ?yielded_app, ?Hc, ?Hy|]);
      apply each_file_closed_cons; try done.
    + apply each_file_closed_cons; [done|]. by apply each_file_closed_silent.
    + by apply each_file_closed_handled, each_file_closed_silent.
Qed.

Lemma BodyRun_closed p fs evs r :
  BodyRun lib p fs evs r -> closed evs = yielded evs /\ each_file_closed evs.
Proof.
  intros Hb. inversion Hb; subst;
    try (split; [done|]; apply each_file_closed_silent; by repeat constructor).
  match goal with
  | H : LoopRun _ _ _ _ |- _ => apply LoopRun_closed in H as [Hsame Hall]
  end.
  split; [done|]. by apply each_file_closed_cons.
Qed.

(** X1.  Every file the source hands out in a run of [FromFiles] is given
    to the builder's [AddFile] in the very next call and closed right
    after it, whether [AddFile] succeeds, fails or panics on a closed
    queue: the files closed are the files handed out, in order. *)
Theorem every_file_is_closed ctx0 fs a w r a' w' :
  FromFiles lib ctx0 fs a w = (r, a', w') ->
  exists evs, w_trace w' = w_trace w ++ evs /\
    closed evs = yielded evs /\
    each_file_closed evs.
Proof.
  intros Hrun.
  destruct (FromFiles_run lib _ _ _ _ _ _ _ Hrun)
    as [(e & Hce & -> & Ht & _)|(evs & rb & Hb & Ht & -> & Hcl & Hopen)].
  { exists [EvCtxErr (Some e)]. split; [done|]. split; [done|].
    apply each_file_closed_silent. repeat constructor. }
  exists (EvCtxErr None :: evs ++ [EvCloseOutput; EvCancel]). split; [done|].
  destruct (BodyRun_closed _ _ _ _ Hb) as [Hc Hall].
  destruct (around_body None evs) as (_ & -> & _).
  split.
  - simpl. by rewrite closed_app, Hc, app_nil_r.
  - apply each_file_closed_cons; [done|].
    apply each_file_closed_app; [done|]. repeat constructor.
Qed.

End Closing.

(** ** Errors, results and the protocol of the builder *)

Section Outcomes.

Context {Reader : Type}.
Variable lib : Libs Reader.

Local Ltac run_cases H := inversion H; subst; clear H; simpl in *.

Local Ltac walk Hin Hf :=
  repeat (apply elem_of_cons in Hin as [->|Hin];
          [simpl in Hf; try done; try congruence;
           try (match type of Hf with
                | context [decide ?P] => destruct (decide P)
                end; congruence)|]);
  try (by apply elem_of_nil in Hin).

Lemma LoopRun_failure b fs evs r :
  LoopRun b fs evs r -> is_panic r = false ->
  forall e err, e ∈ evs -> failure_of e = Some err -> r = Done (None, Some err).
Proof.
  induction 1 as [fs e0 Hce|fs evs evs' r Ha Hl IH|fs evs p Ha|fs evs err0 Ha Hne
                 |fs evs evs' r Ha Hf]; intros Hnp e err Hin Hfail.
  - walk Hin Hfail.
  - run_cases Ha. walk Hin Hfail. by apply (IH Hnp e err).
  - done.
  - run_cases Ha; walk Hin Hfail.
  - run_cases Ha; run_cases Hf; walk Hin Hfail.
Qed.

Lemma LoopRun_protocol b fs evs r :
  LoopRun b fs evs r -> adds_then_finalize (List.filter is_builder_call evs).
Proof.
  induction 1 as [fs e0 Hce|fs evs evs' r Ha Hl IH|fs evs p Ha|fs evs err0 Ha Hne
                 |fs evs evs' r Ha Hf].
  - exists [], []. split; [done|]. split; [constructor|by left].
  - run_cases Ha. destruct IH as (adds & fin & -> & Hadds & Hfin).
    eexists (_ :: adds), fin. split; [done|]. split; [by constructor|done].
  - run_cases Ha. eexists [_], []. split; [done|]. split; [by repeat constructor|by left].
  - run_cases Ha.
    + exists [], []. split; [done|]. split; [constructor|by left].
    + eexists [_], []. split; [done|]. split; [by repeat constructor|by left].
  - run_cases Ha; run_cases Hf;
      first [ eexists [], [_]; split; [done|]; split; [constructor|right; by eauto]
            | eexists [_], [_]; split; [done|]; split;
              [by repeat constructor|right; by eauto] ].
Qed.

(** When [AddFile] answers [io.EOF] (and no send panics), the file is
    closed, the builder's [Finalize] is the next call and the source is
    not called again. *)
Lemma LoopRun_AddFile_EOF b fs evs r :
  LoopRun b fs evs r -> is_panic r = false ->
  forall st b' f outs, EvAddFile st b' f (Some io_EOF) outs ∈ evs ->
    exists pre st' res outs' tl,
      evs = pre ++ EvAddFile st b' f (Some io_EOF) outs :: EvFileClose f ::
                   EvBuilderFinalize st' b res outs' :: tl /\
      Forall (fun e => is_AddFile_EOF e = false) pre /\
      Forall (fun e => is_source_call e = false /\ is_AddFile e = false) tl.
Proof.
  induction 1 as [fs e0 Hce|fs evs evs' r Ha Hl IH|fs evs p Ha|fs evs err0 Ha Hne
                 |fs evs evs' r Ha Hf]; intros Hnp st b' f outs Hin.
  - by apply list_elem_of_singleton in Hin.
  - run_cases Ha.
    repeat (apply elem_of_cons in Hin as [Hin|Hin]; [done|]).
    destruct (IH Hnp _ _ _ _ Hin) as (pre & st' & res & outs' & tl & -> & Hpre & Htl).
    eexists (_ :: _ :: _ :: _ :: pre), st', res, outs', tl.
    split; [done|]. split; [by repeat (constructor; [done|])|done].
  - done.
  - run_cases Ha.
    + repeat (apply elem_of_cons in Hin as [Hin|Hin]; [done|]).
      by apply elem_of_nil in Hin.
    + apply elem_of_cons in Hin as [Hin|Hin]; [done|].
      apply elem_of_cons in Hin as [Hin|Hin]; [done|].
      apply elem_of_cons in Hin as [Hin|Hin]; [congruence|].
      repeat (apply elem_of_cons in Hin as [Hin|Hin]; [done|]).
      by apply elem_of_nil in Hin.
  - run_cases Ha.
    + exfalso. run_cases Hf;
        repeat (apply elem_of_cons in Hin as [Hin|Hin]; [done|]);
        by apply elem_of_nil in Hin.
    + apply elem_of_cons in Hin as [Hin|Hin]; [done|].
      apply elem_of_cons in Hin as [Hin|Hin]; [done|].
      apply elem_of_cons in Hin as [Hin|Hin].
      * injection Hin as -> -> -> ->.
        run_cases Hf; try done;
          (eexists [_; _], _, _, _, _; split; [reflexivity|];
           split; repeat constructor).
      * exfalso. apply elem_of_cons in Hin as [Hin|Hin]; [done|].
        run_cases Hf;
          repeat (apply elem_of_cons in Hin as [Hin|Hin]; [done|]);
          by apply elem_of_nil in Hin.
Qed.

(** The loop on an exhausted source. *)
Lemma LoopRun_nil b evs r :
  LoopRun b [] evs r ->
  (exists e, evs = [EvCtxDone (Some e)]) \/
  (exists fin, evs = EvCtxDone None :: EvNextFile (inr io_EOF) :: fin /\
     FinalizeRun b fin r).
Proof.
  intros H. inversion H as [fs e0 Hce|fs evs0 evs' r0 Ha Hl|fs evs0 p Ha
                            |fs evs0 err0 Ha Hne|fs evs0 evs' r0 Ha Hf]; subst.
  - left. by eexists.
  - by destruct (AddFileRun_nil_goes_on _ _ Ha).
  - inversion Ha; subst; simpl in *; done.
  - inversion Ha; subst; simpl in *; congruence.
  - right. inversion Ha; subst; simpl in *; try done.
    exists evs'. split; [done|done].
Qed.

End Outcomes.

Section Further.

Context {Reader : Type}.
Variable lib : Libs Reader.

(** X2.  On an open output queue, a run of [FromFiles] in which a call to
    a collaborator fails ([NewAdder], [NextFile] or [AddFile] with an
    error other than [io.EOF], the builder's [Finalize], the DAG
    service's [Finalize]) returns nil with the very error of that call:
    the error is neither wrapped nor replaced. *)
Theorem errors_are_returned_as_they_are ctx0 fs a w r a' w' :
  ch_closed (output a) = false ->
  FromFiles lib ctx0 fs a w = (r, a', w') ->
  exists evs, w_trace w' = w_trace w ++ evs /\
    forall e err, e ∈ evs -> failure_of e = Some err -> r = Done (None, Some err).
Proof.
  intros Hop Hrun.
  destruct (FromFiles_run lib _ _ _ _ _ _ _ Hrun)
    as [(e0 & Hce & -> & Ht & _)|(evs & rb & Hb & Ht & -> & Hcl & Hopen)].
  { exists [EvCtxErr (Some e0)]. split; [done|]. intros e err Hin Hf.
    apply list_elem_of_singleton in Hin. by subst e. }
  exists (EvCtxErr None :: evs ++ [EvCloseOutput; EvCancel]). split; [done|].
  rewrite (after_defers_open a rb Hop).
  destruct (Hopen Hop) as [_ Hsp].
  intros e err Hin Hf.
  apply elem_of_cons in Hin as [->|Hin]; [done|].
  apply elem_of_app in Hin as [Hin|Hin];
    [|repeat (apply elem_of_cons in Hin as [->|Hin]; [done|]);
      by apply elem_of_nil in Hin].
  inversion Hb as [st err0|st b0 Hp'|st b0 pr err0 Hp' Hpre|st b0 pr prefix Hp' Hpre Hh'
                  |st b0 pr prefix code levs rb' Hp' Hpre Hh' Hloop]; subst;
    try (apply list_elem_of_singleton in Hin; subst e; simpl in Hf; congruence).
  apply elem_of_cons in Hin as [->|Hin]; [done|].
  assert (Hnp : is_panic rb = false).
  { destruct rb as [x|p]; [done|]. apply LoopRun_panic in Hloop. by subst p. }
  exact (LoopRun_failure _ _ _ _ Hloop Hnp e err Hin Hf).
Qed.

(** X3.  [FromFiles] never returns an identifier together with an error.
    When it returns without error, the identifier is the one the DAG
    service's [Finalize] returned (nil if that was nil), that call was
    made with the [Cid] of the root the builder's [Finalize] returned,
    both are the last calls before the deferred ones and no call before
    them failed. *)
Theorem a_root_comes_from_the_DAG_service ctx0 fs a w r a' w' :
  FromFiles lib ctx0 fs a w = (r, a', w') ->
  exists evs, w_trace w' = w_trace w ++ evs /\
    (forall root err, r = Done (root, Some err) -> root = None) /\
    (forall root, r = Done (root, None) ->
       exists pre st b n outs st',
         evs = pre ++ [EvBuilderFinalize st b (inl n) outs;
                       EvDgsFinalize st' (Node_Cid n) (root, None);
                       EvCloseOutput; EvCancel] /\
         Forall (fun e => is_failure e = false /\ is_dgs_call e = false) pre).
Proof.
  intros Hrun.
  destruct (FromFiles_run lib _ _ _ _ _ _ _ Hrun)
    as [(e0 & Hce & -> & Ht & _)|(evs & rb & Hb & Ht & -> & Hcl & Hopen)].
  { exists [EvCtxErr (Some e0)]. split; [done|]. split.
    - by intros root err [= -> _].
    - by intros root. }
  exists (EvCtxErr None :: evs ++ [EvCloseOutput; EvCancel]). split; [done|].
  unfold after_defers. destruct (ch_closed (output a)); [by split|].
  inversion Hb as [st err0|st b0 Hp'|st b0 pr err0 Hp' Hpre|st b0 pr prefix Hp' Hpre Hh'
                  |st b0 pr prefix code levs rb' Hp' Hpre Hh' Hloop]; subst;
    try (split; [by intros root err [= -> _]|by intros root]).
  destruct (LoopRun_finalize _ _ _ _ Hloop)
    as [[Hno [Hpanic|[err0 ->]]]|(pre & st1 & n & outs & st' & res & -> & Hpre' & ->)].
  - destruct rb; [done|]. by split.
  - split; [by intros root err [= -> _]|by intros root].
  - destruct res as [root0 [err0|]]; simpl.
    + split; [by intros root err [= -> _]|by intros root].
    + split; [by intros root err|]. intros root [= <-].
      exists (EvCtxErr None :: EvNewAdder st (inl b0) :: pre), st1,
        (configured pr prefix code), n, outs, st'.
      split; [simpl; by rewrite <- app_assoc|].
      by repeat (constructor; [done|]).
Qed.

(** X4.  The loop takes [io.EOF] from the builder's [AddFile] for the
    end of the sequence, like [io.EOF] from the source: on an open
    output queue the file in hand is closed, the next call is the
    builder's [Finalize], and neither the source nor [AddFile] is called
    again, whatever the source still holds. *)
Theorem AddFile_EOF_ends_the_sequence ctx0 fs a w r a' w' :
  ch_closed (output a) = false ->
  FromFiles lib ctx0 fs a w = (r, a', w') ->
  exists evs, w_trace w' = w_trace w ++ evs /\
    forall st b f outs, EvAddFile st b f (Some io_EOF) outs ∈ evs ->
      exists pre st' b' res outs' tl,
        evs = pre ++ EvAddFile st b f (Some io_EOF) outs :: EvFileClose f ::
                     EvBuilderFinalize st' b' res outs' :: tl /\
        Forall (fun e => is_AddFile_EOF e = false) pre /\
        Forall (fun e => is_source_call e = false /\ is_AddFile e = false) tl.
Proof.
  intros Hop Hrun.
  destruct (FromFiles_run lib _ _ _ _ _ _ _ Hrun)
    as [(e0 & Hce & -> & Ht & _)|(evs & rb & Hb & Ht & -> & Hcl & Hopen)].
  { exists [EvCtxErr (Some e0)]. split; [done|]. intros st b f outs Hin.
    by apply list_elem_of_singleton in Hin. }
  exists (EvCtxErr None :: evs ++ [EvCloseOutput; EvCancel]). split; [done|].
  destruct (Hopen Hop) as [_ Hsp].
  intros st b f outs Hin.
  apply elem_of_cons in Hin as [Hin|Hin]; [done|].
  apply elem_of_app in Hin as [Hin|Hin];
    [|repeat (apply elem_of_cons in Hin as [Hin|Hin]; [done|]);
      by apply elem_of_nil in Hin].
  inversion Hb as [st0 err0|st0 b0 Hp'|st0 b0 pr err0 Hp' Hpre|st0 b0 pr prefix Hp' Hpre Hh'
                  |st0 b0 pr prefix code levs rb' Hp' Hpre Hh' Hloop]; subst;
    try (by apply list_elem_of_singleton in Hin).
  apply elem_of_cons in Hin as [Hin|Hin]; [done|].
  assert (Hnp : is_panic rb = false).
  { destruct rb as [x|p]; [done|]. apply LoopRun_panic in Hloop. by subst p. }
  destruct (LoopRun_AddFile_EOF _ _ _ _ Hloop Hnp _ _ _ _ Hin)
    as (pre & st' & res & outs' & tl & -> & Hpre' & Htl).
  exists (EvCtxErr None :: EvNewAdder st0 (inl b0) :: pre), st',
    (configured pr prefix code), res, outs', (tl ++ [EvCloseOutput; EvCancel]).
  split; [simpl; by rewrite <- app_assoc|].
  split; [by repeat (constructor; [done|])|].
  apply Forall_app. split; [done|]. repeat constructor.
Qed.

(** X5.  On a source that is exhausted from the start, [FromFiles] calls
    [AddFile] not once and the source at most once, and still finalizes:
    when the first check of the loop finds the token live, the builder's
    [Finalize] is called. *)
Theorem empty_source_is_finalized ctx0 a w r a' w' :
  FromFiles lib ctx0 [] a w = (r, a', w') ->
  exists evs, w_trace w' = w_trace w ++ evs /\
    Forall (fun e => is_AddFile e = false) evs /\
    (length (List.filter is_source_call evs) <= 1)%nat /\
    (EvCtxDone None ∈ evs ->
     exists st b res outs, EvBuilderFinalize st b res outs ∈ evs).
Proof.
  intros Hrun.
  destruct (FromFiles_run lib _ _ _ _ _ _ _ Hrun)
    as [(e0 & Hce & -> & Ht & _)|(evs & rb & Hb & Ht & -> & Hcl & Hopen)].
  { exists [EvCtxErr (Some e0)]. split; [done|]. split; [repeat constructor|].
    split; [simpl; lia|]. intros Hin. by apply list_elem_of_singleton in Hin. }
  exists (EvCtxErr None :: evs ++ [EvCloseOutput; EvCancel]). split; [done|].
  inversion Hb as [st err0|st b0 Hp'|st b0 pr err0 Hp' Hpre|st b0 pr prefix Hp' Hpre Hh'
                  |st b0 pr prefix code levs rb' Hp' Hpre Hh' Hloop]; subst;
    try (split; [repeat constructor|]; split; [simpl; lia|]; intros Hin;
         repeat (apply elem_of_cons in Hin as [Hin|Hin]; [done|]);
         by apply elem_of_nil in Hin).
  destruct (LoopRun_nil _ _ _ Hloop) as [[e ->]|(fin & -> & Hfin)].
  - split; [repeat constructor|]. split; [simpl; lia|]. intros Hin.
    repeat (apply elem_of_cons in Hin as [Hin|Hin]; [done|]).
    by apply elem_of_nil in Hin.
  - inversion Hfin; subst; simpl;
      (split; [repeat constructor|]; split; [lia|]; intros _;
       do 4 eexists; do 4 apply list_elem_of_further; apply list_elem_of_here).
Qed.

(** X6.  An adder built with nil parameters reads no file.  When its run
    gets to create the builder, it panics on the nil dereference (and
    not otherwise, on an open output queue); the deferred calls still
    run: the output queue is closed and the token is done. *)
Theorem nil_params_panic_after_NewAdder ctx0 fs a w r a' w' :
  params a = None ->
  FromFiles lib ctx0 fs a w = (r, a', w') ->
  exists evs, w_trace w' = w_trace w ++ evs /\
    Forall (fun e => is_source_call e = false /\ is_AddFile e = false) evs /\
    spent w' a' /\
    (forall st b0, EvNewAdder st (inl b0) ∈ evs ->
       is_panic r = true /\
       ch_closed (output a') = true /\
       (ch_closed (output a) = false -> r = Panic nil_pointer_dereference)) /\
    (ch_closed (output a) = false -> is_panic r = true ->
     exists st b0, EvNewAdder st (inl b0) ∈ evs).
Proof.
  intros Hp Hrun.
  assert (Hspent : spent w' a').
  { destruct (FromFiles_leaves_spent lib _ _ _ _ _ _ _ Hrun) as (c & e & Hc & He).
    exists c, e. split; [done|]. split; [done|].
    by apply (ctx_Err_cancellation w' c). }
  destruct (FromFiles_run lib _ _ _ _ _ _ _ Hrun)
    as [(e0 & Hce & -> & Ht & _)|(evs & rb & Hb & Ht & -> & Hcl & Hopen)].
  { exists [EvCtxErr (Some e0)]. split; [done|]. split; [repeat constructor|].
    split; [done|]. split.
    - intros st b0 Hin. by apply list_elem_of_singleton in Hin.
    - done. }
  exists (EvCtxErr None :: evs ++ [EvCloseOutput; EvCancel]). split; [done|].
  rewrite Hp in Hb.
  inversion Hb as [st err0|st b0 Hp'|st b0 pr err0 Hp' Hpre|st b0 pr prefix Hp' Hpre Hh'
                  |st b0 pr prefix code levs rb' Hp' Hpre Hh' Hloop]; subst;
    try done; simpl.
  - split; [repeat constructor|]. split; [done|]. split.
    + intros st0 b0 Hin.
      repeat (apply elem_of_cons in Hin as [Hin|Hin]; [done|]).
      by apply elem_of_nil in Hin.
    + intros Hop. by rewrite (after_defers_open a _ Hop).
  - split; [repeat constructor|]. split; [done|]. split.
    + intros _ _ _. unfold after_defers.
      destruct (ch_closed (output a)); by repeat split.
    + intros _ _. exists st, b0. apply list_elem_of_further, list_elem_of_here.
Qed.

(** X7.  On an output queue that is already closed, a run of [FromFiles]
    that passes the guard never returns: whatever the body did, the
    deferred close panics.  The deferred cancel still runs, so the token
    is done afterwards. *)
Theorem closed_queue_panics ctx0 fs a w r a' w' c :
  ch_closed (output a) = true ->
  ctx (setContext ctx0 a) = Some c ->
  ctx_Err w c = None ->
  FromFiles lib ctx0 fs a w = (r, a', w') ->
  r = Panic close_of_closed_channel /\ spent w' a' /\
  ch_closed (output a') = true.
Proof.
  intros Hcl Hc He Hrun.
  destruct (FromFiles_live lib ctx0 fs a w c r a' w' Hc He Hrun)
    as (evs & rb & a1 & _ & _ & -> & _ & _ & _ & _ & _ & _ & Hcl' & c' & e' & Hc' & _ & He').
  split; [unfold after_defers; by rewrite Hcl|]. split; [|done].
  exists c', e'. split; [done|]. split; [done|].
  by apply (ctx_Err_cancellation w' c').
Qed.

(** X8.  The calls of a run of [FromFiles] to the builder follow its
    protocol: none at all when the guard stops the run; otherwise one
    call of [NewAdder], first, then calls of [AddFile], then at most one
    call of [Finalize], after which the builder is not called again;
    and nothing after a [NewAdder] that failed. *)
Theorem builder_protocol_is_followed ctx0 fs a w r a' w' :
  FromFiles lib ctx0 fs a w = (r, a', w') ->
  exists evs, w_trace w' = w_trace w ++ evs /\
    (List.filter is_builder_call evs = [] \/
     exists st res calls,
       List.filter is_builder_call evs = EvNewAdder st res :: calls /\
       adds_then_finalize calls /\
       (forall err, res = inr err -> calls = [])).
Proof.
  intros Hrun.
  destruct (FromFiles_run lib _ _ _ _ _ _ _ Hrun)
    as [(e0 & Hce & -> & Ht & _)|(evs & rb & Hb & Ht & -> & Hcl & Hopen)].
  { exists [EvCtxErr (Some e0)]. split; [done|]. by left. }
  exists (EvCtxErr None :: evs ++ [EvCloseOutput; EvCancel]). split; [done|].
  right.
  assert (Hnone : adds_then_finalize []).
  { exists [], []. split; [done|]. split; [constructor|by left]. }
  inversion Hb as [st err0|st b0 Hp'|st b0 pr err0 Hp' Hpre|st b0 pr prefix Hp' Hpre Hh'
                  |st b0 pr prefix code levs rb' Hp' Hpre Hh' Hloop]; subst;
    try (simpl; eexists _, _, []; by repeat split).
  simpl. rewrite List.filter_app. simpl. rewrite app_nil_r.
  eexists _, _, _. split; [done|]. split; [|done].
  by apply (LoopRun_protocol _ _ _ _ Hloop).
Qed.

End Further.

(** ** The contexts of the caller *)

Lemma filter_snoc_silent (f : Event -> bool) (l : list Event) e :
  f e = false -> List.filter f (l ++ [e]) = List.filter f l.
Proof. intros He. rewrite List.filter_app. simpl. by rewrite He, app_nil_r. Qed.

Lemma filter_nil_Forall (f : Event -> bool) (l : list Event) :
  List.filter f l = [] -> Forall (fun e => f e = false) l.
Proof.
  induction l as [|e l IH]; simpl; [constructor|].
  destruct (f e) eqn:He; [done|]. intros H. constructor; [done|by apply IH].
Qed.

Section Quiet.

Context {Reader : Type}.
Variable lib : Libs Reader.
Hypothesis lib_quiet : quiet_lib lib.

Lemma addFile_quiet c fs b a w r a' w' :
  quiet_source fs ->
  addFile lib c fs b a w = (r, a', w') ->
  w_done w' = w_done w /\ dgs a' = dgs a /\
  List.filter is_cancelled_check (w_trace w') = List.filter is_cancelled_check (w_trace w).
Proof.
  intros Hfs. unfold addFile.
  assert (Hcs : (NextFile fs).1.2 = []).
  { destruct fs as [|s rest]; [done|]. by inversion Hfs. }
  destruct (NextFile fs) as [[res cs] rest]. simpl in Hcs. subst cs.
  destruct res as [f|err].
  - destruct lib_quiet as (_ & Hq & _).
    match goal with
    | |- context [ipfsadd_AddFile lib ?h ?st b f] =>
        specialize (Hq h st b f);
        destruct (ipfsadd_AddFile lib h st b f) as [[err outs] cs]
    end.
    simpl in Hq. subst cs.
    destruct (chan_send_all outs (output a)); intros [= <- <- <-]; simpl;
      (split; [done|]; split; [done|]);
      by rewrite !filter_snoc_silent.
  - intros [= <- <- <-]. simpl. split; [done|]. split; [done|].
    by rewrite filter_snoc_silent.
Qed.

Lemma finalize_quiet c b a w r a' w' :
  quiet_dgs (dgs a) ->
  finalize lib c b a w = (r, a', w') ->
  w_done w' = w_done w /\
  List.filter is_cancelled_check (w_trace w') = List.filter is_cancelled_check (w_trace w).
Proof.
  intros Hd. unfold finalize.
  destruct lib_quiet as (_ & _ & Hq).
  specialize (Hq (w_trace w) (ctx_Err w c) b).
  destruct (ipfsadd_Finalize lib _ _ b) as [[res outs] cs].
  simpl in Hq. subst cs.
  destruct (chan_send_all outs (output a)) as [ch|].
  - destruct res as [n|err].
    + simpl dgs.
      match goal with
      | |- context [dgs_Finalize (dgs a) ?h ?st ?root] =>
          specialize (Hd h st root);
          destruct (dgs_Finalize (dgs a) h st root) as [[root' [err|]] cs']
      end; simpl in Hd; subst cs'; intros [= <- <- <-]; simpl;
        (split; [done|]); by rewrite !filter_snoc_silent.
    + intros [= <- <- <-]. simpl. split; [done|]. by rewrite filter_snoc_silent.
  - intros [= <- <- <-]. simpl. split; [done|]. by rewrite filter_snoc_silent.
Qed.

Lemma loop_quiet c b fs : forall a w r a' w',
  quiet_dgs (dgs a) -> quiet_source fs -> ctx_Err w c = None ->
  loop lib c b fs a w = (r, a', w') ->
  w_done w' = w_done w /\
  List.filter is_cancelled_check (w_trace w') = List.filter is_cancelled_check (w_trace w).
Proof.
  assert (Hfin : forall a1 w1 r a' w', quiet_dgs (dgs a1) ->
    finalize lib c b a1 w1 = (r, a', w') ->
    forall w, w_done w1 = w_done w ->
      List.filter is_cancelled_check (w_trace w1) =
      List.filter is_cancelled_check (w_trace w) ->
      w_done w' = w_done w /\
      List.filter is_cancelled_check (w_trace w') =
      List.filter is_cancelled_check (w_trace w)).
  { intros a1 w1 r a' w' Hd Hrun w E1 E2.
    destruct (finalize_quiet _ _ _ _ _ _ _ Hd Hrun) as [Hd2 Hf2]. split; congruence. }
  induction fs as [|s rest IH]; intros a w r a' w' Hd Hfs He;
    rewrite loop_unfold, He;
    match goal with
    | |- context [addFile lib c ?fs b a ?w0] =>
        destruct (addFile lib c fs b a w0) as [[ra a1] w1] eqn:Hadd
    end;
    destruct (addFile_quiet _ _ _ _ _ _ _ _ Hfs Hadd) as (Hd1 & Hdg1 & Hf1);
    simpl in Hd1, Hf1; rewrite filter_snoc_silent in Hf1 by done;
    rewrite <- Hdg1 in Hd;
    destruct ra as [[err|]|p].
  - destruct err; try (intros [= <- <- <-]; by split).
    intros Hrun. by eapply Hfin.
  - intros Hrun. by eapply Hfin.
  - intros [= <- <- <-]. by split.
  - destruct err; try (intros [= <- <- <-]; by split).
    intros Hrun. by eapply Hfin.
  - intros Hloop.
    assert (Hrest : quiet_source rest) by (by inversion Hfs).
    assert (He1 : ctx_Err w1 c = None) by (by rewrite (ctx_Err_done_eq w w1 c Hd1)).
    destruct (IH _ _ _ _ _ Hd Hrest He1 Hloop) as [Hd2 Hf2]. split; congruence.
  - intros [= <- <- <-]. by split.
Qed.

Lemma FromFiles_body_quiet c fs a w r a' w' :
  quiet_dgs (dgs a) -> quiet_source fs -> ctx_Err w c = None ->
  FromFiles_body lib c fs a w = (r, a', w') ->
  w_done w' = w_done w /\
  List.filter is_cancelled_check (w_trace w') = List.filter is_cancelled_check (w_trace w).
Proof.
  intros Hd Hfs He. unfold FromFiles_body.
  destruct lib_quiet as (Hq & _ & _).
  specialize (Hq (w_trace w) (ctx_Err w c) (dgs a)).
  destruct (ipfsadd_NewAdder lib _ _ _) as [[b0|err] cs].
  - simpl in Hq. subst cs.
    destruct (params a) as [p|].
    + destruct (merkledag_PrefixForCidVersion lib (CidVersion p)) as [prefix|err].
      * destruct (multihash_Names lib !! strings_ToLower lib (HashFun p)) as [code|].
        -- intros Hloop.
           apply loop_quiet in Hloop as [Hd2 Hf2]; try done.
           simpl in Hd2, Hf2. rewrite filter_snoc_silent in Hf2 by done. by split.
        -- intros [= <- <- <-]. simpl. split; [done|]. by rewrite filter_snoc_silent.
      * intros [= <- <- <-]. simpl. split; [done|]. by rewrite filter_snoc_silent.
    + intros [= <- <- <-]. simpl. split; [done|]. by rewrite filter_snoc_silent.
  - simpl in Hq. subst cs. intros [= <- <- <-]. simpl. split; [done|].
    by rewrite filter_snoc_silent.
Qed.

(** X9.  [FromFiles] cancels its own token only, never a context of the
    caller: when no collaborator cancels a context during its calls, the
    contexts of the caller are after the run what they were before, and
    no check at the top of an iteration finds the token done. *)
Theorem caller_contexts_are_left_alone ctx0 fs a w r a' w' :
  quiet_dgs (dgs a) -> quiet_source fs ->
  FromFiles lib ctx0 fs a w = (r, a', w') ->
  w_done w' = w_done w /\
  exists evs, w_trace w' = w_trace w ++ evs /\
    Forall (fun e => is_cancelled_check e = false) evs.
Proof.
  intros Hd Hfs Hrun.
  assert (Hboth : w_done w' = w_done w /\
    List.filter is_cancelled_check (w_trace w') =
    List.filter is_cancelled_check (w_trace w)).
  { revert Hrun. unfold FromFiles.
    destruct (setContext_frame ctx0 a) as (Hdg & _ & _).
    destruct (ctx (setContext ctx0 a)) as [c|]; [|by intros [= <- <- <-]].
    rewrite (ctx_Err_done_eq w (log LDebug "adding from files" [] w) c eq_refl).
    destruct (ctx_Err w c) as [e|] eqn:He.
    - intros [= <- <- <-]. simpl. split; [done|]. by rewrite filter_snoc_silent.
    - destruct (FromFiles_body lib c fs _ _) as [[rb a1] w1] eqn:Hbody.
      apply FromFiles_body_quiet in Hbody as [Hd1 Hf1]; try done; [|by rewrite Hdg].
      simpl in Hd1, Hf1. rewrite filter_snoc_silent in Hf1 by done.
      destruct (deferred_close rb a1) as [r2 a2].
      intros [= <- <- <-]. simpl. split; [done|].
      by rewrite !filter_snoc_silent. }
  destruct Hboth as [Hdone Hfilter]. split; [done|].
  assert (Hevs : exists evs, w_trace w' = w_trace w ++ evs).
  { destruct (FromFiles_run lib _ _ _ _ _ _ _ Hrun)
      as [(e0 & _ & _ & Ht & _)|(evs & rb & _ & Ht & _)]; by eexists. }
  destruct Hevs as [evs Ht]. exists evs. split; [done|].
  apply filter_nil_Forall.
  rewrite Ht, List.filter_app in Hfilter.
  apply (app_inv_head (List.filter is_cancelled_check (w_trace w))).
  by rewrite app_nil_r.
Qed.

End Quiet.

(** ** Later calls *)

Section LaterCalls.

Context {Reader : Type}.
Variable lib : Libs Reader.

Lemma Ingest_ctx ctx0 s a w r a' w' :
  Ingest lib ctx0 s a w = (r, a', w') ->
  exists c c', ctx (setContext ctx0 a) = Some c /\ ctx a' = Some c' /\
    ctx_parent c' = ctx_parent c.
Proof.
  assert (HF : forall fs v r a' w', FromFiles lib ctx0 fs a v = (r, a', w') ->
    exists c c', ctx (setContext ctx0 a) = Some c /\ ctx a' = Some c' /\
      ctx_parent c' = ctx_parent c).
  { clear. intros fs v r a' w' Hrun.
    destruct (setContext_ctx ctx0 a) as (c & Hc & _).
    destruct (ctx_Err v c) as [e|] eqn:He.
    - rewrite (FromFiles_spent lib ctx0 fs a v c e Hc He) in Hrun.
      injection Hrun as <- <- <-. by exists c, c.
    - destruct (FromFiles_live lib ctx0 fs a v c r a' w' Hc He Hrun)
        as (evs & rb & a1 & _ & _ & _ & _ & _ & _ & _ & _ & _ & _ & c' & e' & Hc' & Hp & _).
      by exists c, c'. }
  destruct s as [fs|rd]; simpl.
  - apply HF.
  - unfold FromMultipart.
    destruct (FromFiles lib ctx0 _ a _) as [[r0 a0] w0] eqn:Hrun.
    intros [= <- <- <-]. by apply HF in Hrun.
Qed.

(** X10.  Once an entry point was called on an adder, all later calls
    return the same thing, whatever sources and contexts they are given
    and whatever the callers cancel in between: the third call returns
    the error the second returned, and the adder is the one the first
    call left. *)
Theorem later_calls_return_the_same_error
    ctx1 s1 a w r1 a1 w1 cs2 ctx2 s2 r2 a2 w2 cs3 ctx3 s3 r3 a3 w3 :
  Ingest lib ctx1 s1 a w = (r1, a1, w1) ->
  Ingest lib ctx2 s2 a1 (env_cancels cs2 w1) = (r2, a2, w2) ->
  Ingest lib ctx3 s3 a2 (env_cancels cs3 w2) = (r3, a3, w3) ->
  r3 = r2 /\ a3 = a1 /\ a2 = a1.
Proof.
  intros H1 H2 H3.
  destruct (Ingest_leaves_spent lib _ _ _ _ _ _ _ H1) as (c & e & Hc & He).
  apply (ctx_Err_env_cancels cs2) in He.
  destruct (Ingest_on_spent lib _ _ _ _ c e _ _ _ Hc He H2) as (-> & -> & Hd & _).
  rewrite <- (ctx_Err_done_eq _ w2 c Hd) in He.
  apply (ctx_Err_env_cancels cs3) in He.
  by destruct (Ingest_on_spent lib _ _ _ _ c e _ _ _ Hc He H3) as (-> & -> & _).
Qed.

(** X11.  Only the first context counts: the token of a fresh adder is
    derived from the context of its first call, and a later call, given
    another context, leaves the token as it is. *)
Theorem only_the_first_context_counts ctx1 s1 a w r1 a1 w1 cs ctx2 s2 r2 a2 w2 :
  ctx a = None ->
  Ingest lib ctx1 s1 a w = (r1, a1, w1) ->
  Ingest lib ctx2 s2 a1 (env_cancels cs w1) = (r2, a2, w2) ->
  exists c, ctx a1 = Some c /\ ctx_parent c = ctx1 /\ ctx a2 = Some c.
Proof.
  intros Hfresh H1 H2.
  destruct (Ingest_ctx _ _ _ _ _ _ _ H1) as (c0 & c & Hc0 & Hc & Hp).
  destruct (setContext_ctx ctx1 a) as (c0' & Hc0' & Hnew & _).
  rewrite Hc0 in Hc0'. injection Hc0' as <-.
  rewrite (Hnew Hfresh) in Hp. simpl in Hp.
  destruct (Ingest_leaves_spent lib _ _ _ _ _ _ _ H1) as (c' & e & Hc' & He).
  apply (ctx_Err_env_cancels cs) in He.
  destruct (Ingest_on_spent lib _ _ _ _ c' e _ _ _ Hc' He H2) as (_ & -> & _).
  by exists c.
Qed.

End LaterCalls.

(** ** A queue nobody reads *)

Lemma q_unread_steps cap total n q q' :
  nsteps (q_step cap) n q q' ->
  forall k,
    q_consumer q = None -> q_closed q = false ->
    length (q_buf q) = k -> (length (q_pending q) + k = total)%nat ->
    (cap < total)%nat -> (k <= cap)%nat ->
    q_consumer q' = None /\ q_closed q' = false /\
    length (q_buf q') = (k + n)%nat /\
    (length (q_pending q') + (k + n) = total)%nat /\ (k + n <= cap)%nat.
Proof.
  induction 1 as [q|n q q1 q2 Hs _ IH]; intros k Hc Hcl Hb Hp Hcap Hk.
  - rewrite Nat.add_0_r. by repeat split.
  - inversion Hs; subst; simpl in *; try done; try lia.
    destruct (IH (S (length buf))) as (H1 & H2 & H3 & H4 & H5);
      simpl; rewrite ?length_app; simpl; try done; try lia.
    repeat split; try done; lia.
Qed.

(** X12.  [New] starts no consumer for a queue given by the caller.  If
    nobody else reads such a queue, open and of capacity [cap], a run
    that has more than [cap] events to send gets [cap] of them into the
    queue and no further: the queue is never closed, and after [cap]
    sends no step is possible. *)
Theorem unread_queue_blocks ds p ch outs n q :
  ch_closed ch = false -> ch_discarded ch = false ->
  (ch_cap ch < length outs)%nat ->
  nsteps (q_step (ch_cap (output (New ds p (Some ch))))) n
         (queue_of (output (New ds p (Some ch))) outs) q ->
  (n <= ch_cap ch)%nat /\ q_closed q = false /\ q_pending q <> [] /\
  length (q_buf q) = n /\
  (n = ch_cap ch -> ~ exists q', q_step (ch_cap ch) q q').
Proof.
  intros Hopen Hnone Hcap Hsteps. simpl in Hsteps.
  assert (Hstart : forall m q0,
    nsteps (q_step (ch_cap ch)) m (queue_of ch outs) q0 ->
    q_consumer q0 = None /\ q_closed q0 = false /\
    length (q_buf q0) = m /\
    (length (q_pending q0) + m = length outs)%nat /\ (m <= ch_cap ch)%nat).
  { intros m q0 Hm.
    apply (q_unread_steps _ (length outs) _ _ _ Hm 0%nat);
      unfold queue_of; simpl; rewrite ?Hopen, ?Hnone; try done; lia. }
  destruct (Hstart _ _ Hsteps) as (Hc & Hcl & Hb & Hp & Hn).
  split; [done|]. split; [done|]. split; [|split; [done|]].
  - intros Hnil. rewrite Hnil in Hp. simpl in Hp. lia.
  - intros -> [q' Hstep].
    assert (Hmore : nsteps (q_step (ch_cap ch)) (S (ch_cap ch)) (queue_of ch outs) q').
    { by eapply nsteps_r. }
    destruct (Hstart _ _ Hmore) as (_ & _ & _ & _ & Habs). lia.
Qed.

(** ** The logger *)

Lemma env_cancels_log cs w : w_log (env_cancels cs w) = w_log w.
Proof.
  unfold env_cancels. revert w.
  induction cs as [|r cs IH]; intros w; simpl; [done|].
  rewrite IH. unfold cancel_ctx. by destruct (w_done w !! r.1).
Qed.

Lemma extends_refl w : extends w w [] [].
Proof. split; by rewrite app_nil_r. Qed.

Lemma extends_record w w1 evs es e :
  extends w w1 evs es -> extends w (record e w1) (evs ++ [e]) es.
Proof. intros [Ht Hl]. split; simpl; [by rewrite Ht, <- app_assoc|done]. Qed.

Lemma extends_log w w1 evs es l fmt args :
  extends w w1 evs es ->
  extends w (log l fmt args w1) evs
          (es ++ [{| log_level := l; log_format := fmt; log_args := args |}]).
Proof. intros [Ht Hl]. split; simpl; [done|by rewrite Hl, <- app_assoc]. Qed.

Lemma extends_env w w1 evs es cs :
  extends w w1 evs es -> extends w (env_cancels cs w1) evs es.
Proof. intros [Ht Hl]. split; [by rewrite env_cancels_trace|by rewrite env_cancels_log]. Qed.

Lemma extends_trans w w1 w2 evs1 es1 evs2 es2 :
  extends w w1 evs1 es1 -> extends w1 w2 evs2 es2 ->
  extends w w2 (evs1 ++ evs2) (es1 ++ es2).
Proof.
  intros [Ht1 Hl1] [Ht2 Hl2]. split.
  - by rewrite Ht2, Ht1, <- app_assoc.
  - by rewrite Hl2, Hl1, <- app_assoc.
Qed.

Lemma logged_errors_app es1 es2 :
  logged_errors (es1 ++ es2) = logged_errors es1 ++ logged_errors es2.
Proof. apply flat_map_app. Qed.

Lemma logged_roots_app es1 es2 :
  logged_roots (es1 ++ es2) = logged_roots es1 ++ logged_roots es2.
Proof. apply flat_map_app. Qed.

Ltac grows :=
  repeat first [ eassumption | apply extends_refl | eapply extends_record
               | eapply extends_log | eapply extends_env ].

Section Logging.

Context {Reader : Type}.
Variable lib : Libs Reader.

Lemma addFile_send_panic c fs b a w p a' w' :
  addFile lib c fs b a w = (Panic p, a', w') -> p = send_on_closed_channel.
Proof.
  unfold addFile.
  destruct (NextFile fs) as [[[f|err] cs] rest]; [|done].
  destruct (ipfsadd_AddFile lib _ _ b f) as [[err outs] cs'].
  destruct (chan_send_all outs (output a)); congruence.
Qed.

Lemma addFile_log c fs b a w r a' w' :
  addFile lib c fs b a w = (r, a', w') ->
  exists evs es, extends w w' evs es /\
    logged_errors es = [] /\ logged_roots es = [] /\
    (send_panicked r = false ->
     omap logged_failure evs =
     match r with
     | Done (Some err) => if decide (err = io_EOF) then [] else [err]
     | _ => []
     end).
Proof.
  unfold addFile.
  destruct (NextFile fs) as [[[f|err] cs] rest].
  - destruct (ipfsadd_AddFile lib _ _ b f) as [[err outs] cs'].
    destruct (chan_send_all outs (output a)); intros [= <- <- <-];
      (eexists _, _; split; [grows|]; split; [done|]; split; [done|]); [|done].
    intros _. destruct err as [err|]; simpl; [|done].
    unfold logged_failure. simpl. by destruct (decide (err = io_EOF)).
  - intros [= <- <- <-].
    eexists _, _. split; [grows|]. split; [done|]. split; [done|].
    intros _. simpl. unfold logged_failure. simpl. by destruct (decide (err = io_EOF)).
Qed.

Lemma finalize_log c b a w r a' w' :
  finalize lib c b a w = (r, a', w') ->
  exists evs es, extends w w' evs es /\
    logged_roots es = match r with Done (root, None) => [root] | _ => [] end /\
    (send_panicked r = false -> logged_errors es = omap logged_failure evs).
Proof.
  unfold finalize.
  destruct (ipfsadd_Finalize lib _ _ b) as [[res outs] cs].
  destruct (chan_send_all outs (output a)) as [ch|].
  - destruct res as [n|err].
    + destruct (dgs_Finalize _ _ _ _) as [[root [err|]] cs']; intros [= <- <- <-];
        (eexists _, _; split; [grows|]; by split).
    + intros [= <- <- <-]. eexists _, _. split; [grows|]. by split.
  - intros [= <- <- <-]. eexists _, _. split; [grows|]. by split.
Qed.

Lemma loop_log c b fs : forall a w r a' w',
  loop lib c b fs a w = (r, a', w') ->
  exists evs es, extends w w' evs es /\
    logged_roots es = match r with Done (root, None) => [root] | _ => [] end /\
    (send_panicked r = false -> logged_errors es = omap logged_failure evs).
Proof.
  assert (Hfin : forall a1 w1 r a' w' w evs1 es1,
    extends w w1 evs1 es1 -> logged_errors es1 = [] -> logged_roots es1 = [] ->
    omap logged_failure evs1 = [] ->
    finalize lib c b a1 w1 = (r, a', w') ->
    exists evs es, extends w w' evs es /\
      logged_roots es = match r with Done (root, None) => [root] | _ => [] end /\
      (send_panicked r = false -> logged_errors es = omap logged_failure evs)).
  { intros a1 w1 r a' w' w evs1 es1 Hext He1 Hr1 Hf1 Hrun.
    destruct (finalize_log _ _ _ _ _ _ _ Hrun) as (evs2 & es2 & Hext2 & Hr2 & He2).
    exists (evs1 ++ evs2), (es1 ++ es2).
    split; [by eapply extends_trans|].
    rewrite logged_roots_app, logged_errors_app, omap_app, Hr1, He1, Hf1. by split. }
  induction fs as [|s rest IH]; intros a w r a' w';
    rewrite loop_unfold;
    (destruct (ctx_Err w c) as [e|] eqn:He;
     [ intros [= <- <- <-]; eexists _, _; split; [grows|]; by split |]);
    match goal with
    | |- context [addFile lib c ?fs b a ?w0] =>
        destruct (addFile lib c fs b a w0) as [[ra a1] w1] eqn:Hadd
    end;
    destruct (addFile_log _ _ _ _ _ _ _ _ Hadd) as (evs1 & es1 & Hext1 & He1 & Hr1 & Hf1);
    assert (Hext : extends w w1 (EvCtxDone None :: evs1) es1)
      by (apply (extends_trans w (record (EvCtxDone None) w) w1
                  [EvCtxDone None] [] evs1 es1);
          [split; simpl; [done|by rewrite app_nil_r]|done]);
    assert (Hhd : omap logged_failure (EvCtxDone None :: evs1)
                  = omap logged_failure evs1) by reflexivity;
    destruct ra as [[err|]|p]; simpl in Hf1.
  - destruct (decide (err = io_EOF)) as [->|Hne].
    + intros Hrun. refine (Hfin _ _ _ _ _ _ _ _ Hext He1 Hr1 _ Hrun).
      by rewrite Hhd, (Hf1 eq_refl).
    + rewrite (not_EOF_branch err _ _ _ Hne). intros [= <- <- <-].
      eexists _, _. split; [grows|].
      rewrite logged_roots_app, logged_errors_app, He1, Hr1. split; [done|].
      intros _. by rewrite Hhd, (Hf1 eq_refl).
  - intros Hrun. refine (Hfin _ _ _ _ _ _ _ _ Hext He1 Hr1 _ Hrun).
    by rewrite Hhd, (Hf1 eq_refl).
  - intros [= <- <- <-]. eexists _, _. split; [grows|]. split; [done|].
    by rewrite (addFile_send_panic _ _ _ _ _ _ _ _ Hadd).
  - destruct (decide (err = io_EOF)) as [->|Hne].
    + intros Hrun. refine (Hfin _ _ _ _ _ _ _ _ Hext He1 Hr1 _ Hrun).
      by rewrite Hhd, (Hf1 eq_refl).
    + rewrite (not_EOF_branch err _ _ _ Hne). intros [= <- <- <-].
      eexists _, _. split; [grows|].
      rewrite logged_roots_app, logged_errors_app, He1, Hr1. split; [done|].
      intros _. by rewrite Hhd, (Hf1 eq_refl).
  - intros Hrun.
    destruct (IH _ _ _ _ _ Hrun) as (evs2 & es2 & Hext2 & Hr2 & He2).
    exists ((EvCtxDone None :: evs1) ++ evs2), (es1 ++ es2).
    split; [by eapply extends_trans|].
    rewrite logged_roots_app, logged_errors_app, omap_app, Hr1, He1, Hhd, (Hf1 eq_refl).
    by split.
  - intros [= <- <- <-]. eexists _, _. split; [grows|]. split; [done|].
    by rewrite (addFile_send_panic _ _ _ _ _ _ _ _ Hadd).
Qed.

Lemma FromFiles_body_log c fs a w r a' w' :
  FromFiles_body lib c fs a w = (r, a', w') ->
  exists evs es, extends w w' evs es /\
    logged_roots es = match r with Done (root, None) => [root] | _ => [] end /\
    (send_panicked r = false -> logged_errors es = omap logged_failure evs).
Proof.
  unfold FromFiles_body.
  destruct (ipfsadd_NewAdder lib _ _ _) as [[b0|err] cs].
  - destruct (params a) as [p|].
    + destruct (merkledag_PrefixForCidVersion lib (CidVersion p)) as [prefix|err].
      * destruct (multihash_Names lib !! strings_ToLower lib (HashFun p)) as [code|].
        -- intros Hloop.
           destruct (loop_log _ _ _ _ _ _ _ _ Hloop) as (evs & es & Hext & Hr & He).
           exists ([EvNewAdder (ctx_Err w c) (inl b0)] ++ evs), ([] ++ es).
           split; [|by split].
           eapply extends_trans; [|exact Hext].
           apply extends_env. split; simpl; [done|by rewrite app_nil_r].
        -- intros [= <- <- <-]. eexists _, _. split; [grows|]. by split.
      * intros [= <- <- <-]. eexists _, _. split; [grows|]. by split.
    + intros [= <- <- <-]. eexists _, _. split; [grows|]. by split.
  - intros [= <- <- <-]. eexists _, _. split; [grows|]. by split.
Qed.

(** X13.  What a run of [FromFiles] on an open output queue leaves in
    the log: a root is logged at level info exactly when the run
    returns it without error, and the errors logged at level error are
    the failures of [NewAdder], of the source, of [AddFile] and of the
    DAG service's [Finalize].  A failure of the builder's [Finalize], a
    refused version or hash function and a cancellation are returned
    without an entry of level error. *)
Theorem failures_are_logged_but_for_Finalize ctx0 fs a w r a' w' :
  ch_closed (output a) = false ->
  FromFiles lib ctx0 fs a w = (r, a', w') ->
  exists evs es, w_trace w' = w_trace w ++ evs /\ w_log w' = w_log w ++ es /\
    logged_roots es = match r with Done (root, None) => [root] | _ => [] end /\
    logged_errors es = omap logged_failure evs.
Proof.
  intros Hopen. unfold FromFiles.
  destruct (setContext_frame ctx0 a) as (_ & _ & Ho).
  destruct (ctx (setContext ctx0 a)) as [c|].
  - destruct (ctx_Err _ c) as [e|].
    + intros [= <- <- <-].
      exists [EvCtxErr (Some e)], [{| log_level := LDebug;
        log_format := "adding from files"; log_args := [] |}]. by split.
    + destruct (FromFiles_body lib c fs _ _) as [[rb a1] w1] eqn:Hbody.
      destruct (FromFiles_body_log _ _ _ _ _ _ _ Hbody) as (evs & es & [Ht Hl] & Hr & He).
      destruct (FromFiles_body_spec _ _ _ _ _ _ _ _ Hbody)
        as (evs' & _ & _ & _ & _ & _ & _ & _ & Hcl & Hs).
      rewrite Ho in Hcl, Hs. destruct (Hs Hopen) as [_ Hnp].
      unfold deferred_close, chan_close. rewrite Hcl, Hopen.
      intros [= <- <- <-].
      exists ([EvCtxErr None] ++ evs ++ [EvCloseOutput; EvCancel]),
             ([{| log_level := LDebug; log_format := "adding from files";
                  log_args := [] |}] ++ es).
      split; [|split; [|split]].
      * simpl. simpl in Ht. rewrite Ht, <- !app_assoc. reflexivity.
      * simpl. simpl in Hl. rewrite Hl, <- !app_assoc. reflexivity.
      * done.
      * rewrite logged_errors_app, !omap_app, (He Hnp). simpl. by rewrite app_nil_r.
  - intros [= <- <- <-]. exists [], [{| log_level := LDebug;
      log_format := "adding from files"; log_args := [] |}].
    split; [simpl; by rewrite app_nil_r|by split].
Qed.

End Logging.

(** * The further properties in the concrete setting *)

(** The queue of the caller is closed: [AddFile] panics on the file A,
    which is closed all the same. *)
Lemma every_file_is_closed_witness :
  FromFiles demo_lib 0 demo_source closed_queue_adder demo_world
    = (closed_queue_run.1.1, closed_queue_run.1.2, closed_queue_run.2) /\
  closed_queue_run.1.1 = Panic close_of_closed_channel /\
  yielded (w_trace closed_queue_run.2) = [file_A] /\
  closed (w_trace closed_queue_run.2) = yielded (w_trace closed_queue_run.2) /\
  each_file_closed (w_trace closed_queue_run.2).
Proof.
  assert (H1 : FromFiles demo_lib 0 demo_source closed_queue_adder demo_world
               = (closed_queue_run.1.1, closed_queue_run.1.2, closed_queue_run.2))
    by (vm_compute; reflexivity).
  split; [exact H1|]. split; [vm_compute; reflexivity|].
  split; [vm_compute; reflexivity|].
  destruct (every_file_is_closed demo_lib _ _ _ _ _ _ _ H1) as (evs & Ht & Hc & Hall).
  change (w_trace demo_world ++ evs) with evs in Ht. subst evs.
  split; [exact Hc|exact Hall].
Defined.

(** The source that fails on its second item: the run returns the error
    of the source. *)
Lemma errors_are_returned_as_they_are_witness :
  ch_closed (output demo_adder) = false /\
  FromFiles demo_lib 0 failing_source demo_adder demo_world
    = (failing_run.1.1, failing_run.1.2, failing_run.2) /\
  EvNextFile (inr (collaborator_error "read error")) ∈ w_trace failing_run.2 /\
  failing_run.1.1 = Done (None, Some (collaborator_error "read error")).
Proof.
  assert (H1 : ch_closed (output demo_adder) = false) by reflexivity.
  assert (H2 : FromFiles demo_lib 0 failing_source demo_adder demo_world
               = (failing_run.1.1, failing_run.1.2, failing_run.2))
    by (vm_compute; reflexivity).
  assert (H3 : EvNextFile (inr (collaborator_error "read error"))
               ∈ w_trace failing_run.2).
  { vm_compute. do 7 apply list_elem_of_further. apply list_elem_of_here. }
  split; [exact H1|]. split; [exact H2|]. split; [exact H3|].
  destruct (errors_are_returned_as_they_are demo_lib _ _ _ _ _ _ _ H1 H2)
    as (evs & Ht & Hall).
  change (w_trace demo_world ++ evs) with evs in Ht. subst evs.
  exact (Hall _ _ H3 eq_refl).
Defined.

(** The run on the three files returns the root of the DAG service, which
    was asked with the root of the builder. *)
Lemma a_root_comes_from_the_DAG_service_witness :
  FromFiles demo_lib 0 demo_source demo_adder demo_world
    = (demo_run.1.1, demo_run.1.2, demo_run.2) /\
  demo_run.1.1 = Done (Some "cid-hello+cid-world+cid-again"%string, None) /\
  exists pre st b n outs st',
    w_trace demo_run.2 =
      pre ++ [EvBuilderFinalize st b (inl n) outs;
              EvDgsFinalize st' (Node_Cid n)
                            (Some "cid-hello+cid-world+cid-again"%string, None);
              EvCloseOutput; EvCancel] /\
    Forall (fun e => is_failure e = false /\ is_dgs_call e = false) pre.
Proof.
  assert (H1 : FromFiles demo_lib 0 demo_source demo_adder demo_world
               = (demo_run.1.1, demo_run.1.2, demo_run.2))
    by (vm_compute; reflexivity).
  assert (H2 : demo_run.1.1 = Done (Some "cid-hello+cid-world+cid-again"%string, None))
    by (vm_compute; reflexivity).
  split; [exact H1|]. split; [exact H2|].
  destruct (a_root_comes_from_the_DAG_service demo_lib _ _ _ _ _ _ _ H1)
    as (evs & Ht & _ & Hroot).
  change (w_trace demo_world ++ evs) with evs in Ht. subst evs.
  exact (Hroot _ H2).
Defined.

(** The builder answers [io.EOF] for the file B: B is closed, the
    builder is finalized and the file C is never asked for. *)
Lemma AddFile_EOF_ends_the_sequence_witness :
  ch_closed (output demo_adder) = false /\
  FromFiles eof_lib 0 demo_source demo_adder demo_world
    = (eof_run.1.1, eof_run.1.2, eof_run.2) /\
  yielded (w_trace eof_run.2) = [file_A; file_B] /\
  exists pre st b st' b' res outs' tl,
    w_trace eof_run.2 =
      pre ++ EvAddFile st b file_B (Some io_EOF) [] :: EvFileClose file_B ::
             EvBuilderFinalize st' b' res outs' :: tl /\
    Forall (fun e => is_AddFile_EOF e = false) pre /\
    Forall (fun e => is_source_call e = false /\ is_AddFile e = false) tl.
Proof.
  assert (H1 : ch_closed (output demo_adder) = false) by reflexivity.
  assert (H2 : FromFiles eof_lib 0 demo_source demo_adder demo_world
               = (eof_run.1.1, eof_run.1.2, eof_run.2))
    by (vm_compute; reflexivity).
  assert (H3 : exists st b, EvAddFile st b file_B (Some io_EOF) [] ∈ w_trace eof_run.2).
  { eexists _, _. vm_compute. do 8 apply list_elem_of_further. apply list_elem_of_here. }
  split; [exact H1|]. split; [exact H2|]. split; [vm_compute; reflexivity|].
  destruct (AddFile_EOF_ends_the_sequence eof_lib _ _ _ _ _ _ _ H1 H2)
    as (evs & Ht & Hall).
  change (w_trace demo_world ++ evs) with evs in Ht. subst evs.
  destruct H3 as (st & b & Hin).
  destruct (Hall _ _ _ _ Hin) as (pre & st' & b' & res & outs' & tl & Heq & Hpre & Htl).
  exists pre, st, b, st', b', res, outs', tl.
  split; [exact Heq|]. split; [exact Hpre|exact Htl].
Defined.

(** The empty source: one call of the source, no [AddFile], and the
    builder is finalized. *)
Lemma empty_source_is_finalized_witness :
  FromFiles demo_lib 0 [] demo_adder demo_world
    = (empty_run.1.1, empty_run.1.2, empty_run.2) /\
  EvCtxDone None ∈ w_trace empty_run.2 /\
  Forall (fun e => is_AddFile e = false) (w_trace empty_run.2) /\
  (length (List.filter is_source_call (w_trace empty_run.2)) <= 1)%nat /\
  exists st b res outs, EvBuilderFinalize st b res outs ∈ w_trace empty_run.2.
Proof.
  assert (H1 : FromFiles demo_lib 0 [] demo_adder demo_world
               = (empty_run.1.1, empty_run.1.2, empty_run.2))
    by (vm_compute; reflexivity).
  assert (H2 : EvCtxDone None ∈ w_trace empty_run.2).
  { vm_compute. do 2 apply list_elem_of_further. apply list_elem_of_here. }
  split; [exact H1|]. split; [exact H2|].
  destruct (empty_source_is_finalized demo_lib _ _ _ _ _ _ H1)
    as (evs & Ht & Hno & Hone & Hfin).
  change (w_trace demo_world ++ evs) with evs in Ht. subst evs.
  split; [exact Hno|]. split; [exact Hone|exact (Hfin H2)].
Defined.

(** An adder built without parameters: the builder is created, then the
    run panics; no file is read, the queue is closed and the token
    done. *)
Lemma nil_params_panic_after_NewAdder_witness :
  params nil_params_adder = None /\
  FromFiles demo_lib 0 demo_source nil_params_adder demo_world
    = (nil_params_run.1.1, nil_params_run.1.2, nil_params_run.2) /\
  Forall (fun e => is_source_call e = false /\ is_AddFile e = false)
         (w_trace nil_params_run.2) /\
  spent nil_params_run.2 nil_params_run.1.2 /\
  ch_closed (output nil_params_run.1.2) = true /\
  nil_params_run.1.1 = Panic nil_pointer_dereference.
Proof.
  assert (H1 : params nil_params_adder = None) by reflexivity.
  assert (H2 : FromFiles demo_lib 0 demo_source nil_params_adder demo_world
               = (nil_params_run.1.1, nil_params_run.1.2, nil_params_run.2))
    by (vm_compute; reflexivity).
  split; [exact H1|]. split; [exact H2|].
  destruct (nil_params_panic_after_NewAdder demo_lib _ _ _ _ _ _ _ H1 H2)
    as (evs & Ht & Hno & Hsp & Hnew & _).
  change (w_trace demo_world ++ evs) with evs in Ht. subst evs.
  split; [exact Hno|]. split; [exact Hsp|].
  assert (Hin : EvNewAdder None (inl demo_builder0) ∈ w_trace nil_params_run.2).
  { vm_compute. apply list_elem_of_further, list_elem_of_here. }
  destruct (Hnew _ _ Hin) as (_ & Hcl & Hr).
  split; [exact Hcl|exact (Hr eq_refl)].
Defined.

(** The run on the closed queue of the caller ends in the panic of the
    deferred close, with the token done. *)
Lemma closed_queue_panics_witness :
  ch_closed (output closed_queue_adder) = true /\
  ctx (setContext 0 closed_queue_adder) = Some {| ctx_parent := 0; ctx_own := None |} /\
  ctx_Err demo_world {| ctx_parent := 0; ctx_own := None |} = None /\
  FromFiles demo_lib 0 demo_source closed_queue_adder demo_world
    = (closed_queue_run.1.1, closed_queue_run.1.2, closed_queue_run.2) /\
  closed_queue_run.1.1 = Panic close_of_closed_channel /\
  spent closed_queue_run.2 closed_queue_run.1.2.
Proof.
  assert (H1 : ch_closed (output closed_queue_adder) = true) by reflexivity.
  assert (H2 : ctx (setContext 0 closed_queue_adder)
               = Some {| ctx_parent := 0; ctx_own := None |}) by reflexivity.
  assert (H3 : ctx_Err demo_world {| ctx_parent := 0; ctx_own := None |} = None)
    by (vm_compute; reflexivity).
  assert (H4 : FromFiles demo_lib 0 demo_source closed_queue_adder demo_world
               = (closed_queue_run.1.1, closed_queue_run.1.2, closed_queue_run.2))
    by (vm_compute; reflexivity).
  split; [exact H1|]. split; [exact H2|]. split; [exact H3|]. split; [exact H4|].
  destruct (closed_queue_panics demo_lib _ _ _ _ _ _ _ _ H1 H2 H3 H4) as (Hr & Hs & _).
  split; [exact Hr|exact Hs].
Defined.

(** The run on the three files: [NewAdder], then the calls of [AddFile],
    then one [Finalize]. *)
Lemma builder_protocol_is_followed_witness :
  FromFiles demo_lib 0 demo_source demo_adder demo_world
    = (demo_run.1.1, demo_run.1.2, demo_run.2) /\
  (List.filter is_builder_call (w_trace demo_run.2) = [] \/
   exists st res calls,
     List.filter is_builder_call (w_trace demo_run.2) = EvNewAdder st res :: calls /\
     adds_then_finalize calls /\
     (forall err, res = inr err -> calls = [])).
Proof.
  assert (H1 : FromFiles demo_lib 0 demo_source demo_adder demo_world
               = (demo_run.1.1, demo_run.1.2, demo_run.2))
    by (vm_compute; reflexivity).
  split; [exact H1|].
  destruct (builder_protocol_is_followed demo_lib _ _ _ _ _ _ _ H1) as (evs & Ht & Hp).
  change (w_trace demo_world ++ evs) with evs in Ht. subst evs.
  exact Hp.
Defined.

(** The collaborators of the concrete setting cancel nothing: after the
    run no context of the caller is done. *)
Lemma caller_contexts_are_left_alone_witness :
  quiet_lib demo_lib /\ quiet_dgs (dgs demo_adder) /\ quiet_source demo_source /\
  FromFiles demo_lib 0 demo_source demo_adder demo_world
    = (demo_run.1.1, demo_run.1.2, demo_run.2) /\
  w_done demo_run.2 = w_done demo_world /\
  Forall (fun e => is_cancelled_check e = false) (w_trace demo_run.2).
Proof.
  assert (H1 : quiet_lib demo_lib) by (repeat split; intros; reflexivity).
  assert (H2 : quiet_dgs (dgs demo_adder)) by (intros h st root; reflexivity).
  assert (H3 : quiet_source demo_source) by (repeat constructor).
  assert (H4 : FromFiles demo_lib 0 demo_source demo_adder demo_world
               = (demo_run.1.1, demo_run.1.2, demo_run.2))
    by (vm_compute; reflexivity).
  split; [exact H1|]. split; [exact H2|]. split; [exact H3|]. split; [exact H4|].
  destruct (caller_contexts_are_left_alone demo_lib H1 _ _ _ _ _ _ _ H2 H3 H4)
    as (Hd & evs & Ht & Hall).
  change (w_trace demo_world ++ evs) with evs in Ht. subst evs.
  split; [exact Hd|exact Hall].
Defined.

(** A third call, with a third context that the caller cancels before
    it: the error of the second call again. *)
Lemma later_calls_return_the_same_error_witness :
  Ingest demo_lib 0 (Files demo_source) demo_adder demo_world
    = (first_call.1.1, first_call.1.2, first_call.2) /\
  Ingest demo_lib 1 (Multipart [file_A; file_B]) first_call.1.2
         (env_cancels [(1%nat, DeadlineExceeded)] first_call.2)
    = (second_call.1.1, second_call.1.2, second_call.2) /\
  Ingest demo_lib 2 (Files demo_source) second_call.1.2
         (env_cancels [(2%nat, Canceled)] second_call.2)
    = (third_call.1.1, third_call.1.2, third_call.2) /\
  third_call.1.1 = second_call.1.1 /\
  third_call.1.2 = first_call.1.2.
Proof.
  assert (H1 : Ingest demo_lib 0 (Files demo_source) demo_adder demo_world
               = (first_call.1.1, first_call.1.2, first_call.2))
    by (vm_compute; reflexivity).
  assert (H2 : Ingest demo_lib 1 (Multipart [file_A; file_B]) first_call.1.2
                 (env_cancels [(1%nat, DeadlineExceeded)] first_call.2)
               = (second_call.1.1, second_call.1.2, second_call.2))
    by (vm_compute; reflexivity).
  assert (H3 : Ingest demo_lib 2 (Files demo_source) second_call.1.2
                 (env_cancels [(2%nat, Canceled)] second_call.2)
               = (third_call.1.1, third_call.1.2, third_call.2))
    by (vm_compute; reflexivity).
  split; [exact H1|]. split; [exact H2|]. split; [exact H3|].
  destruct (later_calls_return_the_same_error demo_lib
              _ _ _ _ _ _ _ _ _ _ _ _ _ _ _ _ _ _ _ H1 H2 H3) as (Hr & Ha & _).
  split; [exact Hr|exact Ha].
Defined.

(** The second call is given the context 1: the token stays the one
    derived from the context 0. *)
Lemma only_the_first_context_counts_witness :
  ctx demo_adder = None /\
  Ingest demo_lib 0 (Files demo_source) demo_adder demo_world
    = (first_call.1.1, first_call.1.2, first_call.2) /\
  Ingest demo_lib 1 (Multipart [file_A; file_B]) first_call.1.2
         (env_cancels [(1%nat, DeadlineExceeded)] first_call.2)
    = (second_call.1.1, second_call.1.2, second_call.2) /\
  exists c, ctx first_call.1.2 = Some c /\ ctx_parent c = 0%nat /\
    ctx second_call.1.2 = Some c.
Proof.
  assert (H0 : ctx demo_adder = None) by reflexivity.
  assert (H1 : Ingest demo_lib 0 (Files demo_source) demo_adder demo_world
               = (first_call.1.1, first_call.1.2, first_call.2))
    by (vm_compute; reflexivity).
  assert (H2 : Ingest demo_lib 1 (Multipart [file_A; file_B]) first_call.1.2
                 (env_cancels [(1%nat, DeadlineExceeded)] first_call.2)
               = (second_call.1.1, second_call.1.2, second_call.2))
    by (vm_compute; reflexivity).
  split; [exact H0|]. split; [exact H1|]. split; [exact H2|].
  exact (only_the_first_context_counts demo_lib _ _ _ _ _ _ _ _ _ _ _ _ _ H0 H1 H2).
Defined.

(** The unbuffered queue of a caller who does not read it, and one
    event to send: nothing can happen. *)
Lemma unread_queue_blocks_witness :
  ch_closed open_chan = false /\ ch_discarded open_chan = false /\
  (ch_cap open_chan < length [demo_event file_A])%nat /\
  nsteps (q_step (ch_cap (output (New demo_dgs (Some demo_params) (Some open_chan))))) 0
         (queue_of (output (New demo_dgs (Some demo_params) (Some open_chan)))
                   [demo_event file_A])
         (queue_of (output (New demo_dgs (Some demo_params) (Some open_chan)))
                   [demo_event file_A]) /\
  ~ exists q', q_step 0 (queue_of (output (New demo_dgs (Some demo_params) (Some open_chan)))
                                  [demo_event file_A]) q'.
Proof.
  assert (H1 : ch_closed open_chan = false) by reflexivity.
  assert (H2 : ch_discarded open_chan = false) by reflexivity.
  assert (H3 : (ch_cap open_chan < length [demo_event file_A])%nat) by (simpl; lia).
  assert (H4 : nsteps (q_step (ch_cap (output (New demo_dgs (Some demo_params)
                                                    (Some open_chan))))) 0
                 (queue_of (output (New demo_dgs (Some demo_params) (Some open_chan)))
                           [demo_event file_A])
                 (queue_of (output (New demo_dgs (Some demo_params) (Some open_chan)))
                           [demo_event file_A])) by apply nsteps_O.
  split; [exact H1|]. split; [exact H2|]. split; [exact H3|]. split; [exact H4|].
  destruct (unread_queue_blocks demo_dgs (Some demo_params) open_chan _ _ _ H1 H2 H3 H4)
    as (_ & _ & _ & _ & Hstuck).
  exact (Hstuck eq_refl).
Defined.

(** The source that fails on its second item: its error is in the log,
    and no root. *)
Lemma failures_are_logged_but_for_Finalize_witness :
  ch_closed (output demo_adder) = false /\
  FromFiles demo_lib 0 failing_source demo_adder demo_world
    = (failing_run.1.1, failing_run.1.2, failing_run.2) /\
  logged_roots (w_log failing_run.2) = [] /\
  logged_errors (w_log failing_run.2) = [collaborator_error "read error"].
Proof.
  assert (H1 : ch_closed (output demo_adder) = false) by reflexivity.
  assert (H2 : FromFiles demo_lib 0 failing_source demo_adder demo_world
               = (failing_run.1.1, failing_run.1.2, failing_run.2))
    by (vm_compute; reflexivity).
  split; [exact H1|]. split; [exact H2|].
  destruct (failures_are_logged_but_for_Finalize demo_lib _ _ _ _ _ _ _ H1 H2)
    as (evs & es & Ht & Hl & Hr & He).
  change (w_trace demo_world ++ evs) with evs in Ht.
  change (w_log demo_world ++ es) with es in Hl. subst evs es.
  split; [exact Hr|]. rewrite He. vm_compute. reflexivity.
Defined.
